(** * AI-Tools semantic search: a verification development

    A shallow embedding of [semantic_search.py] (class
    [AIToolsSemanticSearch]) and the properties of its query
    normaliser, ranking policy, retrieval modes and snapshot store.

    Conventions of the embedding.
    - A Python [str] is the list of its Unicode code points ([pystr]).
    - A Python [dict] with string keys is a [gmap string value].
    - Objects that the source shares by reference (the records of
      [self.tools_data]) live in a heap [gmap loc dict]; a freshly built
      dict that is returned to the caller is represented by its contents.
    - Exceptions are the [Raise] constructor of the result type [res].
    - A Python [float] is modelled by the rational number it denotes.
      The functions of the engine are embedded with exact arithmetic; the
      [OverflowError] of [int / int], which changes control flow, is part
      of it.  Rounding changes which final scores of [search] are equal,
      and so the order of its results: the module [Rounded] embeds
      [search] once more with its float operations as a parameter, of
      which exact arithmetic, and the rounding of doubles and float32
      numbers under NumPy 1 and NumPy 2, are instances.  What is proved
      about the order of results is proved there, for every rounding that
      keeps the order of numbers.
    - The embedding model, the FAISS index, [pickle] and [random] are
      collaborators: what they answer is a parameter of the development,
      and so is the part of the Unicode character database that lies
      outside ASCII and the Hebrew letters. *)

From Stdlib Require Import ZArith QArith Qminmax Qabs Qround Qpower Lia Lqa Sorted Permutation.
From stdpp Require Import base list strings gmap.

Local Open Scope Z_scope.

(** ** Python strings *)

Module PyStr.

Definition pystr := list Z.

(** Bytes of a literal of this file, and their UTF-8 decoding: used only to
    write the string constants of the source as they appear there. *)
Fixpoint bytes_of (s : string) : list Z :=
  match s with
  | EmptyString => []
  | String a s' => Z.of_N (Ascii.N_of_ascii a) :: bytes_of s'
  end.

Fixpoint utf8_decode (acc : Z) (more : nat) (bs : list Z) : pystr :=
  match bs with
  | [] => []
  | b :: bs' =>
      match more with
      | O =>
          if b <? 128 then b :: utf8_decode 0 0 bs'
          else if b <? 224 then utf8_decode (b - 192) 1 bs'
          else if b <? 240 then utf8_decode (b - 224) 2 bs'
          else utf8_decode (b - 240) 3 bs'
      | S O => (acc * 64 + (b - 128)) :: utf8_decode 0 0 bs'
      | S m => utf8_decode (acc * 64 + (b - 128)) m bs'
      end
  end.

Definition py (s : string) : pystr := utf8_decode 0 0 (bytes_of s).

Definition SPACE : Z := 32.

(** [Py_UNICODE_ISSPACE]: the characters [str.strip()] removes and the
    regular expression class [\s] matches on [str] patterns. *)
Definition is_space (c : Z) : bool :=
  ((9 <=? c) && (c <=? 13)) || ((28 <=? c) && (c <=? 32))
  || (c =? 133) || (c =? 160) || (c =? 5760)
  || ((8192 <=? c) && (c <=? 8202))
  || (c =? 8232) || (c =? 8233) || (c =? 8239) || (c =? 8287)
  || (c =? 12288).

Definition is_ascii_alnum (c : Z) : bool :=
  ((48 <=? c) && (c <=? 57)) || ((65 <=? c) && (c <=? 90))
  || ((97 <=? c) && (c <=? 122)).

(** The Hebrew letters alef .. tav, U+05D0 .. U+05EA. *)
Definition is_hebrew_letter (c : Z) : bool := (1488 <=? c) && (c <=? 1514).

Fixpoint starts_with (old s : pystr) : bool :=
  match old, s with
  | [], _ => true
  | _ :: _, [] => false
  | a :: old', b :: s' => (a =? b) && starts_with old' s'
  end.

(** [str.replace(old, new)]: scan from the left, replace every
    non-overlapping occurrence.  [skip] counts the characters of the
    current match that are still to be consumed. *)
Fixpoint replace_from (skip : nat) (old new s : pystr) : pystr :=
  match s with
  | [] => []
  | c :: s' =>
      match skip with
      | S k => replace_from k old new s'
      | O =>
          if starts_with old s
          then new ++ replace_from (length old - 1) old new s'
          else c :: replace_from 0 old new s'
      end
  end.

Definition replace (old new s : pystr) : pystr :=
  match old with
  | [] => new ++ flat_map (fun c => c :: new) s
  | _ :: _ => replace_from 0 old new s
  end.

(** [str.strip()] *)
Fixpoint lstrip (s : pystr) : pystr :=
  match s with
  | [] => []
  | c :: s' => if is_space c then lstrip s' else s
  end.

Fixpoint rstrip (s : pystr) : pystr :=
  match s with
  | [] => []
  | c :: s' =>
      match rstrip s' with
      | [] => if is_space c then [] else [c]
      | r => c :: r
      end
  end.

Definition strip (s : pystr) : pystr := rstrip (lstrip s).

(** [re.sub(r'\s+', ' ', s)]: every maximal run of whitespace becomes one
    space.  [in_ws] tells that the previous character was whitespace. *)
Fixpoint collapse_ws (in_ws : bool) (s : pystr) : pystr :=
  match s with
  | [] => []
  | c :: s' =>
      if is_space c
      then if in_ws then collapse_ws true s' else SPACE :: collapse_ws true s'
      else c :: collapse_ws false s'
  end.

(** The part of the Unicode character database the source relies on and
    that is not spelled out here: [Py_UNICODE_ISALNUM] outside ASCII and the
    Hebrew letters, [Py_UNICODE_TODECIMAL] outside ASCII, and [str.lower]. *)
Class Unicode := {
  uni_alnum : Z -> bool;
  uni_decimal : Z -> option Z;
  str_lower : pystr -> pystr
}.

Section Classes.

Context {U : Unicode}.

(** The class [\w] of [re] on [str] patterns: alphanumeric or underscore. *)
Definition is_word (c : Z) : bool :=
  if c <? 128 then is_ascii_alnum c || (c =? 95)
  else if is_hebrew_letter c then true
  else uni_alnum c.

(** [re.sub(r'[^\w\s]', ' ', s)] *)
Definition sub_nonword (s : pystr) : pystr :=
  map (fun c => if is_word c || is_space c then c else SPACE) s.

(** The two [re.sub] calls and the [strip] that end both
    [preprocess_query] and [create_search_text]. *)
Definition clean (s : pystr) : pystr :=
  strip (collapse_ws false (sub_nonword s)).

End Classes.

End PyStr.
Export PyStr.

(** ** The query normaliser *)

(** The table of [preprocess_query], in the order of the dict literal
    (which is the order [items()] yields). *)
Definition hebrew_to_english : list (pystr * pystr) :=
  [ (py "צ'אט", py "chat");
    (py "צאט", py "chat");
    (py "בוט", py "bot");
    (py "תמונה", py "image");
    (py "תמונות", py "image");
    (py "וידאו", py "video");
    (py "וידיו", py "video");
    (py "סרטון", py "video");
    (py "טקסט", py "text");
    (py "כתיבה", py "writing");
    (py "עיצוב", py "design");
    (py "יצירה", py "generation create");
    (py "חינמי", py "free");
    (py "בחינם", py "free");
    (py "בתשלום", py "paid");
    (py "עריכה", py "editing");
    (py "קוד", py "code");
    (py "תכנות", py "programming code");
    (py "אתר", py "website");
    (py "לוגו", py "logo");
    (py "מוסיקה", py "music");
    (py "קול", py "voice audio");
    (py "תרגום", py "translation");
    (py "שפה", py "language") ].

(** The loop [for hebrew, english in table.items(): query = query.replace(..)] *)
Definition substitute (table : list (pystr * pystr)) (query : pystr) : pystr :=
  fold_left (fun q he => replace (fst he) (snd he) q) table query.

Definition preprocess_query {U : Unicode} (query : pystr) : pystr :=
  clean (substitute hebrew_to_english query).

(** ** Exceptions *)

Inductive exn :=
| KeyError | IndexError | ValueError | TypeError | AttributeError
| OverflowError | ZeroDivisionError | AssertionError
| FileNotFoundError | UnpicklingError.

Inductive res (A : Type) :=
| Ok (a : A)
| Raise (e : exn).
Arguments Ok {A} a.
Arguments Raise {A} e.

#[global] Instance res_ret : MRet res := fun A a => Ok a.
#[global] Instance res_bind : MBind res := fun A B f m =>
  match m with
  | Ok a => f a
  | Raise e => Raise e
  end.

(** ** Values and records *)

Inductive value :=
| VStr (s : pystr)
| VInt (n : Z)
| VFloat (q : Q).

Abbreviation dict := (gmap string value).

(** [d[k]] *)
Definition dict_getitem (d : dict) (k : string) : res value :=
  match d !! k with
  | Some v => Ok v
  | None => Raise KeyError
  end.

(** [l[i]] for an integer [i] of either sign. *)
Definition list_getitem {A} (l : list A) (i : Z) : res A :=
  let n := Z.of_nat (length l) in
  let j := if i <? 0 then i + n else i in
  if (j <? 0) || (n <=? j) then Raise IndexError
  else match l !! Z.to_nat j with
       | Some a => Ok a
       | None => Raise IndexError
       end.

(** [l[:k]] *)
Definition list_slice_to {A} (l : list A) (k : Z) : list A :=
  if k <? 0 then take (Z.to_nat (Z.of_nat (length l) + k)) l
  else take (Z.to_nat k) l.

(** Truth value of an object in a condition. *)
Definition truthy (v : value) : bool :=
  match v with
  | VStr s => negb (bool_decide (s = []))
  | VInt n => negb (n =? 0)
  | VFloat q => negb (Qeq_bool q 0)
  end.

(** [v.replace(old, new)]: only a [str] has the method. *)
Definition value_replace (v : value) (old new : pystr) : res pystr :=
  match v with
  | VStr s => Ok (replace old new s)
  | _ => Raise AttributeError
  end.

(** [v.lower()] *)
Definition value_lower {U : Unicode} (v : value) : res pystr :=
  match v with
  | VStr s => Ok (str_lower s)
  | _ => Raise AttributeError
  end.

(** [needle in s] on strings. *)
Fixpoint contains (needle s : pystr) : bool :=
  starts_with needle s ||
  match s with
  | [] => false
  | _ :: s' => contains needle s'
  end.

(** ** [int(str)] *)

(** Whitespace that [int] skips around the number: [Py_ISSPACE] on ASCII,
    [Py_UNICODE_ISSPACE] elsewhere. *)
Definition int_space (c : Z) : bool :=
  if c <? 127 then ((9 <=? c) && (c <=? 13)) || (c =? 32) else is_space c.

Definition digit_value {U : Unicode} (c : Z) : option Z :=
  if c <? 127 then (if (48 <=? c) && (c <=? 57) then Some (c - 48) else None)
  else if is_space c then None
  else match uni_decimal c with
       | Some d => if (0 <=? d) && (d <=? 9) then Some d else None
       | None => None
       end.

Fixpoint int_lstrip (s : pystr) : pystr :=
  match s with
  | [] => []
  | c :: s' => if int_space c then int_lstrip s' else s
  end.

(** The digits of the literal, single underscores allowed between them.
    Returns the value, the number of digits and the unread rest. *)
Fixpoint scan_digits {U : Unicode} (acc : Z) (ndigits : nat) (prev_us : bool)
    (s : pystr) : option (Z * nat * pystr) :=
  match s with
  | [] => if prev_us then None else Some (acc, ndigits, [])
  | c :: s' =>
      if c =? 95 then
        if prev_us then None else scan_digits acc ndigits true s'
      else match digit_value c with
           | Some d => scan_digits (acc * 10 + d) (S ndigits) false s'
           | None => if prev_us then None else Some (acc, ndigits, s)
           end
  end.

(** [int(s)] in base 10: optional whitespace, an optional sign, the digits,
    optional whitespace.  The limit that recent interpreters put on the
    number of digits (4300 by default) is not modelled. *)
Definition py_int {U : Unicode} (s : pystr) : res Z :=
  let s1 := int_lstrip s in
  let '(negative, s2) :=
    match s1 with
    | 43 :: r => (false, r)
    | 45 :: r => (true, r)
    | _ => (false, s1)
    end in
  match s2 with
  | 95 :: _ => Raise ValueError
  | _ =>
      match scan_digits 0 0 false s2 with
      | None => Raise ValueError
      | Some (n, O, _) => Raise ValueError
      | Some (n, S _, rest) =>
          if bool_decide (int_lstrip rest = [])
          then Ok (if negative then - n else n)
          else Raise ValueError
      end
  end.

(** ** Float arithmetic *)

Local Open Scope Q_scope.

(** A quotient whose magnitude reaches this bound rounds past the largest
    double: [int / int] raises [OverflowError] there. *)
Definition float_overflow_bound : Q := 2 ^ 1024 - 2 ^ 970.

(** [a / b] on integers: the exact quotient, or [OverflowError] where the
    nearest double is an infinity.  [Rounded.float_of] rounds it. *)
Definition int_truediv (a b : Z) : res Q :=
  if (b =? 0)%Z then Raise ZeroDivisionError
  else
    let q := inject_Z a / inject_Z b in
    if Qle_bool float_overflow_bound (Qabs q) then Raise OverflowError
    else Ok q.

Definition Qltb (x y : Q) : bool := negb (Qle_bool y x).

(** [min(x, y)] on numbers: the first of the smallest. *)
Definition py_min (x y : Q) : Q := if Qltb y x then y else x.

Local Close Scope Q_scope.

(** [int(tool['popularity'].replace('+', '').replace(',', ''))] *)
Definition parse_popularity {U : Unicode} (popularity : value) : res Z :=
  s ← value_replace popularity (py "+") (py "");
  py_int (replace (py ",") (py "") s).

(** The popularity bonus of [search]: the [if], the [try] and the bare
    [except: pass] around the parse and the division. *)
Definition popularity_bonus {U : Unicode} (popularity : value) : Q :=
  if truthy popularity then
    match (pop_num ← parse_popularity popularity;
           q ← int_truediv pop_num 10000;
           mret (py_min q (1 # 10))) with
    | Ok bonus => bonus
    | Raise _ => 0%Q
    end
  else 0%Q.

(** ** [list.sort(key=.., reverse=True)] *)

(** The sort is stable and [reverse=True] keeps the original order of equal
    keys; on keys that are totally ordered this determines the result, which
    a stable insertion sort computes.  Keys are computed once per element,
    before any comparison, and only [<] is used on them. *)
Fixpoint insert_desc {A} (x : Q * A) (l : list (Q * A)) : list (Q * A) :=
  match l with
  | [] => [x]
  | y :: l' => if Qltb (fst x) (fst y) then y :: insert_desc x l' else x :: l
  end.

Definition sort_desc {A} (l : list (Q * A)) : list (Q * A) :=
  foldr insert_desc [] l.

Fixpoint with_keys {A} (key : A -> res Q) (l : list A) : res (list (Q * A)) :=
  match l with
  | [] => Ok []
  | x :: l' =>
      k ← key x;
      r ← with_keys key l';
      mret ((k, x) :: r)
  end.

Definition sort_reverse {A} (key : A -> res Q) (l : list A) : res (list A) :=
  keyed ← with_keys key l;
  mret (map snd (sort_desc keyed)).

(** The key functions [lambda x: x[k]] of the source; both call sites sort
    on a number. *)
Definition number_key (k : string) (d : dict) : res Q :=
  v ← dict_getitem d k;
  match v with
  | VFloat q => Ok q
  | VInt n => Ok (inject_Z n)
  | VStr _ => Raise TypeError
  end.

(** ** The engine *)

Definition loc := nat.

(** A numpy array: its shape and its entries in row-major order. *)
Record ndarray := { shape : list nat; entries : list Q }.

(** A [faiss.IndexFlatIP]: its dimension and the blocks of rows added. *)
Record flat_index := { dimension : nat; added : list ndarray }.

Record engine := {
  heap : gmap loc dict;        (* the dict objects of the corpus *)
  tools_data : list loc;       (* self.tools_data *)
  embeddings : option ndarray; (* self.embeddings, None before the build *)
  index : option flat_index    (* self.index, None before the build *)
}.

Definition deref (h : gmap loc dict) (l : loc) : dict := default ∅ (h !! l).

(** The records of the corpus, by content. *)
Definition corpus (st : engine) : list dict := map (deref (heap st)) (tools_data st).

(** [len(self.tools_data)] *)
Definition corpus_size (st : engine) : Z := Z.of_nat (length (tools_data st)).

(** The embedding model and the similarity index: [nearest ix q k] is
    [zip(scores[0], indices[0])] for the index contents [ix], the
    normalised query [q] and [top_k = k]. *)
Class Retrieval := { nearest : flat_index -> pystr -> Z -> list (Q * Z) }.

Section Engine.

Context {U : Unicode} {R : Retrieval}.

(** The body of the [for] loop of [search]: [None] is the [continue].  The
    sum of the score and the bonus is the exact sum here;
    [Rounded.score_hit] has the float sum. *)
Definition score_hit (st : engine) (i : nat) (hit : Q * Z) : res (option dict) :=
  let '(score, idx) := hit in
  if (corpus_size st <=? idx)%Z then mret None
  else
    l ← list_getitem (tools_data st) idx;
    let tool := deref (heap st) l in
    let tool := <["relevance_score" := VFloat score]> tool in
    let tool := <["rank" := VInt (Z.of_nat i + 1)]> tool in
    popularity ← dict_getitem tool "popularity";
    let bonus := popularity_bonus popularity in
    mret (Some (<["final_score" := VFloat (score + bonus)]> tool)).

Fixpoint search_loop (st : engine) (i : nat) (hits : list (Q * Z))
    (results : list dict) : res (list dict) :=
  match hits with
  | [] => mret results
  | hit :: hits' =>
      r ← score_hit st i hit;
      search_loop st (S i) hits'
        (match r with
         | Some tool => results ++ [tool]
         | None => results
         end)
  end.

Definition search (st : engine) (query : pystr) (top_k : Z) : res (list dict) :=
  if bool_decide (strip query = []) then mret []
  else
    let processed_query := preprocess_query query in
    match index st with
    | None => Raise AttributeError
    | Some ix =>
        results ← search_loop st 0 (nearest ix processed_query top_k) [];
        sort_reverse (number_key "final_score") results
    end.

(** [search_by_category]: the loop over the corpus with its [break]. *)
Fixpoint category_loop (h : gmap loc dict) (category : pystr) (top_k : Z)
    (tools : list loc) (results : list dict) : res (list dict) :=
  match tools with
  | [] => mret results
  | l :: tools' =>
      let tool := deref h l in
      c ← dict_getitem tool "category";
      c ← value_lower c;
      if contains (str_lower category) c then
        let tool_copy := <["rank" := VInt (Z.of_nat (length results) + 1)]> tool in
        let tool_copy := <["relevance_score" := VFloat 1]> tool_copy in
        let results := results ++ [tool_copy] in
        if (top_k <=? Z.of_nat (length results))%Z then mret results
        else category_loop h category top_k tools' results
      else category_loop h category top_k tools' results
  end.

Definition search_by_category (st : engine) (category : pystr) (top_k : Z)
    : res (list dict) :=
  category_loop (heap st) category top_k (tools_data st) [].

(** [get_popular_tools]: the filtering loop, the sort and the ranking loop. *)
Fixpoint popular_loop (h : gmap loc dict) (tools : list loc)
    (tools_with_pop : list dict) : res (list dict) :=
  match tools with
  | [] => mret tools_with_pop
  | l :: tools' =>
      let tool := deref h l in
      popularity ← dict_getitem tool "popularity";
      if truthy popularity then
        match parse_popularity popularity with
        | Ok pop_num =>
            popular_loop h tools'
              (tools_with_pop ++ [<["pop_num" := VInt pop_num]> tool])
        | Raise _ => popular_loop h tools' tools_with_pop
        end
      else popular_loop h tools' tools_with_pop
  end.

Fixpoint rank_loop (i : nat) (tools : list dict) : list dict :=
  match tools with
  | [] => []
  | tool :: tools' =>
      <["relevance_score" := VFloat 1]> (<["rank" := VInt (Z.of_nat i + 1)]> tool)
      :: rank_loop (S i) tools'
  end.

Definition get_popular_tools (st : engine) (top_k : Z) : res (list dict) :=
  tools_with_pop ← popular_loop (heap st) (tools_data st) [];
  sorted ← sort_reverse (number_key "pop_num") tools_with_pop;
  mret (rank_loop 0 (list_slice_to sorted top_k)).

End Engine.

(** [get_random_tools].  [random.sample(population, k)] draws [k] positions
    of the population, all different; the drawn positions are the argument
    [choice].  The function returns references: the objects of the returned
    list are objects of the corpus, and the loop writes into them. *)
Definition good_choice (n : nat) (k : Z) (choice : list nat) : Prop :=
  Z.of_nat (length choice) = k /\ NoDup choice /\ Forall (fun p => (p < n)%nat) choice.

Fixpoint sample {A} (population : list A) (choice : list nat) : res (list A) :=
  match choice with
  | [] => Ok []
  | p :: choice' =>
      match population !! p with
      | Some a => r ← sample population choice'; mret (a :: r)
      | None => Raise IndexError
      end
  end.

Definition random_sample {A} (population : list A) (k : Z) (choice : list nat)
    : res (list A) :=
  if (k <? 0)%Z || (Z.of_nat (length population) <? k)%Z then Raise ValueError
  else sample population choice.

(** [tool[k] = v] on an object of the heap. *)
Definition setitem (l : loc) (k : string) (v : value) (h : gmap loc dict)
    : gmap loc dict :=
  alter (fun d => <[k := v]> d) l h.

Fixpoint mark_loop (i : nat) (tools : list loc) (h : gmap loc dict) : gmap loc dict :=
  match tools with
  | [] => h
  | l :: tools' =>
      mark_loop (S i) tools'
        (setitem l "relevance_score" (VFloat 1)
           (setitem l "rank" (VInt (Z.of_nat i + 1)) h))
  end.

Definition with_heap (st : engine) (h : gmap loc dict) : engine :=
  {| heap := h; tools_data := tools_data st;
     embeddings := embeddings st; index := index st |}.

Definition get_random_tools (st : engine) (count : Z) (choice : list nat)
    : res (engine * list loc) :=
  if (corpus_size st <=? count)%Z then mret (st, tools_data st)
  else
    random_tools ← random_sample (tools_data st) count choice;
    mret (with_heap st (mark_loop 0 random_tools (heap st)), random_tools).

(** ** The snapshot store *)

(** The dict [data] that [save_index] pickles and [load_index] reads: its
    two entries. *)
Record snapshot := {
  snap_tools_data : list dict;
  snap_embeddings : option ndarray
}.

(** [pickle]: the serialiser and the files of the file system. *)
Class Pickle := {
  blob : Type;
  pickle_dumps : snapshot -> blob;
  pickle_loads : blob -> res snapshot
}.

Section Snapshot.

Context {P : Pickle}.

(** The files, by path. *)
Local Abbreviation file_system := (gmap pystr blob).

Definition save_index (st : engine) (path : pystr) (fs : file_system) : file_system :=
  let data := {| snap_tools_data := corpus st;
                 snap_embeddings := embeddings st |} in
  <[path := pickle_dumps data]> fs.

(** Unpickling builds new objects. *)
Definition alloc (h : gmap loc dict) (d : dict) : gmap loc dict * loc :=
  let l := fresh (dom h) in (<[l := d]> h, l).

Fixpoint alloc_all (h : gmap loc dict) (ds : list dict) : gmap loc dict * list loc :=
  match ds with
  | [] => (h, [])
  | d :: ds' =>
      let '(h1, l) := alloc h d in
      let '(h2, ls) := alloc_all h1 ds' in
      (h2, l :: ls)
  end.

(** [faiss.IndexFlatIP(d)] and [index.add(x)], which unpacks
    [n, d = x.shape] and asserts that [d] is the dimension of the index. *)
Definition IndexFlatIP (d : nat) : flat_index := {| dimension := d; added := [] |}.

Definition index_add (ix : flat_index) (x : ndarray) : res flat_index :=
  match shape x with
  | [_; d] =>
      if bool_decide (d = dimension ix)
      then Ok {| dimension := dimension ix; added := added ix ++ [x] |}
      else Raise AssertionError
  | _ => Raise ValueError
  end.

(** [self.embeddings.shape[1]] *)
Definition shape_1 (e : option ndarray) : res nat :=
  match e with
  | None => Raise AttributeError
  | Some a => list_getitem (shape a) 1
  end.

(** [load_index]: the assignments made before an exception stay. *)
Definition load_index (st : engine) (path : pystr) (fs : file_system)
    : engine * bool :=
  match (match fs !! path with
         | Some b => pickle_loads b
         | None => Raise FileNotFoundError
         end) with
  | Raise _ => (st, false)
  | Ok data =>
      let '(h, locs) := alloc_all (heap st) (snap_tools_data data) in
      let st1 := {| heap := h; tools_data := locs;
                    embeddings := snap_embeddings data; index := index st |} in
      match shape_1 (embeddings st1) with
      | Raise _ => (st1, false)
      | Ok d =>
          let st2 := {| heap := h; tools_data := locs;
                        embeddings := snap_embeddings data;
                        index := Some (IndexFlatIP d) |} in
          match (match embeddings st2 with
                 | Some x => index_add (IndexFlatIP d) x
                 | None => Raise AttributeError
                 end) with
          | Raise _ => (st2, false)
          | Ok ix =>
              ({| heap := h; tools_data := locs;
                  embeddings := snap_embeddings data; index := Some ix |}, true)
          end
      end
  end.

End Snapshot.

(** ** Shapes of texts used in the proofs *)

(** What the table is made of: a key is not empty and is written with
    Hebrew letters and the apostrophe; a replacement is not empty and is
    written with small Latin letters and the space. *)
Definition key_char (c : Z) : bool := is_hebrew_letter c || (c =? 39).
Definition latin_char (c : Z) : bool := ((97 <=? c) && (c <=? 122)) || (c =? 32).

Definition plain_entry (he : pystr * pystr) : bool :=
  negb (bool_decide (fst he = [])) && negb (bool_decide (snd he = []))
  && forallb key_char (fst he) && forallb latin_char (snd he).

(** A key of the table is written with Hebrew letters only, or contains an
    apostrophe. *)
Definition letters_or_apostrophe (he : pystr * pystr) : bool :=
  forallb is_hebrew_letter (fst he) || existsb (Z.eqb 39) (fst he).

(** The characters that [sub_nonword] keeps. *)
Definition kept {U : Unicode} (c : Z) : bool := is_word c || is_space c.

(** No whitespace but single spaces; [after_ws] tells that the text follows
    a whitespace character. *)
Fixpoint tidy (after_ws : bool) (s : pystr) : bool :=
  match s with
  | [] => true
  | c :: s' =>
      if is_space c then negb after_ws && (c =? SPACE) && tidy true s'
      else tidy false s'
  end.

(** [x] may stand before [y] in a list sorted on descending keys. *)
Definition key_ge {A} (x y : Q * A) : Prop := (fst y <= fst x)%Q.

(** ** Reading results *)

(** The float stored under a key of a record, if there is one. *)
Definition float_field (k : string) (d : dict) : option Q :=
  match d !! k with
  | Some (VFloat q) => Some q
  | _ => None
  end.

Definition final_score_of (d : dict) : Q := default 0%Q (float_field "final_score" d).

(** What the loop of [search] makes of the record [tool] for the hit number
    [i] with similarity [score]. *)
Definition scored {U : Unicode} (tool : dict) (i : nat) (score : Q) (popularity : value) : dict :=
  <["final_score" := VFloat (score + popularity_bonus popularity)]>
    (<["rank" := VInt (Z.of_nat i + 1)]>
       (<["relevance_score" := VFloat score]> tool)).

(** The record [d] was built by [search] from a record of the corpus. *)
Definition built_from_corpus {U : Unicode} (st : engine) (d : dict) : Prop :=
  exists i score l popularity,
    l ∈ tools_data st /\
    deref (heap st) l !! "popularity" = Some popularity /\
    d = scored (deref (heap st) l) i score popularity.

(** ** The claims under scrutiny, and the formulas of the specification *)

(** The parse of the specification: drop every [+] and [,], read the rest
    as an integer. *)
Definition strip_plus_comma (p : pystr) : pystr :=
  List.filter (fun c => negb (c =? 43) && negb (c =? 44)) p.

(** The bonus as the specification words it. *)
Definition spec_popularity_bonus {U : Unicode} (p : pystr) : Q :=
  match py_int (strip_plus_comma p) with
  | Ok n => Qmin (inject_Z n / 10000) (1 # 10)
  | Raise _ => 0%Q
  end.

(** The quotient of the parsed value by 10000 is too large for a float. *)
Definition quotient_overflows (n : Z) : bool :=
  Qle_bool float_overflow_bound (Qabs (inject_Z n / 10000)).

(** The bonus the code computes, in the words of the specification. *)
Definition capped_popularity_bonus {U : Unicode} (p : pystr) : Q :=
  match py_int (strip_plus_comma p) with
  | Ok n => if quotient_overflows n then 0%Q else Qmin (inject_Z n / 10000) (1 # 10)
  | Raise _ => 0%Q
  end.

(** "The result's final score is its relevance score plus the bonus of the
    specification", for the results of one call of [search]. *)
Definition bonus_claim {U : Unicode} {R : Retrieval}
    (st : engine) (query : pystr) (top_k : Z) : Prop :=
  forall out d, search st query top_k = Ok out -> d ∈ out ->
  exists score p,
    d !! "relevance_score" = Some (VFloat score) /\
    d !! "popularity" = Some (VStr p) /\
    (final_score_of d == score + spec_popularity_bonus p)%Q.

(** "A query that normalises to the empty string has no results." *)
Definition empty_normal_form_claim {U : Unicode} {R : Retrieval}
    (st : engine) : Prop :=
  forall query top_k, preprocess_query query = [] -> search st query top_k = Ok [].

(** "Of two results with the same relevance score, the one with the larger
    popularity stands no later." *)
Definition popularity_order_claim {U : Unicode} {R : Retrieval}
    (st : engine) (query : pystr) (top_k : Z) : Prop :=
  forall out i j a b sa sb pa pb na nb,
    search st query top_k = Ok out ->
    out !! i = Some a -> out !! j = Some b ->
    float_field "relevance_score" a = Some sa ->
    float_field "relevance_score" b = Some sb -> (sa == sb)%Q ->
    a !! "popularity" = Some (VStr pa) -> b !! "popularity" = Some (VStr pb) ->
    py_int (strip_plus_comma pa) = Ok na -> py_int (strip_plus_comma pb) = Ok nb ->
    (nb < na)%Z ->
    (i <= j)%nat.

(** "The rank of the i-th result is i + 1." *)
Definition rank_claim {U : Unicode} {R : Retrieval}
    (st : engine) (query : pystr) (top_k : Z) : Prop :=
  forall out i d, search st query top_k = Ok out -> out !! i = Some d ->
  d !! "rank" = Some (VInt (Z.of_nat i + 1)).

(** ** Records as lists of items *)

(** The items of a record, and of the records of a result: used to compare
    results of the functions of the engine on sample data. *)
Definition items (d : dict) : list (string * value) := map_to_list d.

Definition res_items (r : res (list dict)) : res (list (list (string * value))) :=
  match r with
  | Ok l => Ok (map items l)
  | Raise e => Raise e
  end.

(** ** Sample data *)

(** A record as [load_tools_from_db] builds it. *)
Definition tool_record (name url description category popularity pricing tags : pystr)
    : dict :=
  <["tags" := VStr tags]> (<["pricing" := VStr pricing]>
  (<["popularity" := VStr popularity]> (<["category" := VStr category]>
  (<["description" := VStr description]> (<["url" := VStr url]>
  (<["name" := VStr name]> ∅)))))).

Definition sample_tool (name popularity : pystr) : dict :=
  tool_record name (py "") (py "a chat bot") (py "chat") popularity (py "") (py "").

(** A character database that knows ASCII only. *)
Definition ascii_lower (s : pystr) : pystr :=
  map (fun c => if (65 <=? c) && (c <=? 90) then c + 32 else c) s.

Definition ascii_only : Unicode :=
  {| uni_alnum := fun _ => false; uni_decimal := fun _ => None;
     str_lower := ascii_lower |}.

(** An index that answers every query with the same hits. *)
Definition fixed_hits (hits : list (Q * Z)) : Retrieval :=
  {| nearest := fun _ _ _ => hits |}.

(** An engine whose corpus holds the given records, at the heap locations
    0, 1, 2, .. *)
Definition engine_of (records : list dict) : engine :=
  {| heap := list_to_map (imap (fun i d => (i, d)) records);
     tools_data := seq 0 (length records);
     embeddings := None;
     index := Some (IndexFlatIP 5) |}.

(** Two tools of which the second is the popular one. *)
Definition alpha : dict := sample_tool (py "Alpha") (py "").
Definition beta : dict := sample_tool (py "Beta") (py "1,000+").
Definition two_tools : engine := engine_of [alpha; beta].
Definition two_hits : Retrieval := fixed_hits [((1 # 2)%Q, 0); ((9 # 20)%Q, 1)].

(** What [search] returns on [two_tools] when the index answers [two_hits]. *)
Definition two_tools_results : list dict :=
  [ scored (U := ascii_only) beta 1 (9 # 20) (VStr (py "1,000+"));
    scored (U := ascii_only) alpha 0 (1 # 2) (VStr (py "")) ].

(** Two equally relevant tools, both popular enough for the full bonus. *)
Definition alpha_1000 : dict := sample_tool (py "Alpha") (py "1000").
Definition beta_2000 : dict := sample_tool (py "Beta") (py "2000").
Definition popular_pair : engine := engine_of [alpha_1000; beta_2000].
Definition tied_hits : Retrieval := fixed_hits [((1 # 2)%Q, 0); ((1 # 2)%Q, 1)].

Definition popular_pair_first : dict :=
  scored (U := ascii_only) alpha_1000 0 (1 # 2) (VStr (py "1000")).
Definition popular_pair_second : dict :=
  scored (U := ascii_only) beta_2000 1 (1 # 2) (VStr (py "2000")).

(** Two equally relevant tools of which only the second reaches the cap. *)
Definition alpha_500 : dict := sample_tool (py "Alpha") (py "500").
Definition beta_2k : dict := sample_tool (py "Beta") (py "2,000").
Definition mixed_pair : engine := engine_of [alpha_500; beta_2k].

(** A tool whose popularity is a one followed by 400 zeros. *)
Definition huge_popularity : pystr := 49 :: replicate 400 48.
Definition huge : dict := sample_tool (py "Alpha") huge_popularity.
Definition huge_tool : engine := engine_of [huge].
Definition one_hit : Retrieval := fixed_hits [((1 # 2)%Q, 0)].

Definition huge_result : dict :=
  scored (U := ascii_only) huge 0 (1 # 2) (VStr huge_popularity).

(** The answer of an index of two rows to [top_k = 3]: the missing third
    neighbour is reported as index [-1] with the lowest float32 score. *)
Definition lowest_score : Q := - 340282346638528859811704183484516925440 # 1.

Definition padded_hits : Retrieval :=
  fixed_hits [((1 # 2)%Q, 0); ((9 # 20)%Q, 1); (lowest_score, -1)].

(** ** The retrieval modes: the claim and sample data *)

Definition unit_scores (d : dict) : Prop :=
  d !! "relevance_score" = Some (VFloat 1) /\ d !! "final_score" = Some (VFloat 1).

(** "Every record returned by [search_by_category], [get_random_tools] and
    [get_popular_tools] carries relevance score 1.0 and final score 1.0." *)
Definition unit_scores_claim {U : Unicode} (st : engine) : Prop :=
  (forall category top_k out,
      search_by_category st category top_k = Ok out -> Forall unit_scores out) /\
  (forall count choice st' locs,
      get_random_tools st count choice = Ok (st', locs) ->
      Forall (fun l => unit_scores (deref (heap st') l)) locs) /\
  (forall top_k out,
      get_popular_tools st top_k = Ok out -> Forall unit_scores out).

(** What the retrieval modes add to a record. *)
Definition ranked (tool : dict) (rank : Z) : dict :=
  <["relevance_score" := VFloat 1]> (<["rank" := VInt rank]> tool).

(** A record returned by a retrieval mode: a record of the corpus with
    relevance score 1.0 and whatever final score the corpus record had. *)
Definition from_corpus (st : engine) (d : dict) : Prop :=
  d !! "relevance_score" = Some (VFloat 1) /\
  exists l, l ∈ tools_data st /\
    d !! "final_score" = deref (heap st) l !! "final_score".

(** The engine of [test_get_random_tools_returns_copies]. *)
Definition test_tool (name : pystr) : dict :=
  tool_record name (py "") (py "") (py "") (py "") (py "") (py "").

Definition test_engine : engine :=
  {| heap := <[1%nat := test_tool (py "Tool2")]> (<[0%nat := test_tool (py "Tool1")]> ∅);
     tools_data := [0%nat; 1%nat];
     embeddings := None;
     index := None |}.

(** ** The snapshot store: sample data *)

(** A serialiser that keeps the snapshot as it is. *)
Definition transparent_pickle : Pickle :=
  {| blob := snapshot; pickle_dumps := fun data => data;
     pickle_loads := fun b => Ok b |}.

Definition two_rows : ndarray :=
  {| shape := [2%nat; 3%nat];
     entries := [1%Q; 0%Q; 0%Q; 0%Q; 1%Q; 0%Q] |}.

Definition built_engine : engine :=
  {| heap := heap two_tools; tools_data := tools_data two_tools;
     embeddings := Some two_rows;
     index := Some {| dimension := 3; added := [two_rows] |} |}.

Definition fresh_engine : engine :=
  {| heap := ∅; tools_data := []; embeddings := None; index := None |}.

(** The steps of [test_get_random_tools_returns_copies]: the call, the write
    through the first returned reference, and the read of the name of the
    first record of the corpus, which the test expects to be still Tool1. *)
Definition test_run (choice : list nat) : res (option value) :=
  r ← get_random_tools test_engine 2 choice;
  first ← list_getitem (snd r) 0;
  let h := setitem first "name" (VStr (py "Changed")) (heap (fst r)) in
  original ← list_getitem (tools_data (fst r)) 0;
  mret (deref h original !! "name").

(** ** The search text of a record *)

(** [part.strip()] on a field of a record *)
Definition value_strip (v : value) : res pystr :=
  match v with
  | VStr s => Ok (strip s)
  | _ => Raise AttributeError
  end.

(** The comprehension [[part.strip() for part in parts if part.strip()]] *)
Fixpoint stripped_parts (parts : list value) : res (list pystr) :=
  match parts with
  | [] => Ok []
  | part :: parts' =>
      s ← value_strip part;
      rest ← stripped_parts parts';
      mret (if bool_decide (s = []) then rest else s :: rest)
  end.

(** [sep.join(l)] *)
Fixpoint join (sep : pystr) (l : list pystr) : pystr :=
  match l with
  | [] => []
  | [x] => x
  | x :: l' => x ++ sep ++ join sep l'
  end.

Definition create_search_text {U : Unicode} (tool : dict) : res pystr :=
  name ← dict_getitem tool "name";
  description ← dict_getitem tool "description";
  category ← dict_getitem tool "category";
  tags ← dict_getitem tool "tags";
  parts ← stripped_parts [name; description; category; tags];
  mret (clean (join [SPACE] parts)).

(** The keys that [create_search_text] reads. *)
Definition searchable_keys : list string := ["name"; "description"; "category"; "tags"].

(** A text as the cleaning steps leave it: word characters and single
    spaces, no space at either end. *)
Definition normal_text {U : Unicode} (y : pystr) : Prop :=
  Forall (fun c => c = SPACE \/ (is_word c = true /\ is_space c = false)) y /\
  lstrip y = y /\ rstrip y = y /\
  (forall i, y !! i = Some SPACE -> y !! S i <> Some SPACE).

(** The search text of the sample record [beta]. *)
Definition beta_text : pystr := py "Beta a chat bot chat".

(** ** More sample data for [search] *)

(** An answer of the index with an index below minus the corpus length. *)
Definition wild_hits : Retrieval := fixed_hits [((1 # 2)%Q, 0); ((1 # 3)%Q, -3)].

(** A corpus with a record that has no popularity field. *)
Definition bare_record : dict := <["name" := VStr (py "Bare")]> ∅.
Definition bare_corpus : engine := engine_of [alpha; bare_record].

(** A tool whose popularity is a negative number. *)
Definition debt : pystr := py "-20,000".

(** ** Sample data for the retrieval modes *)

(** What [get_popular_tools] returns on [mixed_pair]. *)
Definition popular_first : dict := ranked (<["pop_num" := VInt 2000]> beta_2k) 1.
Definition popular_second : dict := ranked (<["pop_num" := VInt 500]> alpha_500) 2.

(** ** [get_categories] *)

Definition is_str (v : value) : bool :=
  match v with
  | VStr _ => true
  | _ => false
  end.

Definition number_of (v : value) : Q :=
  match v with
  | VInt n => inject_Z n
  | VFloat q => q
  | VStr _ => 0%Q
  end.

(** [a == b], as a [set] compares its elements: strings by their
    characters, numbers by their value, a string never equals a number. *)
Definition value_eqb (a b : value) : bool :=
  match a, b with
  | VStr s, VStr t => bool_decide (s = t)
  | VStr _, _ | _, VStr _ => false
  | _, _ => Qeq_bool (number_of a) (number_of b)
  end.

(** [s < t] on strings: lexicographic on the code points. *)
Fixpoint str_ltb (s t : pystr) : bool :=
  match s, t with
  | _, [] => false
  | [], _ :: _ => true
  | a :: s', b :: t' => (a <? b) || ((a =? b) && str_ltb s' t')
  end.

(** [a < b] where it is defined: between two strings or two numbers. *)
Definition value_ltb (a b : value) : bool :=
  match a, b with
  | VStr s, VStr t => str_ltb s t
  | VStr _, _ | _, VStr _ => false
  | _, _ => Qltb (number_of a) (number_of b)
  end.

(** [categories.add(v)]: the set as the list of its elements, in the order
    in which they came in; an element equal to one of the set is not added. *)
Definition set_add (v : value) (s : list value) : list value :=
  if existsb (value_eqb v) s then s else s ++ [v].

Fixpoint insert_asc (x : value) (l : list value) : list value :=
  match l with
  | [] => [x]
  | y :: l' => if value_ltb y x then y :: insert_asc x l' else x :: l
  end.

(** [sorted(list(categories))]: ascending; comparing a string with a number
    raises [TypeError].  The elements of a set are pairwise different, so
    the result does not depend on the order in which the set yields them
    ([sorted_values_order]). *)
Definition sorted_values (l : list value) : res (list value) :=
  if forallb is_str l || forallb (fun v => negb (is_str v)) l
  then Ok (foldr insert_asc [] l)
  else Raise TypeError.

Fixpoint categories_loop (h : gmap loc dict) (tools : list loc)
    (categories : list value) : res (list value) :=
  match tools with
  | [] => Ok categories
  | l :: tools' =>
      category ← dict_getitem (deref h l) "category";
      categories_loop h tools'
        (if truthy category then set_add category categories else categories)
  end.

Definition get_categories (st : engine) : res (list value) :=
  categories ← categories_loop (heap st) (tools_data st) [];
  sorted_values categories.

(** Pairwise different, in the sense of the set. *)
Definition different (a b : value) : Prop := value_eqb a b = false.

(** Three tools in two categories. *)
Definition three_tools : engine :=
  engine_of
    [ tool_record (py "Gamma") (py "") (py "draws") (py "image") (py "") (py "") (py "");
      tool_record (py "Alpha") (py "") (py "talks") (py "chat") (py "") (py "") (py "");
      tool_record (py "Delta") (py "") (py "paints") (py "image") (py "") (py "") (py "");
      tool_record (py "Omega") (py "") (py "idles") (py "") (py "") (py "") (py "") ].

(** ** [setup_search_index] *)

(** The embedding model and the normalisation of FAISS: [encode texts] is
    the array that [self.model.encode] returns, [normalize_L2 x] the entries
    of [x] after [faiss.normalize_L2(x)], which rewrites [x] in place and
    keeps its shape. *)
Class Encoder := {
  encode : list pystr -> ndarray;
  normalize_L2 : ndarray -> list Q
}.

(** The first loop of [setup_search_index]: one search text per record, in
    the order of the corpus. *)
Fixpoint search_texts {U : Unicode} (h : gmap loc dict) (tools : list loc)
    : res (list pystr) :=
  match tools with
  | [] => Ok []
  | l :: tools' =>
      search_text ← create_search_text (deref h l);
      rest ← search_texts h tools';
      mret (search_text :: rest)
  end.

Definition normalized {E : Encoder} (x : ndarray) : ndarray :=
  {| shape := shape x; entries := normalize_L2 x |}.

(** [setup_search_index]: the engine it leaves, and the exception it raises
    if any; the assignments made before an exception stay. *)
Definition setup_search_index {U : Unicode} {E : Encoder} (st : engine)
    : engine * option exn :=
  match search_texts (heap st) (tools_data st) with
  | Raise e => (st, Some e)
  | Ok texts =>
      let x := encode texts in
      match list_getitem (shape x) 1 with
      | Raise e =>
          ({| heap := heap st; tools_data := tools_data st;
              embeddings := Some x; index := index st |}, Some e)
      | Ok d =>
          let x' := normalized x in
          match index_add (IndexFlatIP d) x' with
          | Raise e =>
              ({| heap := heap st; tools_data := tools_data st;
                  embeddings := Some x'; index := Some (IndexFlatIP d) |}, Some e)
          | Ok ix =>
              ({| heap := heap st; tools_data := tools_data st;
                  embeddings := Some x'; index := Some ix |}, None)
          end
      end
  end.

(** The index holds the rows of the embedding matrix, one per record. *)
Definition consistent (st : engine) : Prop :=
  exists x n d,
    embeddings st = Some x /\ shape x = [n; d] /\
    index st = Some {| dimension := d; added := [x] |}.

(** An encoder that answers with two rows of three numbers, and a
    normalisation that leaves them as they are. *)
Definition two_row_encoder : Encoder :=
  {| encode := fun _ => two_rows; normalize_L2 := fun x => entries x |}.

(** An engine that holds the corpus [two_tools] and nothing else yet. *)
Definition unbuilt_engine : engine :=
  {| heap := heap two_tools; tools_data := tools_data two_tools;
     embeddings := None; index := None |}.

(** The texts that the build sends to the model for [two_tools], and the
    engine that it leaves with [two_row_encoder]. *)
Definition two_tools_texts : list pystr :=
  [py "Alpha a chat bot chat"; py "Beta a chat bot chat"].

Definition rebuilt_engine : engine :=
  {| heap := heap two_tools; tools_data := tools_data two_tools;
     embeddings := Some (normalized (E := two_row_encoder) two_rows);
     index := Some {| dimension := 3;
                      added := [normalized (E := two_row_encoder) two_rows] |} |}.

(** ** The rounding of the float operations *)

Local Open Scope Q_scope.

(** The nearest integer, a tie going to the even one. *)
Definition round_half_even (x : Q) : Z :=
  let f := Qfloor x in
  match Qcompare (x - inject_Z f) (1 # 2) with
  | Lt => f
  | Gt => (f + 1)%Z
  | Eq => if Z.even f then f else (f + 1)%Z
  end.

(** [floor (log2 x)] for a positive [x]. *)
Definition ilog2 (x : Q) : Z :=
  let k := (Z.log2 (Qnum x) - Z.log2 (Zpos (Qden x)))%Z in
  if Qle_bool (2 ^ k) x then k else (k - 1)%Z.

(** A binary floating-point format: the number of bits of its significand,
    the exponent of its smallest positive number, and the exponent of the
    first power of two beyond its largest finite number. *)
Record float_format := { precision : Z; emin : Z; emax : Z }.

Definition binary64 : float_format := {| precision := 53; emin := -1074; emax := 1024 |}.
Definition binary32 : float_format := {| precision := 24; emin := -149; emax := 128 |}.

(** Round to nearest, ties to even, on a positive number: the unit in the
    last place is [2 ^ e]. *)
Definition round_magnitude (f : float_format) (x : Q) : Q :=
  let e := Z.max (ilog2 x - (precision f - 1)) (emin f) in
  inject_Z (round_half_even (x / 2 ^ e)) * 2 ^ e.

(** Rounding to a format.  A magnitude that rounds beyond the largest
    finite number gives an infinity, for which [2 ^ emax] stands: it is
    larger than every finite number of the format, and rounds to itself. *)
Definition round_float (f : float_format) (x : Q) : Q :=
  match Qcompare x 0 with
  | Eq => 0
  | Gt => Qmin (round_magnitude f x) (2 ^ emax f)
  | Lt => - Qmin (round_magnitude f (- x)) (2 ^ emax f)
  end.

Local Close Scope Q_scope.

(** ** [search] with the rounding of its float operations *)

Module Rounded.

(** The float operations of [search].  [float_of q] is the double nearest
    to [q]: the value of [pop_num / 10000] and of the literal [0.1].
    [float_add score bonus] is [score + popularity_bonus], the sum of a
    NumPy float32 and a Python number. *)
Class Floats := { float_of : Q -> Q; float_add : Q -> Q -> Q }.

Section Engine.

Context {U : Unicode} {R : Retrieval} {F : Floats}.

(** The popularity bonus of [search]: the [if], the [try] and the bare
    [except: pass] around the parse and the division. *)
Definition popularity_bonus (popularity : value) : Q :=
  if truthy popularity then
    match (pop_num ← parse_popularity popularity;
           q ← int_truediv pop_num 10000;
           mret (py_min (float_of q) (float_of (1 # 10)))) with
    | Ok bonus => bonus
    | Raise _ => 0%Q
    end
  else 0%Q.

(** The body of the [for] loop of [search]: [None] is the [continue]. *)
Definition score_hit (st : engine) (i : nat) (hit : Q * Z) : res (option dict) :=
  let '(score, idx) := hit in
  if (corpus_size st <=? idx)%Z then mret None
  else
    l ← list_getitem (tools_data st) idx;
    let tool := deref (heap st) l in
    let tool := <["relevance_score" := VFloat score]> tool in
    let tool := <["rank" := VInt (Z.of_nat i + 1)]> tool in
    popularity ← dict_getitem tool "popularity";
    let bonus := popularity_bonus popularity in
    mret (Some (<["final_score" := VFloat (float_add score bonus)]> tool)).

Fixpoint search_loop (st : engine) (i : nat) (hits : list (Q * Z))
    (results : list dict) : res (list dict) :=
  match hits with
  | [] => mret results
  | hit :: hits' =>
      r ← score_hit st i hit;
      search_loop st (S i) hits'
        (match r with
         | Some tool => results ++ [tool]
         | None => results
         end)
  end.

Definition search (st : engine) (query : pystr) (top_k : Z) : res (list dict) :=
  if bool_decide (strip query = []) then mret []
  else
    let processed_query := preprocess_query query in
    match index st with
    | None => Raise AttributeError
    | Some ix =>
        results ← search_loop st 0 (nearest ix processed_query top_k) [];
        sort_reverse (number_key "final_score") results
    end.

(** What the loop makes of the record [tool] for the hit number [i] with
    similarity [score]. *)
Definition scored (tool : dict) (i : nat) (score : Q) (popularity : value) : dict :=
  <["final_score" := VFloat (float_add score (popularity_bonus popularity))]>
    (<["rank" := VInt (Z.of_nat i + 1)]>
       (<["relevance_score" := VFloat score]> tool)).

End Engine.

End Rounded.

(** The float operations without rounding: the arithmetic of [search] as
    embedded above. *)
Definition exact_floats : Rounded.Floats :=
  {| Rounded.float_of := fun q => q; Rounded.float_add := Qplus |}.

(** The float operations under NumPy 1: the sum of a float32 and a Python
    float is the double nearest to it. *)
Definition numpy1_floats : Rounded.Floats :=
  {| Rounded.float_of := round_float binary64;
     Rounded.float_add := fun score bonus => round_float binary64 (score + bonus)%Q |}.

(** The float operations under NumPy 2: the Python number is converted to
    float32 and the sum is the float32 nearest to it. *)
Definition numpy2_floats : Rounded.Floats :=
  {| Rounded.float_of := round_float binary64;
     Rounded.float_add := fun score bonus =>
       round_float binary32 (score + round_float binary32 bonus)%Q |}.

(** What the theorems need of the float operations: rounding keeps the
    order of numbers, and zero is not rounded below zero. *)
Record monotone_floats (F : Rounded.Floats) : Prop := {
  float_of_le : forall x y : Q, (x <= y)%Q -> (Rounded.float_of x <= Rounded.float_of y)%Q;
  float_of_zero : (0 <= Rounded.float_of 0)%Q;
  float_add_le : forall s s' b b' : Q, (s <= s')%Q -> (b <= b')%Q ->
    (Rounded.float_add s b <= Rounded.float_add s' b')%Q
}.

(** The rank field of the first record is below that of the second. *)
Definition rank_lt (x y : dict) : Prop :=
  exists rx ry, x !! "rank" = Some (VInt rx) /\ y !! "rank" = Some (VInt ry) /\ rx < ry.

(** The record [d] was built by the loop of [Rounded.search] from a record
    of the corpus, for the hit at the place [i]; for a hit at the place
    [i0] or later. *)
Definition rounded_at {U : Unicode} {F : Rounded.Floats}
    (st : engine) (i : nat) (d : dict) : Prop :=
  exists score l popularity,
    l ∈ tools_data st /\
    deref (heap st) l !! "popularity" = Some popularity /\
    d = Rounded.scored (deref (heap st) l) i score popularity.

Definition rounded_from {U : Unicode} {F : Rounded.Floats}
    (st : engine) (i0 : nat) (d : dict) : Prop :=
  exists i, (i0 <= i)%nat /\ rounded_at st i d.

(** ** Sample data for [search] with rounding *)

(** Two equally relevant tools whose popularities, two negative numbers one
    apart, divide to the same double. *)
Definition alpha_deep : dict := sample_tool (py "Alpha") (py "-100000000000000000001").
Definition beta_deep : dict := sample_tool (py "Beta") (py "-100000000000000000000").
Definition deep_pair : engine := engine_of [alpha_deep; beta_deep].

Definition deep_pair_first : dict :=
  Rounded.scored (U := ascii_only) (F := numpy2_floats) alpha_deep 0 (1 # 2)
    (VStr (py "-100000000000000000001")).
Definition deep_pair_second : dict :=
  Rounded.scored (U := ascii_only) (F := numpy2_floats) beta_deep 1 (1 # 2)
    (VStr (py "-100000000000000000000")).

(** What [Rounded.search] returns on [mixed_pair] under NumPy 2. *)
Definition mixed_pair_first : dict :=
  Rounded.scored (U := ascii_only) (F := numpy2_floats) beta_2k 1 (1 # 2)
    (VStr (py "2,000")).
Definition mixed_pair_second : dict :=
  Rounded.scored (U := ascii_only) (F := numpy2_floats) alpha_500 0 (1 # 2)
    (VStr (py "500")).

(** Two hits whose similarities, both float32 numbers, are further apart
    than the cap of the bonus. *)
Definition apart_hits : Retrieval := fixed_hits [((1 # 2)%Q, 1); ((7 # 8)%Q, 0)].

Definition apart_first : dict :=
  Rounded.scored (U := ascii_only) (F := numpy2_floats) alpha 1 (7 # 8) (VStr (py "")).
Definition apart_second : dict :=
  Rounded.scored (U := ascii_only) (F := numpy2_floats) beta 0 (1 # 2) (VStr (py "1,000+")).

(** * Properties *)

(** C8: the normaliser maps the query "צ'אט בוט חינמי!!!" to exactly
    "chat bot free" (the assertion of [test_preprocess_query_translations]). *)
Theorem preprocess_query_example {U : Unicode} :
  preprocess_query (py "צ'אט בוט חינמי!!!") = py "chat bot free".
Proof. vm_compute. reflexivity. Qed.

(** ** Facts about [str.replace] *)

Section ReplaceFacts.

Implicit Types k e s : pystr.

Lemma replace_from_skip n k e s :
  replace_from n k e s = replace_from 0 k e (drop n s).
Proof.
  revert n. induction s as [|c s IH]; intros [|n]; simpl; try reflexivity.
  apply IH.
Qed.

Lemma starts_with_nil_r k : k <> [] -> starts_with k [] = false.
Proof. destruct k; [congruence | reflexivity]. Qed.

Lemma contains_nil_r k : k <> [] -> contains k [] = false.
Proof. intros H. simpl. rewrite starts_with_nil_r by assumption. reflexivity. Qed.

Lemma contains_cons k c s :
  contains k (c :: s) = starts_with k (c :: s) || contains k s.
Proof. reflexivity. Qed.

Lemma contains_tail k c s : contains k s = true -> contains k (c :: s) = true.
Proof. intros H. rewrite contains_cons, H. apply orb_true_r. Qed.

Lemma contains_drop k n s : contains k (drop n s) = true -> contains k s = true.
Proof.
  revert n. induction s as [|c s IH]; intros [|n] H; simpl in H; try assumption.
  apply contains_tail. eapply IH. eassumption.
Qed.

(** A text that begins with a character foreign to [k] does not begin
    with [k]. *)
Lemma starts_with_foreign k x s :
  k <> [] -> x ∉ k -> starts_with k (x :: s) = false.
Proof.
  intros Hk Hx. destruct k as [|y k']; [congruence|]. simpl.
  destruct (Z.eqb_spec y x) as [->|]; [|reflexivity].
  exfalso. apply Hx. left.
Qed.

Lemma contains_app_foreign k e s :
  k <> [] -> (forall c, c ∈ e -> c ∉ k) ->
  contains k (e ++ s) = contains k s.
Proof.
  intros Hk. induction e as [|x e IH]; intros He; [reflexivity|].
  rewrite <- app_comm_cons, contains_cons.
  rewrite starts_with_foreign; [|assumption|apply He; left].
  simpl. apply IH. intros c Hc. apply He. by right.
Qed.

Lemma starts_with_replace k' k e s :
  e <> [] -> (forall c, c ∈ e -> c ∉ k') ->
  starts_with k' (replace_from 0 k e s) = true -> starts_with k' s = true.
Proof.
  intros He. revert s. induction k' as [|y k' IH]; intros s Hd H; [reflexivity|].
  destruct s as [|c s]; [exact H|].
  cbn [replace_from] in H.
  destruct (starts_with k (c :: s)).
  - destruct e as [|x e]; [congruence|].
    rewrite <- app_comm_cons, starts_with_foreign in H; [discriminate|discriminate|].
    apply Hd. left.
  - simpl in H. simpl. apply andb_prop in H as [-> H]. simpl.
    apply IH; [|assumption].
    intros d Hin Hin'. apply (Hd d Hin). by right.
Qed.

Lemma starts_with_cons_replace k' k e c s :
  e <> [] -> (forall d, d ∈ e -> d ∉ k') ->
  starts_with k' (c :: replace_from 0 k e s) = true ->
  starts_with k' (c :: s) = true.
Proof.
  intros He Hd H. destruct k' as [|y k']; [reflexivity|].
  simpl in *. apply andb_prop in H as [-> H]. simpl.
  eapply starts_with_replace; [eassumption| |eassumption].
  intros d Hin Hin'. apply (Hd d Hin). by right.
Qed.

(** Replacing [k] by a text foreign to [k'] creates no occurrence of [k']. *)
Lemma contains_replace_from k' k e s :
  k' <> [] -> e <> [] -> (forall c, c ∈ e -> c ∉ k') ->
  contains k' (replace_from 0 k e s) = true -> contains k' s = true.
Proof.
  intros Hk He Hd.
  induction s as [s IH] using (induction_ltof1 _ (@length Z)). unfold ltof in IH.
  destruct s as [|c s]; [intros H; exact H|].
  cbn [replace_from]. destruct (starts_with k (c :: s)) eqn:E.
  - rewrite contains_app_foreign by assumption.
    rewrite replace_from_skip. intros H.
    apply contains_tail. apply contains_drop with (n := (length k - 1)%nat).
    apply IH; [|assumption]. rewrite length_drop. simpl. lia.
  - rewrite contains_cons. intros H. apply orb_prop in H as [H|H].
    + rewrite contains_cons. apply orb_true_intro. left.
      eapply starts_with_cons_replace; eassumption.
    + apply contains_tail. apply IH; [simpl; lia|assumption].
Qed.

(** After replacing [k] by a text foreign to [k], no [k] is left. *)
Lemma contains_replace_from_self k e s :
  k <> [] -> e <> [] -> (forall c, c ∈ e -> c ∉ k) ->
  contains k (replace_from 0 k e s) = false.
Proof.
  intros Hk He Hd.
  induction s as [s IH] using (induction_ltof1 _ (@length Z)). unfold ltof in IH.
  destruct s as [|c s]; [apply contains_nil_r; assumption|].
  cbn [replace_from]. destruct (starts_with k (c :: s)) eqn:E.
  - rewrite contains_app_foreign by assumption.
    rewrite replace_from_skip. apply IH. rewrite length_drop. simpl. lia.
  - rewrite contains_cons. rewrite IH by (simpl; lia). rewrite orb_false_r.
    destruct (starts_with k (c :: replace_from 0 k e s)) eqn:E'; [|reflexivity].
    apply starts_with_cons_replace in E'; [congruence|assumption|assumption].
Qed.

Lemma replace_absent k e s : contains k s = false -> replace k e s = s.
Proof.
  destruct k as [|y k]; [destruct s; discriminate|].
  unfold replace. induction s as [|c s IH]; [reflexivity|].
  rewrite contains_cons. intros H. apply orb_false_elim in H as [H1 H2].
  cbn [replace_from]. rewrite H1. f_equal. apply IH. assumption.
Qed.

Lemma contains_replace k' k e s :
  k' <> [] -> k <> [] -> e <> [] -> (forall c, c ∈ e -> c ∉ k') ->
  contains k' (replace k e s) = true -> contains k' s = true.
Proof.
  intros Hk' Hk. destruct k; [congruence|]. apply contains_replace_from. assumption.
Qed.

Lemma contains_replace_self k e s :
  k <> [] -> e <> [] -> (forall c, c ∈ e -> c ∉ k) ->
  contains k (replace k e s) = false.
Proof.
  intros Hk. destruct k; [congruence|]. apply contains_replace_from_self. discriminate.
Qed.

End ReplaceFacts.

(** ** The substitution table leaves none of its keys behind *)

Section SubstituteFacts.

Lemma plain_entry_spec he :
  plain_entry he = true ->
  fst he <> [] /\ snd he <> [] /\
  Forall (fun c => key_char c = true) (fst he) /\
  Forall (fun c => latin_char c = true) (snd he).
Proof.
  unfold plain_entry. intros H.
  repeat (apply andb_prop in H as [H ?]).
  apply negb_true_iff, bool_decide_eq_false in H.
  match goal with X : negb _ = true |- _ =>
    apply negb_true_iff, bool_decide_eq_false in X end.
  repeat split; try assumption; apply Forall_forall; intros c Hc;
    match goal with X : forallb ?p ?l = true |- ?p c = true =>
      rewrite forallb_forall in X; apply X; apply list_elem_of_In; assumption end.
Qed.

Lemma latin_not_key k e c :
  Forall (fun c => key_char c = true) k ->
  Forall (fun c => latin_char c = true) e ->
  c ∈ e -> c ∉ k.
Proof.
  intros Hk He Hc Hc'.
  rewrite Forall_forall in Hk, He.
  specialize (Hk _ Hc'). specialize (He _ Hc).
  unfold key_char, is_hebrew_letter, latin_char in *. lia.
Qed.

Lemma substitute_snoc table he s :
  substitute (table ++ [he]) s = replace (fst he) (snd he) (substitute table s).
Proof. unfold substitute. rewrite fold_left_app. reflexivity. Qed.

Lemma substitute_clears table s :
  forallb plain_entry table = true ->
  forall he, he ∈ table -> contains (fst he) (substitute table s) = false.
Proof.
  induction table as [|he0 table IH] using rev_ind; intros Hp he Hin.
  - inversion Hin.
  - rewrite forallb_app in Hp. apply andb_prop in Hp as [Hp Hp0].
    simpl in Hp0. rewrite andb_true_r in Hp0.
    apply plain_entry_spec in Hp0 as (Hk0 & He0 & Hkc0 & Hec0).
    rewrite substitute_snoc.
    apply elem_of_app in Hin as [Hin|Hin].
    + destruct (contains (fst he) (replace _ _ _)) eqn:E; [|reflexivity].
      assert (Hhe : plain_entry he = true).
      { rewrite forallb_forall in Hp. apply Hp. apply list_elem_of_In. assumption. }
      apply plain_entry_spec in Hhe as (Hk & _ & Hkc & _).
      apply contains_replace in E; try assumption.
      * rewrite (IH Hp he Hin) in E. discriminate.
      * intros c. apply latin_not_key; assumption.
    + apply list_elem_of_singleton in Hin as ->.
      apply contains_replace_self; try assumption.
      intros c. apply latin_not_key; assumption.
Qed.

Lemma substitute_absent table s :
  (forall he, he ∈ table -> contains (fst he) s = false) ->
  substitute table s = s.
Proof.
  induction table as [|he table IH] using rev_ind; intros H; [reflexivity|].
  rewrite substitute_snoc, IH.
  - apply replace_absent. apply H. apply elem_of_app. right. left.
  - intros he' Hin. apply H. apply elem_of_app. by left.
Qed.

End SubstituteFacts.

(** ** Facts about the cleaning steps *)

Section CleanFacts.

Context {U : Unicode}.

Implicit Types k s : pystr.

Lemma starts_with_app k s t :
  starts_with k s = true -> starts_with k (s ++ t) = true.
Proof.
  revert s. induction k as [|y k IH]; intros [|c s] H; try reflexivity; try discriminate.
  simpl in *. apply andb_prop in H as [-> H]. simpl. auto.
Qed.

Lemma contains_app_l k s t : contains k s = true -> contains k (s ++ t) = true.
Proof.
  induction s as [|c s IH]; intros H.
  - simpl in H. rewrite orb_false_r in H. destruct k; [|discriminate].
    destruct t; reflexivity.
  - rewrite contains_cons in H. rewrite <- app_comm_cons, contains_cons.
    apply orb_prop in H as [H|H]; apply orb_true_intro.
    + left. apply (starts_with_app k (c :: s) t H).
    + right. auto.
Qed.

Lemma contains_elem k s c : contains k s = true -> c ∈ k -> c ∈ s.
Proof.
  intros H Hc. induction s as [|d s IH].
  - simpl in H. rewrite orb_false_r in H. destruct k; [inversion Hc|discriminate].
  - rewrite contains_cons in H. apply orb_prop in H as [H|H]; [|right; auto].
    clear IH. revert d s H. induction Hc as [c k|c y k Hc IH]; intros d s H.
    + simpl in H. apply andb_prop in H as [H _]. apply Z.eqb_eq in H as ->. left.
    + simpl in H. apply andb_prop in H as [_ H]. right.
      destruct s as [|d' s]; [destruct k; [inversion Hc|discriminate]|].
      eapply IH. eassumption.
Qed.

(** *** lstrip and rstrip cut a text at its ends *)

Lemma lstrip_suffix s : exists t, s = t ++ lstrip s.
Proof.
  induction s as [|c s [t IH]]; [by exists []|]. simpl.
  destruct (is_space c); [|by exists []].
  exists (c :: t). simpl. congruence.
Qed.

Lemma rstrip_prefix s : exists t, s = rstrip s ++ t.
Proof.
  induction s as [|c s [t IH]]; [by exists []|]. simpl.
  destruct (rstrip s) as [|r rs] eqn:E.
  - destruct (is_space c); [by exists (c :: s)|].
    exists t. simpl in IH. simpl. congruence.
  - exists t. simpl. rewrite IH at 1. reflexivity.
Qed.

Lemma contains_app_r k t s : contains k s = true -> contains k (t ++ s) = true.
Proof. induction t; [auto|]. intros H. simpl app. apply contains_tail; auto. Qed.

Lemma contains_strip k s : contains k (strip s) = true -> contains k s = true.
Proof.
  unfold strip. intros H.
  destruct (rstrip_prefix (lstrip s)) as [t Ht].
  destruct (lstrip_suffix s) as [t' Ht'].
  rewrite Ht'. apply contains_app_r. rewrite Ht. apply contains_app_l. exact H.
Qed.

Lemma Forall_lstrip (P : Z -> Prop) s : Forall P s -> Forall P (lstrip s).
Proof.
  destruct (lstrip_suffix s) as [t Ht]. intros H. rewrite Ht in H.
  apply Forall_app in H. tauto.
Qed.

Lemma Forall_rstrip (P : Z -> Prop) s : Forall P s -> Forall P (rstrip s).
Proof.
  destruct (rstrip_prefix s) as [t Ht]. intros H. rewrite Ht in H.
  apply Forall_app in H. tauto.
Qed.

(** *** Hebrew letters pass the cleaning steps untouched *)

Lemma hebrew_letter_kept c :
  is_hebrew_letter c = true -> is_word c = true /\ is_space c = false /\ c <> SPACE.
Proof.
  intros H.
  assert (Hc : 1488 <= c <= 1514) by (unfold is_hebrew_letter in H; lia).
  unfold is_word, is_space, SPACE.
  replace (c <? 128) with false by lia.
  rewrite H. repeat split; lia.
Qed.

Lemma starts_with_sub_nonword k s :
  Forall (fun c => is_hebrew_letter c = true) k ->
  starts_with k (sub_nonword s) = starts_with k s.
Proof.
  intros Hk. revert s. induction Hk as [|y k Hy Hk IH]; intros [|c s]; try reflexivity.
  simpl. rewrite IH. f_equal.
  destruct (hebrew_letter_kept y Hy) as (Hw & Hs & Hne).
  destruct (is_word c || is_space c) eqn:E; [reflexivity|].
  apply orb_false_elim in E as [E _].
  destruct (Z.eqb_spec y SPACE); [congruence|].
  destruct (Z.eqb_spec y c); congruence.
Qed.

Lemma contains_sub_nonword k s :
  Forall (fun c => is_hebrew_letter c = true) k ->
  contains k (sub_nonword s) = contains k s.
Proof.
  intros Hk. induction s as [|c s IH]; [reflexivity|].
  rewrite (contains_cons k c s), <- IH.
  rewrite <- (starts_with_sub_nonword k (c :: s)) by assumption.
  reflexivity.
Qed.

Lemma starts_with_collapse k s :
  Forall (fun c => is_hebrew_letter c = true) k ->
  starts_with k (collapse_ws false s) = true -> starts_with k s = true.
Proof.
  intros Hk. revert s. induction Hk as [|y k Hy Hk IH]; intros [|c s] H;
    try reflexivity; try discriminate.
  destruct (hebrew_letter_kept y Hy) as (Hw & Hs & Hne).
  simpl in H. destruct (is_space c) eqn:E.
  - simpl in H. apply andb_prop in H as [H _]. apply Z.eqb_eq in H. congruence.
  - simpl in H. apply andb_prop in H as [H1 H2]. simpl. rewrite H1. simpl. auto.
Qed.

Lemma contains_collapse k s b :
  k <> [] -> Forall (fun c => is_hebrew_letter c = true) k ->
  contains k (collapse_ws b s) = true -> contains k s = true.
Proof.
  intros Hne Hk. revert b. induction s as [|c s IH]; intros b H; [exact H|].
  simpl in H. destruct (is_space c) eqn:E.
  - apply contains_tail. destruct b; [eauto|].
    rewrite contains_cons in H. apply orb_prop in H as [H|H]; [|eauto].
    destruct Hk as [|y k Hy Hk]; [congruence|].
    destruct (hebrew_letter_kept y Hy) as (_ & _ & Hy').
    simpl in H. apply andb_prop in H as [H _]. apply Z.eqb_eq in H. congruence.
  - rewrite contains_cons in H. rewrite contains_cons.
    apply orb_prop in H as [H|H]; apply orb_true_intro; [left|right; eauto].
    apply (starts_with_collapse k (c :: s) Hk). simpl. rewrite E. exact H.
Qed.

Lemma contains_clean k s :
  k <> [] -> Forall (fun c => is_hebrew_letter c = true) k ->
  contains k (clean s) = true -> contains k s = true.
Proof.
  intros Hne Hk H. unfold clean in H.
  apply contains_strip in H. apply contains_collapse in H; try assumption.
  rewrite contains_sub_nonword in H; assumption.
Qed.

(** *** What a cleaned text looks like *)

Lemma kept_sub_nonword s : Forall (fun c => kept c = true) (sub_nonword s).
Proof.
  unfold sub_nonword. apply Forall_forall. intros c Hc.
  apply list_elem_of_fmap in Hc as (d & -> & _).
  unfold kept. destruct (is_word d || is_space d) eqn:E; [exact E|].
  apply orb_true_intro. right. reflexivity.
Qed.

Lemma kept_collapse b s :
  Forall (fun c => kept c = true) s ->
  Forall (fun c => kept c = true) (collapse_ws b s).
Proof.
  intros H. revert b. induction H as [|c s Hc H IH]; intros b; [constructor|].
  simpl. destruct (is_space c); [destruct b|]; auto.
Qed.

Lemma kept_clean s : Forall (fun c => kept c = true) (clean s).
Proof.
  unfold clean, strip. apply Forall_rstrip, Forall_lstrip, kept_collapse, kept_sub_nonword.
Qed.

Lemma sub_nonword_kept s :
  Forall (fun c => kept c = true) s -> sub_nonword s = s.
Proof.
  induction 1 as [|c s Hc H IH]; [reflexivity|].
  unfold sub_nonword in *. simpl. unfold kept in Hc. rewrite Hc, IH. reflexivity.
Qed.

Lemma tidy_collapse b s : tidy b (collapse_ws b s) = true.
Proof.
  revert b. induction s as [|c s IH]; intros b; [reflexivity|].
  simpl. destruct (is_space c) eqn:E.
  - destruct b; [apply IH|]. simpl. apply IH.
  - simpl. rewrite E. apply IH.
Qed.

Lemma collapse_tidy b s : tidy b s = true -> collapse_ws b s = s.
Proof.
  revert b. induction s as [|c s IH]; intros b H; [reflexivity|].
  simpl in *. destruct (is_space c).
  - apply andb_prop in H as [H H3]. apply andb_prop in H as [H1 H2].
    destruct b; [discriminate|]. apply Z.eqb_eq in H2 as ->.
    rewrite IH by assumption. reflexivity.
  - rewrite IH by assumption. reflexivity.
Qed.

Lemma tidy_weaken s : tidy true s = true -> tidy false s = true.
Proof.
  destruct s as [|c s]; [reflexivity|]. simpl. destruct (is_space c); [discriminate|auto].
Qed.

Lemma tidy_lstrip b s : tidy b s = true -> tidy false (lstrip s) = true.
Proof.
  revert b. induction s as [|c s IH]; intros b H; [reflexivity|].
  simpl in *. destruct (is_space c) eqn:E.
  - apply andb_prop in H as [_ H]. eauto.
  - simpl. rewrite E. exact H.
Qed.

Lemma tidy_rstrip b s : tidy b s = true -> tidy b (rstrip s) = true.
Proof.
  revert b. induction s as [|c s IH]; intros b H; [reflexivity|].
  simpl in *. destruct (is_space c) eqn:E.
  - apply andb_prop in H as [H H3]. apply andb_prop in H as [H1 H2].
    specialize (IH true H3).
    destruct (rstrip s) as [|r rs]; [reflexivity|].
    simpl tidy at 1. rewrite E, H1, H2. exact IH.
  - specialize (IH false H).
    destruct (rstrip s) as [|r rs]; simpl tidy at 1; rewrite E; [reflexivity|exact IH].
Qed.

Lemma lstrip_rstrip_lstrip s : lstrip (rstrip (lstrip s)) = rstrip (lstrip s).
Proof.
  induction s as [|c s IH]; [reflexivity|].
  simpl. destruct (is_space c) eqn:E; [exact IH|].
  simpl. destruct (rstrip s); [rewrite E|]; simpl; rewrite E; reflexivity.
Qed.

Lemma rstrip_rstrip s : rstrip (rstrip s) = rstrip s.
Proof.
  induction s as [|c s IH]; [reflexivity|].
  simpl. destruct (rstrip s) as [|r rs] eqn:E.
  - destruct (is_space c) eqn:Ec; [reflexivity|]. simpl. rewrite Ec. reflexivity.
  - change (rstrip (c :: r :: rs))
      with (match rstrip (r :: rs) with
            | [] => if is_space c then [] else [c]
            | x => c :: x
            end).
    rewrite IH. reflexivity.
Qed.

Lemma strip_strip s : strip (strip s) = strip s.
Proof. unfold strip. rewrite lstrip_rstrip_lstrip. apply rstrip_rstrip. Qed.

Lemma clean_clean s : clean (clean s) = clean s.
Proof.
  unfold clean at 1.
  rewrite sub_nonword_kept by apply kept_clean.
  rewrite collapse_tidy.
  - unfold clean. apply strip_strip.
  - unfold clean, strip. apply tidy_rstrip with (b := false).
    apply tidy_lstrip with (b := false). apply tidy_collapse.
Qed.

End CleanFacts.

(** ** Idempotence of the query normaliser *)

Lemma hebrew_to_english_plain : forallb plain_entry hebrew_to_english = true.
Proof. vm_compute. reflexivity. Qed.

Lemma hebrew_to_english_keys :
  forallb letters_or_apostrophe hebrew_to_english = true.
Proof. vm_compute. reflexivity. Qed.

Lemma preprocess_query_clears {U : Unicode} x he :
  he ∈ hebrew_to_english -> contains (fst he) (preprocess_query x) = false.
Proof.
  intros Hin. unfold preprocess_query.
  destruct (contains (fst he) (clean _)) eqn:E; [exfalso|reflexivity].
  pose proof hebrew_to_english_plain as Hp.
  pose proof hebrew_to_english_keys as Hk.
  rewrite forallb_forall in Hp, Hk.
  specialize (Hp he (proj1 (list_elem_of_In _ _) Hin)).
  specialize (Hk he (proj1 (list_elem_of_In _ _) Hin)).
  apply plain_entry_spec in Hp as (Hne & _).
  unfold letters_or_apostrophe in Hk. apply orb_prop in Hk as [Hk|Hk].
  - rewrite forallb_forall in Hk.
    apply contains_clean in E; [|assumption|].
    + rewrite substitute_clears in E; [discriminate|apply hebrew_to_english_plain|assumption].
    + apply Forall_forall. intros c Hc. apply Hk. apply list_elem_of_In. assumption.
  - apply existsb_exists in Hk as (c & Hc & Hc'). apply Z.eqb_eq in Hc' as <-.
    apply list_elem_of_In in Hc.
    pose proof (contains_elem _ _ _ E Hc) as Hy.
    pose proof (kept_clean (substitute hebrew_to_english x)) as Hkept.
    rewrite Forall_forall in Hkept. specialize (Hkept _ Hy). discriminate.
Qed.

(** C7: normalising a normalised query changes nothing. *)
Theorem preprocess_query_idempotent {U : Unicode} (x : pystr) :
  preprocess_query (preprocess_query x) = preprocess_query x.
Proof.
  unfold preprocess_query at 1.
  rewrite substitute_absent.
  - unfold preprocess_query. apply clean_clean.
  - intros he Hin. apply preprocess_query_clears. assumption.
Qed.

(** ** Facts about the sort *)

Section SortFacts.

Context {A : Type}.

Implicit Types (x y : Q * A) (l : list (Q * A)).

Lemma Qltb_lt (a b : Q) : Qltb a b = true <-> (a < b)%Q.
Proof.
  unfold Qltb. rewrite negb_true_iff. split.
  - intros H. apply Qnot_le_lt. intros Hle. apply Qle_bool_iff in Hle. congruence.
  - intros H. destruct (Qle_bool b a) eqn:E; [|reflexivity].
    apply Qle_bool_iff in E. exfalso. apply (Qlt_not_le _ _ H E).
Qed.

Lemma Qltb_ge (a b : Q) : Qltb a b = false <-> (b <= a)%Q.
Proof.
  unfold Qltb. rewrite negb_false_iff. apply Qle_bool_iff.
Qed.

Lemma insert_desc_perm x l : Permutation (insert_desc x l) (x :: l).
Proof.
  induction l as [|y l IH]; simpl; [reflexivity|].
  destruct (Qltb (fst x) (fst y)); [|reflexivity].
  rewrite IH. apply perm_swap.
Qed.

Lemma sort_desc_perm l : Permutation (sort_desc l) l.
Proof.
  induction l as [|x l IH]; simpl; [reflexivity|].
  rewrite insert_desc_perm. constructor. exact IH.
Qed.

Lemma insert_desc_sorted x l :
  StronglySorted key_ge l -> StronglySorted key_ge (insert_desc x l).
Proof.
  induction 1 as [|y l Hl IH Hy]; simpl.
  - constructor; constructor.
  - destruct (Qltb (fst x) (fst y)) eqn:E.
    + constructor; [exact IH|].
      eapply Permutation_Forall; [symmetry; apply insert_desc_perm|].
      constructor; [|exact Hy].
      apply Qltb_lt in E. unfold key_ge. apply Qlt_le_weak. exact E.
    + apply Qltb_ge in E. constructor; [constructor; assumption|].
      constructor; [exact E|].
      eapply Forall_impl; [exact Hy|].
      intros z Hz. unfold key_ge in *. eapply Qle_trans; eassumption.
Qed.

Lemma sort_desc_sorted l : StronglySorted key_ge (sort_desc l).
Proof.
  induction l as [|x l IH]; simpl; [constructor|].
  apply insert_desc_sorted. exact IH.
Qed.

(** Elements of equal key keep their order: the sort is stable. *)
Lemma insert_desc_stable q x l :
  List.filter (fun z => Qeq_bool (fst z) q) (insert_desc x l)
  = List.filter (fun z => Qeq_bool (fst z) q) (x :: l).
Proof.
  induction l as [|y l IH]; [reflexivity|].
  simpl insert_desc. destruct (Qltb (fst x) (fst y)) eqn:E; [|reflexivity].
  apply Qltb_lt in E.
  cbn [List.filter] in *. rewrite IH.
  destruct (Qeq_bool (fst y) q) eqn:Ey; [|reflexivity].
  destruct (Qeq_bool (fst x) q) eqn:Ex; [|reflexivity].
  apply Qeq_bool_iff in Ex, Ey. rewrite Ex, Ey in E.
  exfalso. apply (Qlt_irrefl q E).
Qed.

Lemma sort_desc_stable q l :
  List.filter (fun z => Qeq_bool (fst z) q) (sort_desc l)
  = List.filter (fun z => Qeq_bool (fst z) q) l.
Proof.
  induction l as [|x l IH]; [reflexivity|].
  simpl sort_desc. rewrite insert_desc_stable. cbn [List.filter].
  rewrite IH. reflexivity.
Qed.

(** In a list sorted on descending keys a strictly larger key stands
    strictly earlier. *)
Lemma sorted_lookup_ge l i j x y :
  StronglySorted key_ge l -> (i < j)%nat ->
  l !! i = Some x -> l !! j = Some y -> (fst y <= fst x)%Q.
Proof.
  intros Hs. revert i j. induction Hs as [|z l Hl IH Hz]; intros i j Hij Hi Hj.
  - discriminate.
  - destruct j as [|j]; [lia|]. simpl in Hj.
    destruct i as [|i].
    + simpl in Hi. injection Hi as ->.
      rewrite Forall_forall in Hz. apply Hz.
      eapply list_elem_of_lookup_2. eassumption.
    + simpl in Hi. apply (IH i j); [lia|assumption|assumption].
Qed.

Lemma sorted_larger_first l i j x y :
  StronglySorted key_ge l ->
  l !! i = Some x -> l !! j = Some y -> (fst y < fst x)%Q -> (i < j)%nat.
Proof.
  intros Hs Hi Hj Hlt.
  destruct (Nat.lt_trichotomy i j) as [H|[H|H]]; [exact H| |].
  - subst j. rewrite Hi in Hj. injection Hj as ->. exfalso. apply (Qlt_irrefl _ Hlt).
  - pose proof (sorted_lookup_ge l j i y x Hs H Hj Hi) as Hle.
    exfalso. apply (Qlt_not_le _ _ Hlt Hle).
Qed.

End SortFacts.

(** ** Facts about [search] *)

Section SearchFacts.

Context {U : Unicode} {R : Retrieval}.

Lemma list_getitem_elem {A} (l : list A) (i : Z) (a : A) :
  list_getitem l i = Ok a -> a ∈ l.
Proof.
  unfold list_getitem. destruct (_ || _); [discriminate|].
  destruct (l !! _) eqn:E; [|discriminate].
  intros [= ->]. eapply list_elem_of_lookup_2. eassumption.
Qed.

Lemma score_hit_some st i score idx d :
  score_hit st i (score, idx) = Ok (Some d) ->
  exists l popularity,
    list_getitem (tools_data st) idx = Ok l /\
    deref (heap st) l !! "popularity" = Some popularity /\
    d = scored (deref (heap st) l) i score popularity.
Proof.
  unfold score_hit. destruct (corpus_size st <=? idx); [discriminate|].
  destruct (list_getitem (tools_data st) idx) as [l|e] eqn:El; [|discriminate].
  cbn [mbind res_bind]. unfold dict_getitem.
  rewrite lookup_insert_ne by discriminate.
  rewrite lookup_insert_ne by discriminate.
  destruct (deref (heap st) l !! "popularity") as [p|] eqn:Ep; [|discriminate].
  cbn [mbind res_bind mret res_ret]. intros [= <-].
  exists l, p. repeat split; assumption || reflexivity.
Qed.

(** The accumulator of the loop only grows at its end. *)
Lemma search_loop_acc st i hits acc :
  search_loop st i hits acc
  = (built ← search_loop st i hits []; mret (acc ++ built)).
Proof.
  revert i acc. induction hits as [|hit hits IH]; intros i acc.
  - cbn. rewrite app_nil_r. reflexivity.
  - cbn [search_loop].
    destruct (score_hit st i hit) as [[d|]|e]; cbn [mbind res_bind]; try reflexivity.
    + rewrite (IH (S i) (acc ++ [d])), (IH (S i) ([] ++ [d])).
      destruct (search_loop st (S i) hits []); cbn [mbind res_bind mret res_ret];
        [|reflexivity].
      rewrite <- app_assoc. reflexivity.
    + apply IH.
Qed.

Lemma search_loop_cons st i hit hits :
  search_loop st i (hit :: hits) []
  = (r ← score_hit st i hit;
     built ← search_loop st (S i) hits [];
     mret (match r with Some d => d :: built | None => built end)).
Proof.
  cbn [search_loop].
  destruct (score_hit st i hit) as [[d|]|e]; cbn [mbind res_bind]; try reflexivity.
  - rewrite search_loop_acc. reflexivity.
  - destruct (search_loop st (S i) hits []); reflexivity.
Qed.

Lemma search_loop_built st i hits built :
  search_loop st i hits [] = Ok built -> Forall (built_from_corpus st) built.
Proof.
  revert i built. induction hits as [|[score idx] hits IH]; intros i built.
  - intros [= <-]. constructor.
  - rewrite search_loop_cons.
    destruct (score_hit st i (score, idx)) as [r|e] eqn:E; [|discriminate].
    cbn [mbind res_bind].
    destruct (search_loop st (S i) hits []) as [b|e] eqn:Eb; [|discriminate].
    cbn [mbind res_bind mret res_ret]. intros [= <-].
    specialize (IH _ _ Eb). destruct r as [d|]; [|exact IH].
    constructor; [|exact IH].
    apply score_hit_some in E as (l & p & Hl & Hp & ->).
    exists i, score, l, p. repeat split; [|assumption].
    eapply list_getitem_elem. eassumption.
Qed.

(** The fields of a result of [search]. *)
Lemma scored_fields tool i score popularity :
  tool !! "popularity" = Some popularity ->
  let d := scored tool i score popularity in
  d !! "relevance_score" = Some (VFloat score) /\
  d !! "rank" = Some (VInt (Z.of_nat i + 1)) /\
  d !! "popularity" = Some popularity /\
  d !! "final_score" = Some (VFloat (score + popularity_bonus popularity)).
Proof.
  intros Hp d. unfold d, scored. repeat split.
  - rewrite !lookup_insert_ne by discriminate. apply lookup_insert_eq.
  - rewrite lookup_insert_ne by discriminate. apply lookup_insert_eq.
  - rewrite !lookup_insert_ne by discriminate. exact Hp.
  - apply lookup_insert_eq.
Qed.

Lemma with_keys_built st built :
  Forall (built_from_corpus st) built ->
  with_keys (number_key "final_score") built
  = Ok (map (fun d => (final_score_of d, d)) built).
Proof.
  induction 1 as [|d built Hd H IH]; [reflexivity|].
  cbn [with_keys]. rewrite IH.
  destruct Hd as (i & score & l & p & _ & Hp & ->).
  destruct (scored_fields _ i score p Hp) as (_ & _ & _ & Hf).
  unfold number_key, dict_getitem. rewrite Hf.
  cbn [mbind res_bind mret res_ret map].
  unfold final_score_of, float_field. rewrite Hf. reflexivity.
Qed.

(** [search] on a query that is not blank: the loop, then the sort. *)
Lemma search_ok_inv st query top_k out :
  strip query <> [] ->
  search st query top_k = Ok out ->
  exists ix built,
    index st = Some ix /\
    search_loop st 0 (nearest ix (preprocess_query query) top_k) [] = Ok built /\
    Forall (built_from_corpus st) built /\
    out = map snd (sort_desc (map (fun d => (final_score_of d, d)) built)).
Proof.
  intros Hq. unfold search. rewrite bool_decide_eq_false_2 by assumption.
  destruct (index st) as [ix|]; [|discriminate].
  destruct (search_loop st 0 _ []) as [built|e] eqn:E; [|discriminate].
  cbn [mbind res_bind]. pose proof (search_loop_built _ _ _ _ E) as Hb.
  unfold sort_reverse. rewrite (with_keys_built st built Hb).
  cbn [mbind res_bind mret res_ret]. intros [= <-].
  exists ix, built. repeat split; assumption || reflexivity.
Qed.

Lemma search_blank st query top_k :
  strip query = [] -> search st query top_k = Ok [].
Proof.
  intros Hq. unfold search. rewrite bool_decide_eq_true_2 by assumption. reflexivity.
Qed.

Lemma search_results_built st query top_k out :
  search st query top_k = Ok out -> Forall (built_from_corpus st) out.
Proof.
  destruct (decide (strip query = [])) as [Hq|Hq].
  - rewrite search_blank by assumption. intros [= <-]. constructor.
  - intros H. apply search_ok_inv in H as (ix & built & _ & _ & Hb & ->); [|assumption].
    apply Forall_forall. intros d Hd.
    apply list_elem_of_fmap in Hd as ([q d'] & -> & Hd).
    apply list_elem_of_In in Hd.
    apply (Permutation_in _ (sort_desc_perm _)) in Hd.
    apply list_elem_of_In, list_elem_of_fmap in Hd as (d0 & [= -> ->] & Hd).
    rewrite Forall_forall in Hb. simpl. apply Hb. exact Hd.
Qed.

End SearchFacts.

(** ** The popularity bonus *)

Section BonusFacts.

Context {U : Unicode}.

Lemma replace_char_empty c s :
  replace [c] [] s = List.filter (fun x => negb (x =? c)) s.
Proof.
  unfold replace. induction s as [|x s IH]; [reflexivity|].
  cbn [replace_from starts_with length List.filter]. rewrite andb_true_r.
  rewrite (Z.eqb_sym x c).
  destruct (c =? x); cbn [negb app Nat.sub]; rewrite IH; reflexivity.
Qed.

Lemma filter_filter {A} (f g : A -> bool) (l : list A) :
  List.filter g (List.filter f l) = List.filter (fun x => f x && g x) l.
Proof.
  induction l as [|x l IH]; [reflexivity|].
  cbn [List.filter]. destruct (f x); cbn [List.filter andb]; rewrite IH; reflexivity.
Qed.

Lemma parse_popularity_str p :
  parse_popularity (VStr p) = py_int (strip_plus_comma p).
Proof.
  unfold parse_popularity, value_replace. cbn [mbind res_bind].
  change (py "+") with [43]. change (py ",") with [44]. change (py "") with (@nil Z).
  rewrite !replace_char_empty, filter_filter. reflexivity.
Qed.

Lemma strip_plus_comma_nil p : p = [] -> strip_plus_comma p = [].
Proof. intros ->. reflexivity. Qed.

Lemma py_min_min (x y : Q) : (py_min x y == Qmin x y)%Q.
Proof.
  unfold py_min. destruct (Qltb y x) eqn:E.
  - apply Qltb_lt in E. symmetry. apply Q.min_r. apply Qlt_le_weak. exact E.
  - apply Qltb_ge in E. symmetry. apply Q.min_l. exact E.
Qed.

(** The bonus of the code, for a popularity that is a string. *)
Lemma popularity_bonus_str p :
  (popularity_bonus (VStr p) == capped_popularity_bonus p)%Q.
Proof.
  unfold popularity_bonus, capped_popularity_bonus. cbn [truthy].
  destruct (decide (p = [])) as [->|Hp].
  - reflexivity.
  - rewrite bool_decide_eq_false_2 by assumption. cbn [negb].
    rewrite parse_popularity_str.
    destruct (py_int (strip_plus_comma p)) as [n|e]; cbn [mbind res_bind]; [|reflexivity].
    unfold int_truediv, quotient_overflows. cbn [Z.eqb].
    change (inject_Z 10000) with (10000%Q).
    destruct (Qle_bool _ _); cbn [mbind res_bind mret res_ret]; [reflexivity|].
    apply py_min_min.
Qed.

Lemma capped_bonus_spec p :
  (forall n, py_int (strip_plus_comma p) = Ok n -> quotient_overflows n = false) ->
  (capped_popularity_bonus p == spec_popularity_bonus p)%Q.
Proof.
  intros H. unfold capped_popularity_bonus, spec_popularity_bonus.
  destruct (py_int (strip_plus_comma p)) as [n|e]; [|reflexivity].
  rewrite (H n eq_refl). reflexivity.
Qed.

End BonusFacts.

(** ** Results of [search] *)

Section SearchResults.

Context {U : Unicode} {R : Retrieval}.

Lemma built_fields st d :
  built_from_corpus st d ->
  exists score popularity,
    d !! "relevance_score" = Some (VFloat score) /\
    d !! "popularity" = Some popularity /\
    d !! "final_score" = Some (VFloat (score + popularity_bonus popularity)).
Proof.
  intros (i & score & l & p & _ & Hp & ->).
  destruct (scored_fields _ i score p Hp) as (H1 & _ & H3 & H4).
  exists score, p. repeat split; assumption.
Qed.

(** The sorted list of [search], with its keys. *)
Lemma sorted_results_lookup (built : list dict) i a :
  map snd (sort_desc (map (fun d => (final_score_of d, d)) built)) !! i = Some a ->
  sort_desc (map (fun d => (final_score_of d, d)) built) !! i
  = Some (final_score_of a, a).
Proof.
  intros H. rewrite list_lookup_fmap in H.
  destruct (sort_desc _ !! i) as [[k d]|] eqn:E; [|discriminate].
  injection H as <-. f_equal.
  apply list_elem_of_lookup_2, list_elem_of_In in E.
  apply (Permutation_in _ (sort_desc_perm _)) in E.
  apply list_elem_of_In, list_elem_of_fmap in E as (d0 & [= -> ->] & _).
  reflexivity.
Qed.

Lemma list_getitem_ok {A} (l : list A) (i : Z) :
  - Z.of_nat (length l) <= i < Z.of_nat (length l) ->
  exists a,
    list_getitem l i = Ok a /\
    l !! Z.to_nat (if i <? 0 then i + Z.of_nat (length l) else i) = Some a.
Proof.
  intros Hi. unfold list_getitem.
  set (j := if i <? 0 then i + Z.of_nat (length l) else i).
  assert (Hj : 0 <= j < Z.of_nat (length l)).
  { unfold j. destruct (Z.ltb_spec i 0); lia. }
  replace ((j <? 0) || (Z.of_nat (length l) <=? j)) with false by lia.
  destruct (l !! Z.to_nat j) as [a|] eqn:E.
  - exists a. split; reflexivity.
  - apply lookup_ge_None in E. lia.
Qed.

(** A hit whose index is not below minus the corpus length raises nothing,
    provided the records have their popularity field. *)
Lemma score_hit_ok st i score idx :
  Forall (fun l => is_Some (deref (heap st) l !! "popularity")) (tools_data st) ->
  - corpus_size st <= idx ->
  if corpus_size st <=? idx then score_hit st i (score, idx) = Ok None
  else exists l popularity,
      tools_data st !! Z.to_nat (if idx <? 0 then idx + corpus_size st else idx) = Some l /\
      deref (heap st) l !! "popularity" = Some popularity /\
      score_hit st i (score, idx) = Ok (Some (scored (deref (heap st) l) i score popularity)).
Proof.
  intros Hwf Hidx. unfold score_hit.
  destruct (Z.leb_spec (corpus_size st) idx) as [Hge|Hlt]; [reflexivity|].
  destruct (list_getitem_ok (tools_data st) idx) as (l & Hl & Hl');
    [unfold corpus_size in *; lia|].
  rewrite Hl. cbn [mbind res_bind].
  rewrite Forall_forall in Hwf.
  destruct (Hwf l) as [p Hp]; [eapply list_elem_of_lookup_2; eassumption|].
  exists l, p. repeat split; [exact Hl'|exact Hp|].
  unfold dict_getitem. rewrite !lookup_insert_ne by discriminate. rewrite Hp.
  reflexivity.
Qed.

Lemma search_loop_total st i hits :
  Forall (fun l => is_Some (deref (heap st) l !! "popularity")) (tools_data st) ->
  Forall (fun hit => - corpus_size st <= snd hit) hits ->
  exists built,
    search_loop st i hits [] = Ok built /\
    forall j score idx d,
      hits !! j = Some (score, idx) ->
      score_hit st (i + j) (score, idx) = Ok (Some d) -> d ∈ built.
Proof.
  intros Hwf Hhits. revert i.
  induction Hhits as [|[score idx] hits Hh Hhits IH]; intros i.
  - exists []. split; [reflexivity|]. intros j ? ? ? Hj. discriminate.
  - destruct (IH (S i)) as (b & Hb & Hin).
    rewrite search_loop_cons, Hb.
    pose proof (score_hit_ok st i score idx Hwf Hh) as Hs.
    destruct (corpus_size st <=? idx).
    + rewrite Hs. exists b. split; [reflexivity|].
      intros [|j] s' idx' d Hj Hd.
      * simpl in Hj. injection Hj as <- <-.
        rewrite Nat.add_0_r in Hd. congruence.
      * simpl in Hj. apply (Hin j s' idx' d Hj).
        replace (S i + j)%nat with (i + S j)%nat by lia. exact Hd.
    + destruct Hs as (l & p & _ & _ & Hs). rewrite Hs.
      eexists. split; [reflexivity|].
      intros [|j] s' idx' d Hj Hd.
      * simpl in Hj. injection Hj as <- <-.
        rewrite Nat.add_0_r in Hd. rewrite Hs in Hd. injection Hd as <-. left.
      * simpl in Hj. right. apply (Hin j s' idx' d Hj).
        replace (S i + j)%nat with (i + S j)%nat by lia. exact Hd.
Qed.

End SearchResults.

(** ** The claims about [search] *)

Section SearchClaims.

Context {U : Unicode} {R : Retrieval}.

(** The order of the results of [search]: sorted on descending final score,
    and results of equal final score in the order in which the loop built
    them, which is the order of the hits of the index. *)
Lemma search_sorted_stable st query top_k out :
  search st query top_k = Ok out ->
  exists built,
    (strip query <> [] ->
     exists ix, index st = Some ix /\
       search_loop st 0 (nearest ix (preprocess_query query) top_k) [] = Ok built) /\
    Permutation out built /\
    (forall i j a b, (i < j)%nat -> out !! i = Some a -> out !! j = Some b ->
       (final_score_of b <= final_score_of a)%Q) /\
    (forall q, List.filter (fun d => Qeq_bool (final_score_of d) q) out
               = List.filter (fun d => Qeq_bool (final_score_of d) q) built).
Proof.
  destruct (decide (strip query = [])) as [Hq|Hq].
  - rewrite search_blank by assumption. intros [= <-]. exists [].
    repeat split; try reflexivity; try congruence.
    intros i j a b _ Hi. discriminate.
  - intros H. apply search_ok_inv in H as (ix & built & Hix & Hl & Hb & ->); [|assumption].
    exists built. split; [|split; [|split]].
    + intros _. exists ix. split; assumption.
    + rewrite sort_desc_perm. rewrite map_map. simpl. rewrite map_id. reflexivity.
    + intros i j a b Hij Ha Hb'.
      apply sorted_results_lookup in Ha, Hb'.
      apply (sorted_lookup_ge _ i j _ _ (sort_desc_sorted _) Hij Ha Hb').
    + intros q.
      set (keyed := map (fun d => (final_score_of d, d)) built).
      assert (Hk : forall l : list (Q * dict),
                 (forall z, z ∈ l -> fst z = final_score_of (snd z)) ->
                 List.filter (fun d => Qeq_bool (final_score_of d) q) (map snd l)
                 = map snd (List.filter (fun z => Qeq_bool (fst z) q) l)).
      { induction l as [|z l IH]; intros Hz; [reflexivity|].
        cbn [map List.filter]. rewrite <- (Hz z) by left.
        rewrite IH by (intros z' Hz'; apply Hz; by right).
        destruct (Qeq_bool (fst z) q); reflexivity. }
      assert (Hkeyed : forall z, z ∈ keyed -> fst z = final_score_of (snd z)).
      { intros z Hz. apply list_elem_of_fmap in Hz as (d & -> & _). reflexivity. }
      rewrite Hk.
      * rewrite sort_desc_stable. rewrite <- Hk by assumption.
        unfold keyed. rewrite map_map. simpl. rewrite map_id. reflexivity.
      * intros z Hz. apply Hkeyed.
        apply list_elem_of_In. apply (Permutation_in _ (sort_desc_perm keyed)).
        apply list_elem_of_In. exact Hz.
Qed.

(** C3 (as amended): a query that is empty or consists of whitespace only
    has no results, and [search] raises nothing on it. *)
Theorem search_blank_query st query top_k :
  Forall (fun c => is_space c = true) query ->
  search st query top_k = Ok [].
Proof.
  intros H. apply search_blank. unfold strip.
  assert (Hl : lstrip query = []).
  { induction H as [|c s Hc H IH]; [reflexivity|]. simpl. rewrite Hc. exact IH. }
  rewrite Hl. reflexivity.
Qed.

(** C5 (as amended): the final score of a result of [search] is its
    relevance score plus the bonus; for a popularity string the bonus is 0
    when the parse fails or the quotient by 10000 overflows a float, and
    [min(parsed / 10000, 0.1)] otherwise, which is exactly 0.1 for the
    popularity 1,000,000. *)
Theorem search_final_score st query top_k out d :
  search st query top_k = Ok out -> d ∈ out ->
  (exists score popularity,
      d !! "relevance_score" = Some (VFloat score) /\
      d !! "popularity" = Some popularity /\
      d !! "final_score" = Some (VFloat (score + popularity_bonus popularity)) /\
      forall p, popularity = VStr p ->
        (popularity_bonus popularity == capped_popularity_bonus p)%Q /\
        ((forall n, py_int (strip_plus_comma p) = Ok n -> quotient_overflows n = false) ->
         (popularity_bonus popularity == spec_popularity_bonus p)%Q)) /\
  popularity_bonus (VStr (py "1,000,000")) = (1 # 10)%Q /\
  popularity_bonus (VStr (py "1000000")) = (1 # 10)%Q.
Proof.
  intros H Hd. split; [|split; vm_compute; reflexivity].
  apply search_results_built in H. rewrite Forall_forall in H.
  destruct (built_fields st d (H d Hd)) as (score & popularity & H1 & H2 & H3).
  exists score, popularity. repeat split; try assumption.
  - subst popularity. apply popularity_bonus_str.
  - intros Hn. subst popularity. rewrite popularity_bonus_str.
    apply capped_bonus_spec. exact Hn.
Qed.

(** C10: a negative index [-m] of the index answer, [1 <= m <= len], is
    not discarded: the result built from the record [m] places from the end
    of the corpus is among the results.  The bound check discards the
    indices that are at least the corpus length, and only those. *)
Theorem search_negative_index st query top_k ix j score m :
  strip query <> [] ->
  index st = Some ix ->
  Forall (fun l => is_Some (deref (heap st) l !! "popularity")) (tools_data st) ->
  Forall (fun hit => - corpus_size st <= snd hit)
    (nearest ix (preprocess_query query) top_k) ->
  nearest ix (preprocess_query query) top_k !! j = Some (score, - m) ->
  1 <= m <= corpus_size st ->
  (exists out l popularity,
      search st query top_k = Ok out /\
      tools_data st !! Z.to_nat (corpus_size st - m) = Some l /\
      deref (heap st) l !! "popularity" = Some popularity /\
      scored (deref (heap st) l) j score popularity ∈ out) /\
  (forall i s idx, corpus_size st <= idx -> score_hit st i (s, idx) = Ok None).
Proof.
  intros Hq Hix Hwf Hhits Hj Hm.
  split; [|intros i s idx Hge; unfold score_hit;
           replace (corpus_size st <=? idx) with true by lia; reflexivity].
  destruct (search_loop_total st 0 _ Hwf Hhits) as (built & Hb & Hin).
  pose proof (score_hit_ok st j score (- m) Hwf) as Hs.
  replace (corpus_size st <=? - m) with false in Hs by lia.
  replace (- m <? 0) with true in Hs by lia.
  destruct Hs as (l & p & Hl & Hp & Hs); [lia|].
  replace (- m + corpus_size st) with (corpus_size st - m) in Hl by lia.
  specialize (Hin j score (- m) _ Hj Hs).
  eexists _, l, p. split; [|split; [exact Hl|split; [exact Hp|]]].
  - unfold search. rewrite bool_decide_eq_false_2 by assumption.
    rewrite Hix, Hb. cbn [mbind res_bind]. unfold sort_reverse.
    rewrite (with_keys_built st built (search_loop_built _ _ _ _ Hb)).
    reflexivity.
  - apply list_elem_of_fmap. eexists (_, _). split; [reflexivity|].
    apply list_elem_of_In. apply (Permutation_in _ (Permutation_sym (sort_desc_perm _))).
    apply list_elem_of_In, list_elem_of_fmap. eexists. split; [reflexivity|exact Hin].
Qed.

End SearchClaims.

(** ** The rank of a result of [search] *)

Section RankFacts.

Context {U : Unicode} {R : Retrieval}.

Lemma search_loop_ranks st i0 hits built :
  search_loop st i0 hits [] = Ok built ->
  Forall (fun d => exists j score idx l popularity,
            hits !! j = Some (score, idx) /\
            list_getitem (tools_data st) idx = Ok l /\
            deref (heap st) l !! "popularity" = Some popularity /\
            d = scored (deref (heap st) l) (i0 + j) score popularity) built.
Proof.
  revert i0 built. induction hits as [|[score idx] hits IH]; intros i0 built.
  - intros [= <-]. constructor.
  - rewrite search_loop_cons.
    destruct (score_hit st i0 (score, idx)) as [r|e] eqn:E; [|discriminate].
    cbn [mbind res_bind].
    destruct (search_loop st (S i0) hits []) as [b|e] eqn:Eb; [|discriminate].
    cbn [mbind res_bind mret res_ret]. intros [= <-].
    specialize (IH _ _ Eb).
    assert (Hb : Forall (fun d => exists j score' idx' l popularity,
                   ((score, idx) :: hits) !! j = Some (score', idx') /\
                   list_getitem (tools_data st) idx' = Ok l /\
                   deref (heap st) l !! "popularity" = Some popularity /\
                   d = scored (deref (heap st) l) (i0 + j) score' popularity) b).
    { eapply Forall_impl; [exact IH|].
      intros d (j & s' & idx' & l & p & Hj & Hl & Hp & ->).
      exists (S j), s', idx', l, p. repeat split; try assumption.
      replace (i0 + S j)%nat with (S i0 + j)%nat by lia. reflexivity. }
    destruct r as [d|]; [|exact Hb].
    constructor; [|exact Hb].
    apply score_hit_some in E as (l & p & Hl & Hp & ->).
    exists 0%nat, score, idx, l, p. rewrite Nat.add_0_r. repeat split; assumption.
Qed.

(** The rank that [search] gives a result is the place of its hit in the
    answer of the index, counted from 1, whatever place the sort gives the
    result. *)
Lemma search_rank_hit_position st query top_k out d :
  strip query <> [] ->
  search st query top_k = Ok out -> d ∈ out ->
  exists ix j score idx,
    index st = Some ix /\
    nearest ix (preprocess_query query) top_k !! j = Some (score, idx) /\
    d !! "rank" = Some (VInt (Z.of_nat j + 1)) /\
    d !! "relevance_score" = Some (VFloat score).
Proof.
  intros Hq H Hd.
  apply search_ok_inv in H as (ix & built & Hix & Hl & _ & ->); [|assumption].
  apply list_elem_of_fmap in Hd as ([q d'] & -> & Hd).
  apply list_elem_of_In in Hd.
  apply (Permutation_in _ (sort_desc_perm _)) in Hd.
  apply list_elem_of_In, list_elem_of_fmap in Hd as (d0 & [= -> ->] & Hd).
  apply search_loop_ranks in Hl. rewrite Forall_forall in Hl.
  destruct (Hl _ Hd) as (j & score & idx & l & p & Hj & _ & Hp & ->).
  destruct (scored_fields _ (0 + j) score p Hp) as (H1 & H2 & _).
  exists ix, j, score, idx. repeat split; assumption.
Qed.

End RankFacts.

(** ** The claims on sample data *)

Lemma items_inj d1 d2 : items d1 = items d2 -> d1 = d2.
Proof.
  unfold items. intros H.
  rewrite <- (list_to_map_to_list d1), <- (list_to_map_to_list d2), H. reflexivity.
Qed.

Lemma res_items_inj r out : res_items r = Ok (map items out) -> r = Ok out.
Proof.
  destruct r as [l|e]; [|discriminate]. simpl. intros [= H]. f_equal.
  revert out H. induction l as [|d l IH]; intros [|d' out] H; try discriminate.
  - reflexivity.
  - simpl in H. injection H as H1 H2. f_equal; [apply items_inj; assumption|auto].
Qed.

Ltac by_computation := vm_compute; reflexivity.
Ltac by_items := apply res_items_inj; vm_compute; reflexivity.

Lemma search_two_tools :
  search (U := ascii_only) (R := two_hits) two_tools (py "chat bot") 2
  = Ok two_tools_results.
Proof. by_items. Qed.

Lemma two_tools_first_rank :
  (two_tools_results !! 0%nat) ≫= (fun d => d !! "rank") = Some (VInt 2).
Proof. by_computation. Qed.

(** C1: the results are sorted on the final score, but the rank of a result
    is the place of its hit in the answer of the index, not its place in the
    sorted list: with two hits of which the second has the larger final
    score, the first result is the second hit and carries rank 2. *)
Theorem search_rank_before_sort :
  search (U := ascii_only) (R := two_hits) two_tools (py "chat bot") 2
  = Ok two_tools_results /\
  (two_tools_results !! 0%nat) ≫= (fun d => d !! "name") = Some (VStr (py "Beta")) /\
  (two_tools_results !! 0%nat) ≫= (fun d => d !! "rank") = Some (VInt 2) /\
  (two_tools_results !! 1%nat) ≫= (fun d => d !! "name") = Some (VStr (py "Alpha")) /\
  (two_tools_results !! 1%nat) ≫= (fun d => d !! "rank") = Some (VInt 1) /\
  ~ rank_claim (U := ascii_only) (R := two_hits) two_tools (py "chat bot") 2.
Proof.
  split; [exact search_two_tools|].
  repeat (split; [by_computation|]).
  intros H.
  pose proof (H two_tools_results 0%nat _ search_two_tools
                ltac:(unfold two_tools_results; reflexivity)) as H0.
  pose proof two_tools_first_rank as H1.
  unfold two_tools_results in H1. cbn [lookup list_lookup mbind option_bind] in H1.
  rewrite H0 in H1. discriminate.
Qed.

Lemma bangs_normalise_to_empty :
  preprocess_query (U := ascii_only) (py "!!!") = [].
Proof. by_computation. Qed.

Lemma search_bangs :
  search (U := ascii_only) (R := two_hits) two_tools (py "!!!") 2
  = Ok two_tools_results.
Proof. by_items. Qed.

(** C3, the claim as stated fails: the query "!!!" normalises to the empty
    string and [search] returns the hits of the index for it. *)
Lemma empty_normal_form_counterexample :
  ~ empty_normal_form_claim (U := ascii_only) (R := two_hits) two_tools.
Proof.
  intros H. specialize (H (py "!!!") 2 bangs_normalise_to_empty).
  rewrite search_bangs in H. discriminate.
Qed.

Lemma search_blank_query_witness :
  Forall (fun c => is_space c = true) [32; 32; 32] /\
  search (U := ascii_only) (R := two_hits) two_tools [32; 32; 32] 10 = Ok [].
Proof.
  split.
  - repeat constructor.
  - apply (search_blank_query (U := ascii_only) (R := two_hits) two_tools [32; 32; 32] 10).
    repeat constructor.
Defined.

Lemma search_huge_tool :
  search (U := ascii_only) (R := one_hit) huge_tool (py "chat") 1 = Ok [huge_result].
Proof. by_items. Qed.

Lemma huge_result_fields :
  huge_result !! "relevance_score" = Some (VFloat (1 # 2)) /\
  huge_result !! "popularity" = Some (VStr huge_popularity) /\
  Qeq_bool (final_score_of huge_result)
    ((1 # 2) + spec_popularity_bonus (U := ascii_only) huge_popularity) = false /\
  (final_score_of huge_result == 1 # 2)%Q /\
  (spec_popularity_bonus (U := ascii_only) huge_popularity == 1 # 10)%Q.
Proof. repeat split; by_computation. Qed.

(** C5, the claim as stated fails: a popularity of 401 digits parses, the
    division overflows, the bare [except] leaves the bonus at 0; the
    specification asks for 0.1. *)
Lemma bonus_counterexample :
  ~ bonus_claim (U := ascii_only) (R := one_hit) huge_tool (py "chat") 1.
Proof.
  intros H.
  destruct (H [huge_result] huge_result search_huge_tool ltac:(left))
    as (score & p & H1 & H2 & H3).
  destruct huge_result_fields as (F1 & F2 & F3 & _).
  rewrite F1 in H1. injection H1 as <-.
  rewrite F2 in H2. injection H2 as <-.
  apply Qeq_bool_iff in H3. congruence.
Qed.

Lemma search_final_score_witness :
  let d := scored (U := ascii_only) beta 1 (9 # 20) (VStr (py "1,000+")) in
  (exists score popularity,
      d !! "relevance_score" = Some (VFloat score) /\
      d !! "popularity" = Some popularity /\
      d !! "final_score"
        = Some (VFloat (score + popularity_bonus (U := ascii_only) popularity)) /\
      forall p, popularity = VStr p ->
        (popularity_bonus (U := ascii_only) popularity
           == capped_popularity_bonus (U := ascii_only) p)%Q /\
        ((forall n, py_int (U := ascii_only) (strip_plus_comma p) = Ok n ->
            quotient_overflows n = false) ->
         (popularity_bonus (U := ascii_only) popularity
           == spec_popularity_bonus (U := ascii_only) p)%Q)) /\
  popularity_bonus (U := ascii_only) (VStr (py "1,000,000")) = (1 # 10)%Q /\
  popularity_bonus (U := ascii_only) (VStr (py "1000000")) = (1 # 10)%Q.
Proof.
  intros d.
  apply (search_final_score (U := ascii_only) (R := two_hits) two_tools
           (py "chat bot") 2 two_tools_results d).
  - exact search_two_tools.
  - left.
Defined.

Lemma search_popular_pair :
  search (U := ascii_only) (R := tied_hits) popular_pair (py "chat") 2
  = Ok [popular_pair_first; popular_pair_second].
Proof. by_items. Qed.

Lemma popular_pair_fields :
  float_field "relevance_score" popular_pair_first = Some (1 # 2)%Q /\
  float_field "relevance_score" popular_pair_second = Some (1 # 2)%Q /\
  popular_pair_first !! "popularity" = Some (VStr (py "1000")) /\
  popular_pair_second !! "popularity" = Some (VStr (py "2000")) /\
  py_int (U := ascii_only) (strip_plus_comma (py "1000")) = Ok 1000 /\
  py_int (U := ascii_only) (strip_plus_comma (py "2000")) = Ok 2000.
Proof. repeat split; by_computation. Qed.

(** C6, the claim as stated fails: two equally relevant tools with the
    popularities 1000 and 2000 both get the full bonus, their final scores
    tie, and the stable sort keeps the order of the index, in which the tool
    with the smaller popularity came first. *)
Lemma popularity_order_counterexample :
  ~ popularity_order_claim (U := ascii_only) (R := tied_hits) popular_pair (py "chat") 2.
Proof.
  intros H.
  destruct popular_pair_fields as (F1 & F2 & F3 & F4 & F5 & F6).
  pose proof (H [popular_pair_first; popular_pair_second] 1%nat 0%nat
                popular_pair_second popular_pair_first
                (1 # 2)%Q (1 # 2)%Q (py "2000") (py "1000") 2000 1000
                search_popular_pair eq_refl eq_refl F2 F1 (Qeq_refl _) F4 F3 F6 F5
                ltac:(lia)) as Hle.
  lia.
Qed.

Lemma two_tools_shape :
  strip (py "chat bot") <> [] /\
  Forall (fun l => is_Some (deref (heap two_tools) l !! "popularity"))
    (tools_data two_tools) /\
  Forall (fun hit : Q * Z => - corpus_size two_tools <= snd hit)
    [((1 # 2)%Q, 0); ((9 # 20)%Q, 1); (lowest_score, -1)] /\
  1 <= 1 <= corpus_size two_tools.
Proof.
  split; [vm_compute; discriminate|]. split; [|split].
  - repeat constructor; eexists; by_computation.
  - repeat constructor; vm_compute; discriminate.
  - vm_compute. split; discriminate.
Qed.

Lemma search_negative_index_witness :
  (exists out l popularity,
      search (U := ascii_only) (R := padded_hits) two_tools (py "chat bot") 3 = Ok out /\
      tools_data two_tools !! Z.to_nat (corpus_size two_tools - 1) = Some l /\
      deref (heap two_tools) l !! "popularity" = Some popularity /\
      scored (U := ascii_only) (deref (heap two_tools) l) 2 lowest_score popularity
        ∈ out) /\
  (forall i s idx, corpus_size two_tools <= idx ->
     score_hit (U := ascii_only) two_tools i (s, idx) = Ok None).
Proof.
  destruct two_tools_shape as (S1 & S2 & S3 & S4).
  exact (search_negative_index (U := ascii_only) (R := padded_hits) two_tools
           (py "chat bot") 3 (IndexFlatIP 5) 2 lowest_score 1
           S1 eq_refl S2 S3 eq_refl S4).
Defined.

(** ** The retrieval modes *)

Section ModeFacts.

Context {U : Unicode}.

Lemma ranked_fields tool rank :
  ranked tool rank !! "relevance_score" = Some (VFloat 1) /\
  ranked tool rank !! "final_score" = tool !! "final_score".
Proof.
  unfold ranked. split.
  - apply lookup_insert_eq.
  - rewrite !lookup_insert_ne by discriminate. reflexivity.
Qed.

Lemma category_loop_from_corpus st category top_k tools acc out :
  tools ⊆ tools_data st ->
  Forall (from_corpus st) acc ->
  category_loop (heap st) category top_k tools acc = Ok out ->
  Forall (from_corpus st) out.
Proof.
  revert acc. induction tools as [|l tools IH]; intros acc Hsub Hacc H.
  - injection H as <-. exact Hacc.
  - cbn [category_loop] in H.
    assert (Hl : l ∈ tools_data st) by (apply Hsub; left).
    assert (Hsub' : tools ⊆ tools_data st) by (intros x Hx; apply Hsub; by right).
    destruct (dict_getitem (deref (heap st) l) "category") as [c|]; [|discriminate].
    cbn [mbind res_bind] in H.
    destruct (value_lower c) as [c'|]; [|discriminate].
    cbn [mbind res_bind] in H.
    destruct (contains (str_lower category) c'); [|eauto].
    assert (Hacc' : Forall (from_corpus st)
                      (acc ++ [ranked (deref (heap st) l) (Z.of_nat (length acc) + 1)])).
    { apply Forall_app. split; [exact Hacc|]. constructor; [|constructor].
      destruct (ranked_fields (deref (heap st) l) (Z.of_nat (length acc) + 1)) as [H1 H2].
      split; [exact H1|]. exists l. split; assumption. }
    destruct (_ <=? _) in H.
    + injection H as <-. exact Hacc'.
    + eapply IH; eassumption.
Qed.

Lemma popular_loop_sub st tools acc out :
  tools ⊆ tools_data st ->
  Forall (fun d => exists l, l ∈ tools_data st /\
            d !! "final_score" = deref (heap st) l !! "final_score") acc ->
  popular_loop (heap st) tools acc = Ok out ->
  Forall (fun d => exists l, l ∈ tools_data st /\
            d !! "final_score" = deref (heap st) l !! "final_score") out.
Proof.
  revert acc. induction tools as [|l tools IH]; intros acc Hsub Hacc H.
  - injection H as <-. exact Hacc.
  - cbn [popular_loop] in H.
    assert (Hl : l ∈ tools_data st) by (apply Hsub; left).
    assert (Hsub' : tools ⊆ tools_data st) by (intros x Hx; apply Hsub; by right).
    destruct (dict_getitem (deref (heap st) l) "popularity") as [p|]; [|discriminate].
    cbn [mbind res_bind] in H.
    destruct (truthy p); [|eauto].
    destruct (parse_popularity p) as [n|]; [|eauto].
    eapply IH; [exact Hsub'| |exact H].
    apply Forall_app. split; [exact Hacc|]. constructor; [|constructor].
    exists l. split; [exact Hl|]. rewrite lookup_insert_ne by discriminate. reflexivity.
Qed.

Lemma with_keys_snd {A} (key : A -> res Q) (l : list A) keyed :
  with_keys key l = Ok keyed -> map snd keyed = l.
Proof.
  revert keyed. induction l as [|x l IH]; intros keyed H.
  - injection H as <-. reflexivity.
  - cbn [with_keys] in H. destruct (key x) as [k|]; [|discriminate].
    cbn [mbind res_bind] in H. destruct (with_keys key l) as [r|]; [|discriminate].
    cbn [mbind res_bind mret res_ret] in H. injection H as <-.
    simpl. f_equal. apply IH. reflexivity.
Qed.

Lemma sort_reverse_perm {A} (key : A -> res Q) (l sorted : list A) :
  sort_reverse key l = Ok sorted -> Permutation sorted l.
Proof.
  unfold sort_reverse. destruct (with_keys key l) as [keyed|] eqn:E; [|discriminate].
  cbn [mbind res_bind mret res_ret]. intros [= <-].
  rewrite sort_desc_perm. rewrite (with_keys_snd _ _ _ E). reflexivity.
Qed.

Lemma list_slice_to_sub {A} (l : list A) (k : Z) : list_slice_to l k ⊆ l.
Proof.
  unfold list_slice_to. intros x Hx.
  destruct (k <? 0); apply (subseteq_take _ l) in Hx; exact Hx.
Qed.

Lemma rank_loop_elem i tools d :
  d ∈ rank_loop i tools ->
  exists tool rank, tool ∈ tools /\ d = ranked tool rank.
Proof.
  revert i. induction tools as [|t tools IH]; intros i Hd; [inversion Hd|].
  cbn [rank_loop] in Hd. apply elem_of_cons in Hd as [->|Hd].
  - exists t, (Z.of_nat i + 1). split; [left|reflexivity].
  - destruct (IH _ Hd) as (t' & r & Ht & ->). exists t', r. split; [by right|reflexivity].
Qed.

(** *** Writing through references *)

Lemma setitem_lookup l k v (h : gmap loc dict) l' :
  setitem l k v h !! l'
  = if decide (l = l') then (fun d => <[k := v]> d) <$> h !! l' else h !! l'.
Proof.
  unfold setitem. rewrite lookup_alter. destruct (decide (l = l')) as [->|]; reflexivity.
Qed.

Lemma deref_setitem_other l k v (h : gmap loc dict) l' k' :
  k <> k' -> deref (setitem l k v h) l' !! k' = deref h l' !! k'.
Proof.
  intros Hk. unfold deref. rewrite setitem_lookup.
  destruct (decide (l = l')); [|reflexivity].
  destruct (h !! l'); simpl; [|reflexivity].
  apply lookup_insert_ne. exact Hk.
Qed.

Lemma setitem_is_Some l k v (h : gmap loc dict) l' :
  is_Some (setitem l k v h !! l') <-> is_Some (h !! l').
Proof.
  rewrite setitem_lookup. destruct (decide (l = l')); [|reflexivity].
  rewrite fmap_is_Some. reflexivity.
Qed.

Lemma deref_setitem_same l k v (h : gmap loc dict) :
  is_Some (h !! l) -> deref (setitem l k v h) l !! k = Some v.
Proof.
  intros [d Hd]. unfold deref. rewrite setitem_lookup.
  rewrite decide_True by reflexivity. rewrite Hd. simpl. apply lookup_insert_eq.
Qed.

Lemma mark_loop_is_Some i tools (h : gmap loc dict) l :
  is_Some (mark_loop i tools h !! l) <-> is_Some (h !! l).
Proof.
  revert i h. induction tools as [|l0 tools IH]; intros i h; [reflexivity|].
  cbn [mark_loop]. rewrite IH, !setitem_is_Some. reflexivity.
Qed.

(** The loop of [get_random_tools] writes two keys and no other. *)
Lemma mark_loop_other i tools (h : gmap loc dict) l k :
  k <> "rank" -> k <> "relevance_score" ->
  deref (mark_loop i tools h) l !! k = deref h l !! k.
Proof.
  intros H1 H2. revert i h. induction tools as [|l0 tools IH]; intros i h; [reflexivity|].
  cbn [mark_loop]. rewrite IH, !deref_setitem_other by congruence. reflexivity.
Qed.

Lemma mark_loop_keeps i tools (h : gmap loc dict) l :
  deref h l !! "relevance_score" = Some (VFloat 1) ->
  deref (mark_loop i tools h) l !! "relevance_score" = Some (VFloat 1).
Proof.
  revert i h. induction tools as [|l0 tools IH]; intros i h H; [exact H|].
  cbn [mark_loop]. apply IH.
  unfold deref in *. rewrite !setitem_lookup.
  destruct (decide (l0 = l)) as [->|]; [|exact H].
  destruct (h !! l) as [d|]; [|discriminate]. simpl. apply lookup_insert_eq.
Qed.

Lemma mark_loop_marks i tools (h : gmap loc dict) l :
  l ∈ tools -> is_Some (h !! l) ->
  deref (mark_loop i tools h) l !! "relevance_score" = Some (VFloat 1).
Proof.
  revert i h. induction tools as [|l0 tools IH]; intros i h Hl Hh; [inversion Hl|].
  cbn [mark_loop]. destruct (decide (l = l0)) as [->|Hne].
  - apply mark_loop_keeps. apply deref_setitem_same.
    apply setitem_is_Some. exact Hh.
  - apply elem_of_cons in Hl as [?|Hl]; [congruence|].
    apply IH; [exact Hl|]. rewrite !setitem_is_Some. exact Hh.
Qed.

Lemma sample_sub {A} (population : list A) choice out :
  sample population choice = Ok out -> out ⊆ population.
Proof.
  revert out. induction choice as [|p choice IH]; intros out H.
  - injection H as <-. intros x Hx. inversion Hx.
  - cbn [sample] in H. destruct (population !! p) as [a|] eqn:E; [|discriminate].
    destruct (sample population choice) as [r|]; [|discriminate].
    cbn [mbind res_bind mret res_ret] in H. injection H as <-.
    intros x Hx. apply elem_of_cons in Hx as [->|Hx].
    + eapply list_elem_of_lookup_2. eassumption.
    + eapply IH; [reflexivity|exact Hx].
Qed.

(** [get_random_tools] hands out the objects of the corpus. *)
Lemma get_random_tools_aliases st count choice st' locs :
  get_random_tools st count choice = Ok (st', locs) ->
  locs ⊆ tools_data st /\ tools_data st' = tools_data st.
Proof.
  unfold get_random_tools. destruct (corpus_size st <=? count).
  - intros [= <- <-]. split; [intros x Hx; exact Hx|reflexivity].
  - unfold random_sample. destruct (_ || _); [discriminate|].
    destruct (sample (tools_data st) choice) as [r|] eqn:E; [|discriminate].
    cbn [mbind res_bind mret res_ret]. intros [= <- <-].
    split; [eapply sample_sub; eassumption|reflexivity].
Qed.

Lemma sample_good {A} (population : list A) choice :
  Forall (fun p => (p < length population)%nat) choice ->
  exists out, sample population choice = Ok out /\
    length out = length choice /\
    forall i p, choice !! i = Some p -> out !! i = population !! p.
Proof.
  induction 1 as [|p choice Hp H IH].
  - exists []. repeat split. intros i p Hi. discriminate.
  - destruct IH as (r & Hr & Hlen & Hnth).
    destruct (lookup_lt_is_Some_2 population p Hp) as [a Ha].
    exists (a :: r). cbn [sample]. rewrite Ha, Hr. split; [reflexivity|].
    split; [simpl; congruence|].
    intros [|i] q Hq; simpl in *; [congruence|auto].
Qed.

(** The part of C2 that holds: for [0 <= count < len] the function returns
    [count] objects, taken at [count] different places of the corpus. *)
Lemma get_random_tools_count st count choice :
  0 <= count < corpus_size st ->
  good_choice (length (tools_data st)) count choice ->
  exists st' locs,
    get_random_tools st count choice = Ok (st', locs) /\
    Z.of_nat (length locs) = count /\
    NoDup choice /\
    forall i p, choice !! i = Some p -> locs !! i = tools_data st !! p.
Proof.
  intros Hc (Hlen & Hnd & Hlt). unfold get_random_tools, random_sample.
  replace (corpus_size st <=? count) with false by lia.
  replace ((count <? 0) || (Z.of_nat (length (tools_data st)) <? count)) with false
    by (unfold corpus_size in Hc; lia).
  destruct (sample_good (tools_data st) choice Hlt) as (r & Hr & Hl & Hnth).
  rewrite Hr. cbn [mbind res_bind mret res_ret].
  eexists _, r. split; [reflexivity|]. repeat split; try assumption. lia.
Qed.

(** C4 (as amended): every record returned by [search_by_category] and
    [get_popular_tools], and by [get_random_tools] for a count below the
    corpus size, carries relevance score 1.0; none of them sets a final
    score: the returned record has the final score entry of its corpus
    record, which is none for a corpus loaded from the database. *)
Theorem retrieval_modes_scores st :
  Forall (fun l => is_Some (heap st !! l)) (tools_data st) ->
  (forall category top_k out d,
      search_by_category st category top_k = Ok out -> d ∈ out ->
      d !! "relevance_score" = Some (VFloat 1) /\
      exists l, l ∈ tools_data st /\
        d !! "final_score" = deref (heap st) l !! "final_score") /\
  (forall top_k out d,
      get_popular_tools st top_k = Ok out -> d ∈ out ->
      d !! "relevance_score" = Some (VFloat 1) /\
      exists l, l ∈ tools_data st /\
        d !! "final_score" = deref (heap st) l !! "final_score") /\
  (forall count choice st' locs l,
      count < corpus_size st ->
      get_random_tools st count choice = Ok (st', locs) -> l ∈ locs ->
      l ∈ tools_data st /\
      deref (heap st') l !! "relevance_score" = Some (VFloat 1) /\
      deref (heap st') l !! "final_score" = deref (heap st) l !! "final_score").
Proof.
  intros Hwf. split; [|split].
  - intros category top_k out d H Hd.
    unfold search_by_category in H.
    apply (category_loop_from_corpus st) in H; [|intros x Hx; exact Hx|constructor].
    rewrite Forall_forall in H. apply (H d Hd).
  - intros top_k out d H Hd. unfold get_popular_tools in H.
    destruct (popular_loop (heap st) (tools_data st) []) as [twp|] eqn:E; [|discriminate].
    cbn [mbind res_bind] in H.
    destruct (sort_reverse (number_key "pop_num") twp) as [sorted|] eqn:Es; [|discriminate].
    cbn [mbind res_bind mret res_ret] in H. injection H as <-.
    apply rank_loop_elem in Hd as (tool & r & Ht & ->).
    destruct (ranked_fields tool r) as [H1 H2]. split; [exact H1|]. rewrite H2.
    apply list_slice_to_sub in Ht.
    apply list_elem_of_In, (Permutation_in _ (sort_reverse_perm _ _ _ Es)), list_elem_of_In in Ht.
    apply (popular_loop_sub st) in E; [|intros x Hx; exact Hx|constructor].
    rewrite Forall_forall in E. apply (E tool Ht).
  - intros count choice st' locs l Hc H Hl.
    destruct (get_random_tools_aliases _ _ _ _ _ H) as [Hsub _].
    split; [apply Hsub; exact Hl|].
    unfold get_random_tools in H.
    replace (corpus_size st <=? count) with false in H by lia.
    destruct (random_sample (tools_data st) count choice) as [r|]; [|discriminate].
    cbn [mbind res_bind mret res_ret] in H. injection H as <- <-. simpl.
    split.
    + apply mark_loop_marks; [exact Hl|].
      rewrite Forall_forall in Hwf. apply Hwf. apply Hsub. exact Hl.
    + apply mark_loop_other; discriminate.
Qed.

End ModeFacts.

(** ** The retrieval modes on sample data *)

Lemma search_by_category_two_tools :
  search_by_category (U := ascii_only) two_tools (py "Chat") 20
  = Ok [ranked alpha 1; ranked beta 2].
Proof. by_items. Qed.

Lemma ranked_alpha_final_score : ranked alpha 1 !! "final_score" = None.
Proof. by_computation. Qed.

(** C4, the claim as stated fails: a record returned by
    [search_by_category] has no final score at all. *)
Lemma unit_scores_counterexample :
  ~ unit_scores_claim (U := ascii_only) two_tools.
Proof.
  intros (H & _ & _).
  specialize (H (py "Chat") 20 _ search_by_category_two_tools).
  apply Forall_cons in H as [[_ H] _].
  rewrite ranked_alpha_final_score in H. discriminate.
Qed.

Lemma deref_is_Some (h : gmap loc dict) l k :
  is_Some (deref h l !! k) -> is_Some (h !! l).
Proof.
  unfold deref. destruct (h !! l); [eauto|].
  simpl. rewrite lookup_empty. intros [? ?]. discriminate.
Qed.

Lemma two_tools_allocated :
  Forall (fun l => is_Some (heap two_tools !! l)) (tools_data two_tools).
Proof.
  destruct two_tools_shape as (_ & H & _).
  eapply Forall_impl; [exact H|].
  intros l. apply deref_is_Some.
Qed.

Lemma retrieval_modes_scores_witness :
  (forall category top_k out d,
      search_by_category (U := ascii_only) two_tools category top_k = Ok out ->
      d ∈ out ->
      d !! "relevance_score" = Some (VFloat 1) /\
      exists l, l ∈ tools_data two_tools /\
        d !! "final_score" = deref (heap two_tools) l !! "final_score") /\
  (forall top_k out d,
      get_popular_tools (U := ascii_only) two_tools top_k = Ok out -> d ∈ out ->
      d !! "relevance_score" = Some (VFloat 1) /\
      exists l, l ∈ tools_data two_tools /\
        d !! "final_score" = deref (heap two_tools) l !! "final_score") /\
  (forall count choice st' locs l,
      count < corpus_size two_tools ->
      get_random_tools two_tools count choice = Ok (st', locs) -> l ∈ locs ->
      l ∈ tools_data two_tools /\
      deref (heap st') l !! "relevance_score" = Some (VFloat 1) /\
      deref (heap st') l !! "final_score"
      = deref (heap two_tools) l !! "final_score").
Proof.
  exact (retrieval_modes_scores (U := ascii_only) two_tools two_tools_allocated).
Defined.

(** C2: [get_random_tools] returns references to the records of the corpus,
    not copies.  On the engine of [test_get_random_tools_returns_copies]
    the call with [count = 2] returns the list of the corpus itself, a write
    through the first result changes the name of the first record of the
    corpus to Changed, and the call with [count = 1] writes a rank into the
    corpus record it draws. *)
Theorem get_random_tools_shares_records :
  (forall choice,
      get_random_tools test_engine 2 choice
      = Ok (test_engine, tools_data test_engine)) /\
  (forall choice, test_run choice = Ok (Some (VStr (py "Changed")))) /\
  deref (heap test_engine) 0%nat !! "name" = Some (VStr (py "Tool1")) /\
  (exists st',
      get_random_tools test_engine 1 [1%nat] = Ok (st', [1%nat]) /\
      deref (heap test_engine) 1%nat !! "rank" = None /\
      deref (heap st') 1%nat !! "rank" = Some (VInt 1)).
Proof.
  split; [intros choice; reflexivity|].
  split; [intros choice; by_computation|].
  split; [by_computation|].
  eexists. split; [reflexivity|].
  split; by_computation.
Qed.

(** ** The snapshot store *)

Section SnapshotFacts.

Context {P : Pickle}.

(** Allocation keeps what is in the heap and stores the new records. *)
Lemma alloc_all_spec (h : gmap loc dict) ds h' ls :
  alloc_all h ds = (h', ls) ->
  map (deref h') ls = ds /\
  forall l d, h !! l = Some d -> h' !! l = Some d.
Proof.
  revert h h' ls. induction ds as [|d ds IH]; intros h h' ls H.
  - injection H as <- <-. split; [reflexivity|auto].
  - cbn [alloc_all alloc] in H.
    destruct (alloc_all (<[fresh (dom h) := d]> h) ds) as [h2 ls2] eqn:E.
    injection H as <- <-.
    destruct (IH _ _ _ E) as [Hmap Hkeep].
    assert (Hfresh : h !! fresh (dom h) = None).
    { apply not_elem_of_dom. apply is_fresh. }
    split.
    + simpl. f_equal; [|exact Hmap].
      unfold deref. rewrite (Hkeep (fresh (dom h)) d); [reflexivity|].
      apply lookup_insert_eq.
    + intros l d' Hl. apply Hkeep.
      rewrite lookup_insert_ne; [exact Hl|]. congruence.
Qed.

(** C9: loading the file that [save_index] wrote restores a corpus of the
    same length and content and the embedding matrix, hence its shape,
    provided [pickle.load] reads back what [pickle.dump] wrote and the
    embeddings are a matrix (a two-dimensional array). *)
Theorem load_index_save_index (st st0 : engine) (path : pystr) (fs : gmap pystr blob)
    (x : ndarray) (n d : nat) :
  (forall data, pickle_loads (pickle_dumps data) = Ok data) ->
  embeddings st = Some x ->
  shape x = [n; d] ->
  exists st',
    load_index st0 path (save_index st path fs) = (st', true) /\
    length (tools_data st') = length (tools_data st) /\
    corpus st' = corpus st /\
    embeddings st' = Some x /\
    (exists x', embeddings st' = Some x' /\ shape x' = shape x).
Proof.
  intros Hpickle Hx Hshape.
  unfold load_index, save_index. rewrite lookup_insert_eq, Hpickle.
  cbn [snap_tools_data snap_embeddings].
  destruct (alloc_all (heap st0) (corpus st)) as [h locs] eqn:E.
  destruct (alloc_all_spec _ _ _ _ E) as [Hmap _].
  cbn [embeddings]. rewrite Hx. cbn [shape_1].
  assert (Hd : list_getitem (shape x) 1 = Ok d) by (rewrite Hshape; reflexivity).
  rewrite Hd. unfold index_add. rewrite Hshape.
  cbn [IndexFlatIP dimension added]. rewrite bool_decide_eq_true_2 by reflexivity.
  eexists. split; [reflexivity|]. cbn [tools_data embeddings].
  split; [|split; [|split]].
  - rewrite <- (length_map (deref h) locs), Hmap. unfold corpus. apply length_map.
  - unfold corpus at 1. cbn [heap tools_data]. exact Hmap.
  - reflexivity.
  - exists x. split; [reflexivity|exact Hshape].
Qed.

End SnapshotFacts.

Lemma load_index_save_index_witness :
  exists st',
    load_index (P := transparent_pickle) fresh_engine (py "search_index.pkl")
      (save_index (P := transparent_pickle) built_engine (py "search_index.pkl") ∅)
    = (st', true) /\
    length (tools_data st') = length (tools_data built_engine) /\
    corpus st' = corpus built_engine /\
    embeddings st' = Some two_rows /\
    (exists x', embeddings st' = Some x' /\ shape x' = shape two_rows).
Proof.
  apply (load_index_save_index (P := transparent_pickle) built_engine fresh_engine
           (py "search_index.pkl") ∅ two_rows 2 3).
  - intros data. reflexivity.
  - reflexivity.
  - reflexivity.
Defined.

(** * Further properties *)

(** ** The normaliser on both sides *)

Section NormalTexts.

Context {U : Unicode}.

Lemma tidy_spaces b s :
  tidy b s = true -> Forall (fun c => is_space c = true -> c = SPACE) s.
Proof.
  revert b. induction s as [|c s IH]; intros b H; [constructor|].
  simpl in H. destruct (is_space c) eqn:E.
  - apply andb_prop in H as [H H3]. apply andb_prop in H as [_ H2].
    constructor; [intros _; apply Z.eqb_eq; exact H2|eauto].
  - constructor; [congruence|eauto].
Qed.

Lemma tidy_no_double b s i :
  tidy b s = true -> s !! i = Some SPACE -> s !! S i <> Some SPACE.
Proof.
  revert b i. induction s as [|c s IH]; intros b i H Hi; [discriminate|].
  simpl in H. destruct i as [|i].
  - simpl in Hi. injection Hi as ->. change (is_space SPACE) with true in H.
    apply andb_prop in H as [_ H]. destruct s as [|d s]; [discriminate|].
    simpl. intros [= ->]. simpl in H. change (is_space SPACE) with true in H.
    discriminate.
  - simpl in Hi. change ((c :: s) !! S (S i)) with (s !! S i).
    destruct (is_space c).
    + apply andb_prop in H as [_ H]. eauto.
    + eauto.
Qed.

Lemma clean_normal s : normal_text (clean s).
Proof.
  assert (Ht : tidy false (clean s) = true).
  { unfold clean, strip. apply tidy_rstrip with (b := false).
    apply tidy_lstrip with (b := false). apply tidy_collapse. }
  unfold normal_text. split; [|split; [|split]].
  - pose proof (kept_clean s) as Hk. pose proof (tidy_spaces _ _ Ht) as Hs.
    rewrite Forall_forall in Hk, Hs. apply Forall_forall. intros c Hc.
    specialize (Hk c Hc). specialize (Hs c Hc). unfold kept in Hk.
    destruct (is_space c); [left; auto|right].
    rewrite orb_false_r in Hk. split; [exact Hk|reflexivity].
  - unfold clean, strip. apply lstrip_rstrip_lstrip.
  - unfold clean, strip. apply rstrip_rstrip.
  - intros i. apply tidy_no_double with (b := false). exact Ht.
Qed.

(** X1: a normalised query is made of word characters and single spaces,
    with no space at either end. *)
Theorem preprocess_query_normal (x : pystr) : normal_text (preprocess_query x).
Proof. unfold preprocess_query. apply clean_normal. Qed.

(** X2: none of the Hebrew keys of the substitution table is left in a
    normalised query. *)
Theorem preprocess_query_no_key (x : pystr) :
  Forall (fun he => contains (fst he) (preprocess_query x) = false) hebrew_to_english.
Proof.
  apply Forall_forall. intros he Hin. apply preprocess_query_clears. exact Hin.
Qed.

(** No entry of the table is shadowed by an earlier one: each Hebrew
    key, taken alone as a query, normalises to its own replacement. *)
Lemma table_entries_normalise :
  Forall (fun he => preprocess_query (fst he) = snd he) hebrew_to_english.
Proof.
  assert (H : forallb (fun he => bool_decide (preprocess_query (fst he) = snd he))
                hebrew_to_english = true) by (vm_compute; reflexivity).
  rewrite forallb_forall in H. apply Forall_forall. intros he Hin.
  apply list_elem_of_In in Hin. specialize (H he Hin).
  apply bool_decide_eq_true_1 in H. exact H.
Qed.

(** X3: on a text in which no key of the table occurs the query normaliser
    does what the corpus normaliser does: only the cleaning steps. *)
Theorem preprocess_query_without_keys (s : pystr) :
  Forall (fun he => contains (fst he) s = false) hebrew_to_english ->
  preprocess_query s = clean s.
Proof.
  intros H. unfold preprocess_query. rewrite substitute_absent; [reflexivity|].
  rewrite Forall_forall in H. exact H.
Qed.

Lemma create_search_text_inv tool t :
  create_search_text tool = Ok t ->
  exists name description category tags parts,
    tool !! "name" = Some name /\ tool !! "description" = Some description /\
    tool !! "category" = Some category /\ tool !! "tags" = Some tags /\
    stripped_parts [name; description; category; tags] = Ok parts /\
    t = clean (join [SPACE] parts).
Proof.
  unfold create_search_text, dict_getitem.
  destruct (tool !! "name") as [name|]; [|discriminate].
  destruct (tool !! "description") as [description|]; [|discriminate].
  destruct (tool !! "category") as [category|]; [|discriminate].
  destruct (tool !! "tags") as [tags|]; [|discriminate].
  cbn [mbind res_bind].
  destruct (stripped_parts _) as [parts|] eqn:Ep; [|discriminate].
  cbn [mbind res_bind mret res_ret]. intros [= <-].
  exists name, description, category, tags, parts. repeat split; assumption || reflexivity.
Qed.

(** X4: the search text of a record is a normal text, and cleaning it once
    more changes nothing. *)
Theorem create_search_text_normal tool t :
  create_search_text tool = Ok t -> normal_text t /\ clean t = t.
Proof.
  intros H. apply create_search_text_inv in H as (? & ? & ? & ? & parts & _ & _ & _ & _ & _ & ->).
  split; [apply clean_normal|apply clean_clean].
Qed.

Lemma create_search_text_lacks tool k :
  k ∈ searchable_keys -> tool !! k = None ->
  create_search_text tool = Raise KeyError.
Proof.
  intros Hk Hnone. unfold create_search_text, dict_getitem.
  unfold searchable_keys in Hk.
  repeat (apply elem_of_cons in Hk as [->|Hk]); [| | | |inversion Hk].
  - rewrite Hnone. reflexivity.
  - rewrite Hnone. destruct (tool !! "name"); reflexivity.
  - rewrite Hnone. destruct (tool !! "name"); [|reflexivity].
    destruct (tool !! "description"); reflexivity.
  - rewrite Hnone. destruct (tool !! "name"); [|reflexivity].
    destruct (tool !! "description"); [|reflexivity].
    destruct (tool !! "category"); reflexivity.
Qed.

(** The search text depends on the four searchable fields only: writing
    any other key of the record (the popularity, a rank, a score) leaves it
    as it is. *)
Lemma create_search_text_other_key tool k v :
  k ∉ searchable_keys ->
  create_search_text (<[k := v]> tool) = create_search_text tool.
Proof.
  intros Hk. unfold create_search_text, dict_getitem.
  assert (Hne : forall k', k' ∈ searchable_keys -> (<[k := v]> tool) !! k' = tool !! k').
  { intros k' Hk'. apply lookup_insert_ne. intros ->. exact (Hk Hk'). }
  rewrite !Hne by (unfold searchable_keys; set_solver). reflexivity.
Qed.

End NormalTexts.


(** *** The normaliser on sample data *)

Lemma chat_bot_has_no_key :
  Forall (fun he => contains (fst he) (py "chat bot!") = false) hebrew_to_english.
Proof.
  assert (H : forallb (fun he => negb (contains (fst he) (py "chat bot!")))
                hebrew_to_english = true) by (vm_compute; reflexivity).
  rewrite forallb_forall in H. apply Forall_forall. intros he Hin.
  apply list_elem_of_In in Hin. apply negb_true_iff. apply H. exact Hin.
Qed.

Lemma preprocess_query_without_keys_witness :
  preprocess_query (U := ascii_only) (py "chat bot!")
  = clean (U := ascii_only) (py "chat bot!").
Proof.
  exact (preprocess_query_without_keys (U := ascii_only) (py "chat bot!")
           chat_bot_has_no_key).
Defined.

Lemma create_search_text_beta :
  create_search_text (U := ascii_only) beta = Ok beta_text.
Proof. vm_compute. reflexivity. Qed.

Lemma create_search_text_normal_witness :
  normal_text (U := ascii_only) beta_text /\ clean (U := ascii_only) beta_text = beta_text.
Proof.
  exact (create_search_text_normal (U := ascii_only) beta beta_text
           create_search_text_beta).
Defined.


(** ** More about [search] *)

Section SearchBounds.

Context {U : Unicode} {R : Retrieval}.

Lemma score_hit_in_range st i score idx r :
  score_hit st i (score, idx) = Ok r ->
  r = None <-> corpus_size st <= idx.
Proof.
  unfold score_hit. destruct (Z.leb_spec (corpus_size st) idx) as [Hge|Hlt].
  - intros [= <-]. tauto.
  - destruct (list_getitem _ _); [|discriminate]. cbn [mbind res_bind].
    destruct (dict_getitem _ _); [|discriminate]. cbn [mbind res_bind mret res_ret].
    intros [= <-]. split; [discriminate|lia].
Qed.

Lemma search_loop_length st i hits built :
  search_loop st i hits [] = Ok built ->
  length built
  = length (List.filter (fun hit : Q * Z => snd hit <? corpus_size st) hits).
Proof.
  revert i built. induction hits as [|[score idx] hits IH]; intros i built.
  - intros [= <-]. reflexivity.
  - rewrite search_loop_cons.
    destruct (score_hit st i (score, idx)) as [r|] eqn:E; [|discriminate].
    cbn [mbind res_bind].
    destruct (search_loop st (S i) hits []) as [b|] eqn:Eb; [|discriminate].
    cbn [mbind res_bind mret res_ret]. intros [= <-].
    specialize (IH _ _ Eb). apply score_hit_in_range in E.
    cbn [List.filter snd].
    destruct (Z.ltb_spec idx (corpus_size st)) as [Hlt|Hge].
    + destruct r as [d|]; [simpl; congruence|]. exfalso.
      assert (corpus_size st <= idx) by (apply E; reflexivity). lia.
    + destruct r as [d|]; [|exact IH]. exfalso.
      assert (Some d = None) by (apply E; lia). discriminate.
Qed.

(** X5: [search] returns one result for each hit of the index whose index
    is below the corpus length, and none for the others. *)
Theorem search_result_count st query top_k ix out :
  strip query <> [] -> index st = Some ix ->
  search st query top_k = Ok out ->
  length out
  = length (List.filter (fun hit : Q * Z => snd hit <? corpus_size st)
              (nearest ix (preprocess_query query) top_k)).
Proof.
  intros Hq Hix H.
  apply search_ok_inv in H as (ix' & built & Hix' & Hl & _ & ->); [|assumption].
  rewrite Hix in Hix'. injection Hix' as <-.
  rewrite length_map. rewrite (Permutation_length (sort_desc_perm _)).
  rewrite length_map. apply (search_loop_length _ _ _ _ Hl).
Qed.

Lemma search_loop_raises st e i hits :
  (forall j hit, hit ∈ hits ->
     (exists r, score_hit st j hit = Ok r) \/ score_hit st j hit = Raise e) ->
  (exists hit, hit ∈ hits /\ forall j, score_hit st j hit = Raise e) ->
  search_loop st i hits [] = Raise e.
Proof.
  revert i. induction hits as [|hit hits IH]; intros i Hall (bad & Hbad & Hraise).
  - inversion Hbad.
  - rewrite search_loop_cons.
    destruct (Hall i hit ltac:(left)) as [[r Hr]|Hr]; rewrite Hr; [|reflexivity].
    cbn [mbind res_bind].
    apply elem_of_cons in Hbad as [->|Hbad]; [rewrite Hraise in Hr; discriminate|].
    rewrite IH; [reflexivity| |].
    + intros j h Hh. apply Hall. by right.
    + exists bad. split; assumption.
Qed.

Lemma score_hit_popular st i hit :
  Forall (fun l => is_Some (deref (heap st) l !! "popularity")) (tools_data st) ->
  (exists r, score_hit st i hit = Ok r) \/ score_hit st i hit = Raise IndexError.
Proof.
  intros Hwf. destruct hit as [score idx].
  destruct (Z.le_gt_cases (- corpus_size st) idx) as [Hle|Hgt].
  - left. pose proof (score_hit_ok st i score idx Hwf Hle) as H.
    destruct (corpus_size st <=? idx); [eauto|].
    destruct H as (l & p & _ & _ & ->). eauto.
  - right. unfold score_hit.
    replace (corpus_size st <=? idx) with false by (unfold corpus_size in *; lia).
    unfold list_getitem, corpus_size in *.
    replace (idx <? 0) with true by lia.
    replace ((idx + Z.of_nat (length (tools_data st)) <? 0)
             || (Z.of_nat (length (tools_data st))
                 <=? idx + Z.of_nat (length (tools_data st)))) with true by lia.
    reflexivity.
Qed.

(** X6: an index below minus the corpus length is not caught by the bound
    check: on a corpus whose records all have a popularity field [search]
    raises [IndexError] as soon as the answer of the index holds one. *)
Theorem search_index_error st query top_k ix score idx :
  strip query <> [] -> index st = Some ix ->
  Forall (fun l => is_Some (deref (heap st) l !! "popularity")) (tools_data st) ->
  (score, idx) ∈ nearest ix (preprocess_query query) top_k ->
  idx < - corpus_size st ->
  search st query top_k = Raise IndexError.
Proof.
  intros Hq Hix Hwf Hin Hlt. unfold search.
  rewrite bool_decide_eq_false_2 by assumption. rewrite Hix.
  rewrite (search_loop_raises st IndexError); [reflexivity| |].
  - intros j hit _. apply score_hit_popular. exact Hwf.
  - exists (score, idx). split; [exact Hin|]. intros j.
    destruct (score_hit_popular st j (score, idx) Hwf) as [[r Hr]|Hr]; [|exact Hr].
    exfalso. unfold score_hit in Hr.
    replace (corpus_size st <=? idx) with false in Hr by (unfold corpus_size in *; lia).
    unfold list_getitem, corpus_size in *.
    replace (idx <? 0) with true in Hr by lia.
    replace ((idx + Z.of_nat (length (tools_data st)) <? 0)
             || (Z.of_nat (length (tools_data st))
                 <=? idx + Z.of_nat (length (tools_data st)))) with true in Hr by lia.
    discriminate.
Qed.

(** X7: a hit on a record without a popularity field makes [search]
    raise [KeyError]: the lookup stands outside the [try]. *)
Theorem search_key_error st query top_k ix score idx l :
  strip query <> [] -> index st = Some ix ->
  Forall (fun hit : Q * Z => 0 <= snd hit)
    (nearest ix (preprocess_query query) top_k) ->
  (score, idx) ∈ nearest ix (preprocess_query query) top_k ->
  tools_data st !! Z.to_nat idx = Some l ->
  deref (heap st) l !! "popularity" = None ->
  search st query top_k = Raise KeyError.
Proof.
  intros Hq Hix Hpos Hin Hl Hnone. unfold search.
  rewrite bool_decide_eq_false_2 by assumption. rewrite Hix.
  rewrite Forall_forall in Hpos.
  assert (Hget : forall i, 0 <= i -> i < corpus_size st ->
             exists l', list_getitem (tools_data st) i = Ok l' /\
                        tools_data st !! Z.to_nat i = Some l').
  { intros i H0 H1. destruct (list_getitem_ok (tools_data st) i) as (a & Ha & Ha');
      [unfold corpus_size in *; lia|].
    replace (i <? 0) with false in Ha' by lia. eauto. }
  rewrite (search_loop_raises st KeyError); [reflexivity| |].
  - intros j [s i] Hhit. specialize (Hpos _ Hhit). simpl in Hpos.
    unfold score_hit. destruct (Z.leb_spec (corpus_size st) i); [left; eauto|].
    destruct (Hget i Hpos ltac:(lia)) as (l' & -> & _). cbn [mbind res_bind].
    unfold dict_getitem. rewrite !lookup_insert_ne by discriminate.
    destruct (deref (heap st) l' !! "popularity") as [p|].
    + left. eexists. reflexivity.
    + right. reflexivity.
  - exists (score, idx). split; [exact Hin|]. intros j.
    specialize (Hpos _ Hin). simpl in Hpos.
    assert (Hidx : idx < corpus_size st).
    { apply lookup_lt_Some in Hl. unfold corpus_size. lia. }
    unfold score_hit. replace (corpus_size st <=? idx) with false by lia.
    destruct (Hget idx Hpos Hidx) as (l' & -> & Hl'). cbn [mbind res_bind].
    rewrite Hl in Hl'. injection Hl' as <-.
    unfold dict_getitem. rewrite !lookup_insert_ne by discriminate.
    rewrite Hnone. reflexivity.
Qed.

Lemma py_min_le_r (x y : Q) : (py_min x y <= y)%Q.
Proof.
  unfold py_min. destruct (Qltb y x) eqn:E; [apply Qle_refl|].
  apply Qltb_ge in E. exact E.
Qed.

Lemma int_truediv_sign n q :
  int_truediv n 10000 = Ok q -> (q == inject_Z n / 10000)%Q.
Proof.
  unfold int_truediv. cbn [Z.eqb]. destruct (Qle_bool _ _); [discriminate|].
  intros [= <-]. reflexivity.
Qed.

(** X8: the popularity bonus never exceeds 0.1, whatever the popularity
    field holds. *)
Theorem popularity_bonus_capped (popularity : value) :
  (popularity_bonus popularity <= 1 # 10)%Q.
Proof.
  unfold popularity_bonus. destruct (truthy popularity); [|discriminate].
  destruct (parse_popularity popularity) as [n|]; cbn [mbind res_bind]; [|discriminate].
  destruct (int_truediv n 10000) as [q|]; cbn [mbind res_bind mret res_ret];
    [|discriminate].
  apply py_min_le_r.
Qed.

(** X9: the cap is on one side only.  A popularity that parses to a
    negative number [n] gives the negative bonus [n / 10000], unless the
    quotient overflows a float: then the [OverflowError] is swallowed with
    the other exceptions and the bonus is 0. *)
Theorem popularity_bonus_negative (p : pystr) (n : Z) :
  py_int (strip_plus_comma p) = Ok n -> n < 0 ->
  (quotient_overflows n = false ->
   (popularity_bonus (VStr p) == inject_Z n / 10000)%Q /\
   (popularity_bonus (VStr p) < 0)%Q) /\
  (quotient_overflows n = true -> (popularity_bonus (VStr p) == 0)%Q).
Proof.
  intros Hn Hneg. split; intros Ho.
  - assert (Hq : (inject_Z n / 10000 < 0)%Q).
    { apply Qlt_shift_div_r; [reflexivity|]. rewrite Qmult_0_l.
      change 0%Q with (inject_Z 0). rewrite <- Zlt_Qlt. exact Hneg. }
    assert (Hb : (popularity_bonus (VStr p) == inject_Z n / 10000)%Q).
    { rewrite popularity_bonus_str. unfold capped_popularity_bonus. rewrite Hn, Ho.
      apply Q.min_l. apply Qlt_le_weak. eapply Qlt_trans; [exact Hq|reflexivity]. }
    split; [exact Hb|]. rewrite Hb. exact Hq.
  - rewrite popularity_bonus_str. unfold capped_popularity_bonus. rewrite Hn, Ho.
    reflexivity.
Qed.

(** X11: a result of [search] is a copy of a record of the corpus: apart
    from the three scoring keys it has the fields of that record, and no
    other. *)
Theorem search_keeps_fields st query top_k out d :
  search st query top_k = Ok out -> d ∈ out ->
  exists l, l ∈ tools_data st /\
    forall k, k <> "relevance_score" -> k <> "rank" -> k <> "final_score" ->
      d !! k = deref (heap st) l !! k.
Proof.
  intros H Hd. apply search_results_built in H. rewrite Forall_forall in H.
  destruct (H d Hd) as (i & score & l & p & Hl & _ & ->).
  exists l. split; [exact Hl|]. intros k H1 H2 H3.
  unfold scored. rewrite !lookup_insert_ne by congruence. reflexivity.
Qed.

End SearchBounds.


(** *** [search] on more sample data *)

Lemma search_result_count_witness :
  length two_tools_results
  = length (List.filter (fun hit : Q * Z => snd hit <? corpus_size two_tools)
              (nearest (Retrieval := two_hits) (IndexFlatIP 5)
                 (preprocess_query (U := ascii_only) (py "chat bot")) 2)).
Proof.
  destruct two_tools_shape as (S1 & _).
  exact (search_result_count (U := ascii_only) (R := two_hits) two_tools
           (py "chat bot") 2 (IndexFlatIP 5) two_tools_results S1 eq_refl
           search_two_tools).
Defined.

Lemma minus_three_out_of_range : -3 < - corpus_size two_tools.
Proof. by_computation. Qed.

Lemma search_index_error_witness :
  search (U := ascii_only) (R := wild_hits) two_tools (py "chat bot") 2
  = Raise IndexError.
Proof.
  destruct two_tools_shape as (S1 & S2 & _).
  apply (search_index_error (U := ascii_only) (R := wild_hits) two_tools
           (py "chat bot") 2 (IndexFlatIP 5) (1 # 3) (-3) S1 eq_refl S2).
  - right. left.
  - exact minus_three_out_of_range.
Defined.

Lemma bare_record_has_no_popularity :
  deref (heap bare_corpus) 1%nat !! "popularity" = None.
Proof. by_computation. Qed.

Lemma search_key_error_witness :
  search (U := ascii_only) (R := two_hits) bare_corpus (py "chat bot") 2
  = Raise KeyError.
Proof.
  destruct two_tools_shape as (S1 & _).
  apply (search_key_error (U := ascii_only) (R := two_hits) bare_corpus
           (py "chat bot") 2 (IndexFlatIP 5) (9 # 20) 1 1%nat S1 eq_refl).
  - repeat constructor; vm_compute; discriminate.
  - right. left.
  - reflexivity.
  - exact bare_record_has_no_popularity.
Defined.

Lemma debt_parses :
  py_int (U := ascii_only) (strip_plus_comma debt) = Ok (-20000) /\
  quotient_overflows (-20000) = false.
Proof. split; by_computation. Qed.

Lemma popularity_bonus_negative_witness :
  (popularity_bonus (U := ascii_only) (VStr debt) == inject_Z (-20000) / 10000)%Q /\
  (popularity_bonus (U := ascii_only) (VStr debt) < 0)%Q.
Proof.
  destruct debt_parses as [D1 D2].
  exact (proj1 (popularity_bonus_negative (U := ascii_only) debt (-20000) D1
                  ltac:(reflexivity)) D2).
Defined.

Lemma search_keeps_fields_witness :
  exists l, l ∈ tools_data two_tools /\
    forall k, k <> "relevance_score" -> k <> "rank" -> k <> "final_score" ->
      scored (U := ascii_only) beta 1 (9 # 20) (VStr (py "1,000+")) !! k
      = deref (heap two_tools) l !! k.
Proof.
  apply (search_keeps_fields (U := ascii_only) (R := two_hits) two_tools
           (py "chat bot") 2 two_tools_results).
  - exact search_two_tools.
  - left.
Defined.


(** ** More about the retrieval modes *)

Section ModeResults.

Context {U : Unicode}.

Lemma category_loop_inv h category top_k tools acc out :
  category_loop h category top_k tools acc = Ok out ->
  exists new,
    out = acc ++ new /\
    (forall i d, new !! i = Some d ->
       exists l c, l ∈ tools /\
         deref h l !! "category" = Some (VStr c) /\
         contains (str_lower category) (str_lower c) = true /\
         d = ranked (deref h l) (Z.of_nat (length acc + i) + 1)) /\
    (Z.of_nat (length out) < top_k ->
     forall l c, l ∈ tools -> deref h l !! "category" = Some (VStr c) ->
       contains (str_lower category) (str_lower c) = true ->
       exists r, ranked (deref h l) r ∈ new).
Proof.
  revert acc out. induction tools as [|l tools IH]; intros acc out H.
  - injection H as <-. exists []. rewrite app_nil_r. split; [reflexivity|].
    split; [intros i d Hi; discriminate|intros _ l c Hl; inversion Hl].
  - cbn [category_loop] in H. unfold dict_getitem in H.
    destruct (deref h l !! "category") as [cv|] eqn:Ec; [|discriminate].
    cbn [mbind res_bind] in H.
    destruct cv as [c| |]; try discriminate. cbn [value_lower mbind res_bind] in H.
    destruct (contains (str_lower category) (str_lower c)) eqn:Em.
    + fold (ranked (deref h l) (Z.of_nat (length acc) + 1)) in H.
      set (d0 := ranked (deref h l) (Z.of_nat (length acc) + 1)) in *.
      destruct (top_k <=? Z.of_nat (length (acc ++ [d0]))) eqn:Eb.
      * injection H as <-. exists [d0]. split; [reflexivity|]. split.
        -- intros [|i] d Hi; [|discriminate]. injection Hi as <-.
           exists l, c. rewrite Nat.add_0_r. repeat split; try assumption. left.
        -- intros Hlt. lia.
      * apply IH in H as (new & -> & Hnew & Hall).
        exists (d0 :: new). rewrite <- app_assoc. split; [reflexivity|]. split.
        -- intros [|i] d Hi.
           ++ injection Hi as <-. exists l, c. rewrite Nat.add_0_r.
              repeat split; try assumption. left.
           ++ simpl in Hi. destruct (Hnew i d Hi) as (l' & c' & Hl' & H1 & H2 & ->).
              exists l', c'. repeat split; try assumption; [by right|].
              rewrite length_app. simpl. do 3 f_equal. lia.
        -- intros Hlt l' c' Hl' Hc' Hm'.
           apply elem_of_cons in Hl' as [->|Hl'].
           ++ exists (Z.of_nat (length acc) + 1). left.
           ++ rewrite app_assoc in Hlt.
              destruct (Hall Hlt l' c' Hl' Hc' Hm') as [r Hr]. exists r. by right.
    + apply IH in H as (new & -> & Hnew & Hall).
      exists new. split; [reflexivity|]. split.
      * intros i d Hi. destruct (Hnew i d Hi) as (l' & c' & Hl' & H1 & H2 & ->).
        exists l', c'. repeat split; try assumption. by right.
      * intros Hlt l' c' Hl' Hc' Hm'.
        apply elem_of_cons in Hl' as [->|Hl']; [|eauto].
        rewrite Ec in Hc'. injection Hc' as <-. congruence.
Qed.

Lemma category_loop_length h category top_k tools acc out :
  category_loop h category top_k tools acc = Ok out ->
  Z.of_nat (length acc) < top_k \/ acc = [] ->
  Z.of_nat (length out) <= Z.max top_k 1.
Proof.
  revert acc out. induction tools as [|l tools IH]; intros acc out H Hacc.
  - injection H as <-. destruct Hacc as [Hacc| ->]; simpl; lia.
  - cbn [category_loop] in H.
    destruct (dict_getitem (deref h l) "category") as [cv|]; [|discriminate].
    cbn [mbind res_bind] in H.
    destruct (value_lower cv) as [c|]; [|discriminate]. cbn [mbind res_bind] in H.
    destruct (contains (str_lower category) c); [|eauto].
    destruct (Z.leb_spec top_k (Z.of_nat (length (acc ++
                [<["relevance_score":=VFloat 1]>
                   (<["rank":=VInt (Z.of_nat (length acc) + 1)]> (deref h l))]))))
      as [Hge|Hlt].
    + injection H as <-. rewrite length_app in *. simpl in *.
      destruct Hacc as [Hacc| ->]; simpl; lia.
    + eapply IH; [exact H|]. left. exact Hlt.
Qed.

(** X12: [search_by_category] ranks by final position: the i-th result has
    rank i + 1. *)
Theorem search_by_category_ranks st category top_k out i d :
  search_by_category st category top_k = Ok out ->
  out !! i = Some d ->
  d !! "rank" = Some (VInt (Z.of_nat i + 1)).
Proof.
  intros H Hi. unfold search_by_category in H.
  apply category_loop_inv in H as (new & -> & Hnew & _). simpl in Hi.
  destruct (Hnew i d Hi) as (l & c & _ & _ & _ & ->).
  unfold ranked. rewrite lookup_insert_ne by discriminate. simpl.
  apply lookup_insert_eq.
Qed.

(** X13: [search_by_category] returns at most [top_k] results, but one
    even when [top_k] is zero or negative: the bound is tested only after a
    match has been appended. *)
Theorem search_by_category_length st category top_k out :
  search_by_category st category top_k = Ok out ->
  Z.of_nat (length out) <= Z.max top_k 1.
Proof.
  intros H. eapply category_loop_length; [exact H|]. right. reflexivity.
Qed.

(** X14: every result of [search_by_category] is a record of the corpus
    whose category, in lower case, contains the requested category in lower
    case. *)
Theorem search_by_category_matches st category top_k out d :
  search_by_category st category top_k = Ok out -> d ∈ out ->
  exists l c rank,
    l ∈ tools_data st /\
    deref (heap st) l !! "category" = Some (VStr c) /\
    contains (str_lower category) (str_lower c) = true /\
    d = ranked (deref (heap st) l) rank.
Proof.
  intros H Hd. unfold search_by_category in H.
  apply category_loop_inv in H as (new & -> & Hnew & _). simpl in Hd.
  apply list_elem_of_lookup in Hd as [i Hi].
  destruct (Hnew i d Hi) as (l & c & Hl & Hc & Hm & ->). eauto 10.
Qed.

(** X15: when [search_by_category] returns fewer than [top_k] results, no
    matching record of the corpus is left out. *)
Theorem search_by_category_complete st category top_k out l c :
  search_by_category st category top_k = Ok out ->
  Z.of_nat (length out) < top_k ->
  l ∈ tools_data st ->
  deref (heap st) l !! "category" = Some (VStr c) ->
  contains (str_lower category) (str_lower c) = true ->
  exists rank, ranked (deref (heap st) l) rank ∈ out.
Proof.
  intros H Hlt Hl Hc Hm. unfold search_by_category in H.
  apply category_loop_inv in H as (new & -> & _ & Hall).
  exact (Hall Hlt l c Hl Hc Hm).
Qed.

(** *** [get_popular_tools] *)

Lemma rank_loop_lookup i0 tools i d :
  rank_loop i0 tools !! i = Some d ->
  exists tool, tools !! i = Some tool /\ d = ranked tool (Z.of_nat (i0 + i) + 1).
Proof.
  revert i0 i. induction tools as [|t tools IH]; intros i0 i H; [discriminate|].
  cbn [rank_loop] in H. destruct i as [|i].
  - injection H as <-. exists t. rewrite Nat.add_0_r. split; reflexivity.
  - simpl in H. destruct (IH _ _ H) as (t' & Ht & ->). exists t'.
    split; [exact Ht|]. do 3 f_equal. lia.
Qed.

Lemma rank_loop_take i0 n tools :
  rank_loop i0 (take n tools) = take n (rank_loop i0 tools).
Proof.
  revert i0 n. induction tools as [|t tools IH]; intros i0 [|n]; try reflexivity.
  simpl. f_equal. apply IH.
Qed.

Lemma rank_loop_length i0 tools : length (rank_loop i0 tools) = length tools.
Proof.
  revert i0. induction tools as [|t tools IH]; intros i0; [reflexivity|].
  simpl. f_equal. apply IH.
Qed.

(** A candidate of [get_popular_tools]: a corpus record with the parsed
    popularity written into it. *)
Lemma popular_loop_candidates h tools acc out :
  popular_loop h tools acc = Ok out ->
  exists new, out = acc ++ new /\
    Forall (fun d => exists l p n, l ∈ tools /\
              deref h l !! "popularity" = Some p /\ truthy p = true /\
              parse_popularity p = Ok n /\
              d = <["pop_num" := VInt n]> (deref h l)) new.
Proof.
  revert acc out. induction tools as [|l tools IH]; intros acc out H.
  - injection H as <-. exists []. rewrite app_nil_r. split; [reflexivity|constructor].
  - cbn [popular_loop] in H. unfold dict_getitem in H.
    destruct (deref h l !! "popularity") as [p|] eqn:Ep; [|discriminate].
    cbn [mbind res_bind] in H.
    assert (Hweak : forall new,
               Forall (fun d => exists l p n, l ∈ tools /\
                 deref h l !! "popularity" = Some p /\ truthy p = true /\
                 parse_popularity p = Ok n /\
                 d = <["pop_num" := VInt n]> (deref h l)) new ->
               Forall (fun d => exists l0 p n, l0 ∈ l :: tools /\
                 deref h l0 !! "popularity" = Some p /\ truthy p = true /\
                 parse_popularity p = Ok n /\
                 d = <["pop_num" := VInt n]> (deref h l0)) new).
    { intros new Hn. eapply Forall_impl; [exact Hn|].
      intros d (l0 & p0 & n0 & Hl0 & ?). exists l0, p0, n0. split; [by right|assumption]. }
    destruct (truthy p) eqn:Et.
    + destruct (parse_popularity p) as [n|] eqn:En.
      * apply IH in H as (new & -> & Hnew).
        exists (<["pop_num" := VInt n]> (deref h l) :: new).
        rewrite <- app_assoc. split; [reflexivity|].
        constructor; [|apply Hweak; exact Hnew].
        exists l, p, n. repeat split; try assumption. left.
      * apply IH in H as (new & -> & Hnew). exists new. split; [reflexivity|auto].
    + apply IH in H as (new & -> & Hnew). exists new. split; [reflexivity|auto].
Qed.

Lemma with_keys_keys {A} (key : A -> res Q) (l : list A) keyed :
  with_keys key l = Ok keyed ->
  Forall (fun z => key (snd z) = Ok (fst z)) keyed.
Proof.
  revert keyed. induction l as [|x l IH]; intros keyed H.
  - injection H as <-. constructor.
  - cbn [with_keys] in H. destruct (key x) as [k|] eqn:Ek; [|discriminate].
    cbn [mbind res_bind] in H. destruct (with_keys key l) as [r|]; [|discriminate].
    cbn [mbind res_bind mret res_ret] in H. injection H as <-.
    constructor; [exact Ek|]. apply IH. reflexivity.
Qed.

Lemma sort_reverse_sorted {A} (key : A -> res Q) (l sorted : list A) i j a b :
  sort_reverse key l = Ok sorted -> (i < j)%nat ->
  sorted !! i = Some a -> sorted !! j = Some b ->
  exists ka kb, key a = Ok ka /\ key b = Ok kb /\ (kb <= ka)%Q.
Proof.
  unfold sort_reverse. destruct (with_keys key l) as [keyed|] eqn:E; [|discriminate].
  cbn [mbind res_bind mret res_ret]. intros [= <-] Hij Hi Hj.
  rewrite list_lookup_fmap in Hi, Hj.
  destruct (sort_desc keyed !! i) as [[ka a']|] eqn:Ei; [|discriminate].
  destruct (sort_desc keyed !! j) as [[kb b']|] eqn:Ej; [|discriminate].
  injection Hi as ->. injection Hj as ->.
  pose proof (with_keys_keys _ _ _ E) as Hk. rewrite Forall_forall in Hk.
  assert (Hin : forall z n, sort_desc keyed !! n = Some z -> z ∈ keyed).
  { intros z n Hz. apply list_elem_of_In.
    apply (Permutation_in _ (sort_desc_perm keyed)).
    apply list_elem_of_In. eapply list_elem_of_lookup_2. exact Hz. }
  exists ka, kb. split; [apply (Hk _ (Hin _ _ Ei))|].
  split; [apply (Hk _ (Hin _ _ Ej))|].
  apply (sorted_lookup_ge _ i j _ _ (sort_desc_sorted keyed) Hij Ei Ej).
Qed.

Lemma get_popular_tools_inv st top_k out :
  get_popular_tools st top_k = Ok out ->
  exists candidates sorted,
    popular_loop (heap st) (tools_data st) [] = Ok candidates /\
    sort_reverse (number_key "pop_num") candidates = Ok sorted /\
    out = rank_loop 0 (list_slice_to sorted top_k).
Proof.
  unfold get_popular_tools.
  destruct (popular_loop _ _ []) as [candidates|]; [|discriminate].
  cbn [mbind res_bind].
  destruct (sort_reverse _ candidates) as [sorted|] eqn:Es; [|discriminate].
  cbn [mbind res_bind mret res_ret]. intros [= <-].
  exists candidates, sorted. repeat split; assumption || reflexivity.
Qed.

Lemma list_slice_to_lookup {A} (l : list A) k i a :
  list_slice_to l k !! i = Some a -> l !! i = Some a.
Proof.
  unfold list_slice_to. destruct (k <? 0); intros H;
    apply lookup_take_Some in H; tauto.
Qed.

(** X16: [get_popular_tools] ranks after its sort: the i-th result has rank
    i + 1. *)
Theorem get_popular_tools_ranks st top_k out i d :
  get_popular_tools st top_k = Ok out -> out !! i = Some d ->
  d !! "rank" = Some (VInt (Z.of_nat i + 1)).
Proof.
  intros H Hi. apply get_popular_tools_inv in H as (cs & sorted & _ & _ & ->).
  apply rank_loop_lookup in Hi as (t & _ & ->).
  unfold ranked. rewrite lookup_insert_ne by discriminate. apply lookup_insert_eq.
Qed.

(** X17: every result of [get_popular_tools] is a record of the corpus
    whose popularity is not empty and parses, with the parsed number under
    [pop_num]. *)
Theorem get_popular_tools_parsed st top_k out d :
  get_popular_tools st top_k = Ok out -> d ∈ out ->
  exists l p n,
    l ∈ tools_data st /\
    deref (heap st) l !! "popularity" = Some p /\ truthy p = true /\
    parse_popularity p = Ok n /\
    d !! "pop_num" = Some (VInt n) /\ d !! "popularity" = Some p.
Proof.
  intros H Hd. apply get_popular_tools_inv in H as (cs & sorted & Hc & Hs & ->).
  apply list_elem_of_lookup in Hd as [i Hi].
  apply rank_loop_lookup in Hi as (t & Ht & ->).
  apply list_slice_to_lookup, list_elem_of_lookup_2 in Ht.
  apply list_elem_of_In, (Permutation_in _ (sort_reverse_perm _ _ _ Hs)), list_elem_of_In in Ht.
  apply popular_loop_candidates in Hc as (new & -> & Hnew). simpl in Ht.
  rewrite Forall_forall in Hnew.
  destruct (Hnew t Ht) as (l & p & n & Hl & Hp & Htr & Hn & ->).
  exists l, p, n. repeat split; try assumption.
  - unfold ranked. rewrite !lookup_insert_ne by discriminate. apply lookup_insert_eq.
  - unfold ranked. rewrite !lookup_insert_ne by discriminate. exact Hp.
Qed.

(** X18: the results of [get_popular_tools] stand in descending order of
    their parsed popularity. *)
Theorem get_popular_tools_sorted st top_k out i j a b :
  get_popular_tools st top_k = Ok out -> (i < j)%nat ->
  out !! i = Some a -> out !! j = Some b ->
  exists na nb,
    a !! "pop_num" = Some (VInt na) /\ b !! "pop_num" = Some (VInt nb) /\ nb <= na.
Proof.
  intros H Hij Hi Hj.
  apply get_popular_tools_inv in H as (cs & sorted & Hc & Hs & ->).
  apply rank_loop_lookup in Hi as (ta & Hta & ->).
  apply rank_loop_lookup in Hj as (tb & Htb & ->).
  apply list_slice_to_lookup in Hta, Htb.
  destruct (sort_reverse_sorted _ _ _ i j ta tb Hs Hij Hta Htb) as (ka & kb & Ka & Kb & Hle).
  assert (Hnum : forall t k, number_key "pop_num" t = Ok k -> t ∈ cs ->
             exists n, t !! "pop_num" = Some (VInt n) /\ k = inject_Z n).
  { intros t k Hk Ht.
    apply popular_loop_candidates in Hc as (new & -> & Hnew). simpl in Ht.
    rewrite Forall_forall in Hnew.
    destruct (Hnew t Ht) as (l & p & n & _ & _ & _ & _ & ->).
    exists n. unfold number_key, dict_getitem in Hk.
    rewrite lookup_insert_eq in Hk. cbn [mbind res_bind] in Hk.
    injection Hk as <-. split; [apply lookup_insert_eq|reflexivity]. }
  assert (Hin : forall t n, sorted !! n = Some t -> t ∈ cs).
  { intros t n Ht. apply list_elem_of_lookup_2 in Ht.
    apply list_elem_of_In, (Permutation_in _ (sort_reverse_perm _ _ _ Hs)), list_elem_of_In in Ht.
    exact Ht. }
  destruct (Hnum ta ka Ka (Hin _ _ Hta)) as (na & Hna & ->).
  destruct (Hnum tb kb Kb (Hin _ _ Htb)) as (nb & Hnb & ->).
  exists na, nb. unfold ranked. rewrite !lookup_insert_ne by discriminate.
  repeat split; try assumption. rewrite Zle_Qle. exact Hle.
Qed.

(** X19: asking [get_popular_tools] for fewer tools gives a prefix of what
    it returns for more, and never more than [top_k] results. *)
Theorem get_popular_tools_prefix st top_k top_k' out out' :
  0 <= top_k <= top_k' ->
  get_popular_tools st top_k = Ok out ->
  get_popular_tools st top_k' = Ok out' ->
  out = take (Z.to_nat top_k) out' /\ Z.of_nat (length out) <= top_k.
Proof.
  intros Hk H H'.
  apply get_popular_tools_inv in H as (cs & sorted & Hc & Hs & ->).
  apply get_popular_tools_inv in H' as (cs' & sorted' & Hc' & Hs' & ->).
  rewrite Hc in Hc'. injection Hc' as <-. rewrite Hs in Hs'. injection Hs' as <-.
  unfold list_slice_to.
  replace (top_k <? 0) with false by lia. replace (top_k' <? 0) with false by lia.
  split.
  - rewrite <- rank_loop_take, take_take. f_equal. f_equal. lia.
  - rewrite rank_loop_length, length_take. lia.
Qed.

End ModeResults.


(** *** The retrieval modes on more sample data *)

Lemma search_by_category_ranks_witness :
  ranked beta 2 !! "rank" = Some (VInt (Z.of_nat 1 + 1)).
Proof.
  exact (search_by_category_ranks (U := ascii_only) two_tools (py "Chat") 20
           [ranked alpha 1; ranked beta 2] 1%nat (ranked beta 2)
           search_by_category_two_tools eq_refl).
Defined.

Lemma search_by_category_length_witness :
  Z.of_nat (length [ranked alpha 1; ranked beta 2]) <= Z.max 20 1.
Proof.
  exact (search_by_category_length (U := ascii_only) two_tools (py "Chat") 20
           [ranked alpha 1; ranked beta 2] search_by_category_two_tools).
Defined.

Lemma search_by_category_matches_witness :
  exists l c rank,
    l ∈ tools_data two_tools /\
    deref (heap two_tools) l !! "category" = Some (VStr c) /\
    contains (str_lower (Unicode := ascii_only) (py "Chat"))
      (str_lower (Unicode := ascii_only) c) = true /\
    ranked alpha 1 = ranked (deref (heap two_tools) l) rank.
Proof.
  apply (search_by_category_matches (U := ascii_only) two_tools (py "Chat") 20
           [ranked alpha 1; ranked beta 2] (ranked alpha 1)
           search_by_category_two_tools).
  left.
Defined.

Lemma beta_category :
  deref (heap two_tools) 1%nat !! "category" = Some (VStr (py "chat")) /\
  contains (str_lower (Unicode := ascii_only) (py "Chat"))
    (str_lower (Unicode := ascii_only) (py "chat")) = true.
Proof. split; by_computation. Qed.

Lemma search_by_category_complete_witness :
  exists rank,
    ranked (deref (heap two_tools) 1%nat) rank ∈ [ranked alpha 1; ranked beta 2].
Proof.
  destruct beta_category as [B1 B2].
  apply (search_by_category_complete (U := ascii_only) two_tools (py "Chat") 20
           [ranked alpha 1; ranked beta 2] 1%nat (py "chat")
           search_by_category_two_tools).
  - reflexivity.
  - right. left.
  - exact B1.
  - exact B2.
Defined.

Lemma get_popular_tools_mixed_pair :
  get_popular_tools (U := ascii_only) mixed_pair 5 = Ok [popular_first; popular_second].
Proof. by_items. Qed.

Lemma get_popular_tools_mixed_pair_one :
  get_popular_tools (U := ascii_only) mixed_pair 1 = Ok [popular_first].
Proof. by_items. Qed.

Lemma get_popular_tools_ranks_witness :
  popular_second !! "rank" = Some (VInt (Z.of_nat 1 + 1)).
Proof.
  exact (get_popular_tools_ranks (U := ascii_only) mixed_pair 5
           [popular_first; popular_second] 1%nat popular_second
           get_popular_tools_mixed_pair eq_refl).
Defined.

Lemma get_popular_tools_parsed_witness :
  exists l p n,
    l ∈ tools_data mixed_pair /\
    deref (heap mixed_pair) l !! "popularity" = Some p /\ truthy p = true /\
    parse_popularity (U := ascii_only) p = Ok n /\
    popular_first !! "pop_num" = Some (VInt n) /\
    popular_first !! "popularity" = Some p.
Proof.
  apply (get_popular_tools_parsed (U := ascii_only) mixed_pair 5
           [popular_first; popular_second] popular_first
           get_popular_tools_mixed_pair).
  left.
Defined.

Lemma get_popular_tools_sorted_witness :
  exists na nb,
    popular_first !! "pop_num" = Some (VInt na) /\
    popular_second !! "pop_num" = Some (VInt nb) /\ nb <= na.
Proof.
  exact (get_popular_tools_sorted (U := ascii_only) mixed_pair 5
           [popular_first; popular_second] 0%nat 1%nat popular_first popular_second
           get_popular_tools_mixed_pair ltac:(lia) eq_refl eq_refl).
Defined.

Lemma get_popular_tools_prefix_witness :
  [popular_first] = take (Z.to_nat 1) [popular_first; popular_second] /\
  Z.of_nat (length [popular_first]) <= 1.
Proof.
  exact (get_popular_tools_prefix (U := ascii_only) mixed_pair 1 5
           [popular_first] [popular_first; popular_second] ltac:(lia)
           get_popular_tools_mixed_pair_one get_popular_tools_mixed_pair).
Defined.


(** ** [get_categories] *)

Section CategoryFacts.

Lemma str_ltb_irrefl s : str_ltb s s = false.
Proof.
  induction s as [|a s IH]; [reflexivity|]. simpl.
  rewrite Z.ltb_irrefl, Z.eqb_refl, IH. reflexivity.
Qed.

Lemma str_ltb_trans s t u :
  str_ltb s t = true -> str_ltb t u = true -> str_ltb s u = true.
Proof.
  revert t u. induction s as [|a s IH]; intros [|b t] [|c u] H1 H2;
    try discriminate; try reflexivity.
  simpl in *.
  apply orb_prop in H1 as [H1|H1]; apply orb_prop in H2 as [H2|H2];
    try (apply andb_prop in H1 as [E1 H1]); try (apply andb_prop in H2 as [E2 H2]);
    apply orb_true_intro.
  - left. lia.
  - left. lia.
  - left. lia.
  - right. apply andb_true_intro. split; [lia|eauto].
Qed.

Lemma str_ltb_total s t :
  str_ltb s t = false -> str_ltb t s = false -> s = t.
Proof.
  revert t. induction s as [|a s IH]; intros [|b t] H1 H2;
    try discriminate; try reflexivity.
  simpl in *. apply orb_false_elim in H1 as [A1 B1]. apply orb_false_elim in H2 as [A2 B2].
  assert (a = b) by lia. subst b. rewrite Z.eqb_refl in B1, B2. simpl in *.
  f_equal. auto.
Qed.

Lemma value_ltb_kind a b : value_ltb a b = true -> is_str a = is_str b.
Proof. destruct a, b; simpl; congruence. Qed.

Lemma value_ltb_trans a b c :
  value_ltb a b = true -> value_ltb b c = true -> value_ltb a c = true.
Proof.
  intros H1 H2.
  pose proof (value_ltb_kind _ _ H1) as K1. pose proof (value_ltb_kind _ _ H2) as K2.
  destruct a, b, c; simpl in *; try discriminate;
    try (eapply str_ltb_trans; eassumption);
    apply Qltb_lt in H1, H2; apply Qltb_lt; eapply Qlt_trans; eassumption.
Qed.

Lemma value_ltb_irrefl a : value_ltb a a = false.
Proof.
  destruct a; simpl; [apply str_ltb_irrefl| |];
    apply Qltb_ge; apply Qle_refl.
Qed.

Lemma value_trichotomy a b :
  is_str a = is_str b -> value_ltb a b = false -> value_ltb b a = false ->
  value_eqb a b = true.
Proof.
  intros K H1 H2. destruct a, b; simpl in *; try discriminate;
    try (apply bool_decide_eq_true; apply str_ltb_total; assumption);
    apply Qltb_ge in H1, H2; apply Qeq_bool_iff; apply Qle_antisym; assumption.
Qed.

Lemma Qeq_bool_sym (x y : Q) : Qeq_bool x y = Qeq_bool y x.
Proof.
  destruct (Qeq_bool x y) eqn:E1, (Qeq_bool y x) eqn:E2; try reflexivity.
  - apply Qeq_bool_iff in E1. apply Qeq_bool_neq in E2. exfalso. apply E2.
    symmetry. exact E1.
  - apply Qeq_bool_iff in E2. apply Qeq_bool_neq in E1. exfalso. apply E1.
    symmetry. exact E2.
Qed.

Lemma value_eqb_sym a b : value_eqb a b = value_eqb b a.
Proof.
  destruct a, b; simpl; try reflexivity; try apply Qeq_bool_sym.
  apply bool_decide_ext. split; congruence.
Qed.

Lemma value_eqb_str c v : value_eqb (VStr c) v = true <-> v = VStr c.
Proof.
  destruct v; simpl; try (split; [discriminate|congruence]).
  rewrite bool_decide_eq_true. split; congruence.
Qed.

(** *** The sort *)

Lemma insert_asc_perm x l : Permutation (insert_asc x l) (x :: l).
Proof.
  induction l as [|y l IH]; simpl; [reflexivity|].
  destruct (value_ltb y x); [|reflexivity].
  rewrite IH. apply perm_swap.
Qed.

Lemma sort_asc_perm l : Permutation (foldr insert_asc [] l) l.
Proof.
  induction l as [|x l IH]; simpl; [reflexivity|].
  rewrite insert_asc_perm. constructor. exact IH.
Qed.

Lemma insert_asc_sorted x l :
  StronglySorted (fun a b => value_ltb a b = true) l ->
  Forall (fun y => is_str x = is_str y /\ different x y) l ->
  StronglySorted (fun a b => value_ltb a b = true) (insert_asc x l).
Proof.
  induction 1 as [|y l Hl IH Hy]; intros Hx; simpl.
  - constructor; constructor.
  - apply Forall_cons in Hx as [[Kx Dx] Hx].
    destruct (value_ltb y x) eqn:E.
    + constructor; [apply IH; exact Hx|].
      eapply Permutation_Forall; [symmetry; apply insert_asc_perm|].
      constructor; assumption.
    + assert (Hxy : value_ltb x y = true).
      { destruct (value_ltb x y) eqn:E'; [reflexivity|].
        pose proof (value_trichotomy x y Kx E' E) as He. unfold different in Dx.
        congruence. }
      constructor; [constructor; assumption|].
      constructor; [exact Hxy|].
      eapply Forall_impl; [exact Hy|].
      intros z Hz. eapply value_ltb_trans; eassumption.
Qed.

Lemma sort_asc_sorted l :
  (forallb is_str l || forallb (fun v => negb (is_str v)) l) = true ->
  StronglySorted different l ->
  StronglySorted (fun a b => value_ltb a b = true) (foldr insert_asc [] l).
Proof.
  intros Hk Hd.
  assert (Hkind : forall a b, a ∈ l -> b ∈ l -> is_str a = is_str b).
  { intros a b Ha Hb. apply list_elem_of_In in Ha, Hb.
    apply orb_prop in Hk as [Hk|Hk]; rewrite forallb_forall in Hk;
      pose proof (Hk a Ha) as H1; pose proof (Hk b Hb) as H2.
    - congruence.
    - apply negb_true_iff in H1, H2. congruence. }
  clear Hk. induction Hd as [|x l Hl IH Hx]; [constructor|].
  simpl. apply insert_asc_sorted.
  - apply IH. intros a b Ha Hb. apply Hkind; by right.
  - eapply Permutation_Forall; [symmetry; apply sort_asc_perm|].
    apply Forall_forall. intros y Hy. split.
    + apply Hkind; [left|by right].
    + rewrite Forall_forall in Hx. apply Hx. exact Hy.
Qed.

(** Two ascending lists with the same elements are the same list. *)
Lemma ascending_unique l1 l2 :
  StronglySorted (fun a b => value_ltb a b = true) l1 ->
  StronglySorted (fun a b => value_ltb a b = true) l2 ->
  Permutation l1 l2 -> l1 = l2.
Proof.
  intros H1. revert l2. induction H1 as [|x l1 Hl1 IH Hx]; intros l2 H2 Hp.
  - apply Permutation_nil in Hp. congruence.
  - destruct H2 as [|y l2 Hl2 Hy].
    + symmetry in Hp. apply Permutation_nil in Hp. discriminate.
    + assert (x = y).
      { assert (Hxin : In x (y :: l2)) by (apply (Permutation_in _ Hp); left; reflexivity).
        assert (Hyin : In y (x :: l1))
          by (apply (Permutation_in _ (Permutation_sym Hp)); left; reflexivity).
        destruct Hxin as [->|Hxin]; [reflexivity|].
        destruct Hyin as [->|Hyin]; [reflexivity|].
        rewrite Forall_forall in Hx, Hy.
        pose proof (Hx y (proj2 (list_elem_of_In _ _) Hyin)) as A.
        pose proof (Hy x (proj2 (list_elem_of_In _ _) Hxin)) as B.
        pose proof (value_ltb_trans _ _ _ A B) as C.
        rewrite value_ltb_irrefl in C. discriminate. }
      subst y. f_equal. apply IH; [exact Hl2|].
      eapply Permutation_cons_inv. exact Hp.
Qed.

Lemma different_perm l l' :
  Permutation l l' -> StronglySorted different l -> StronglySorted different l'.
Proof.
  induction 1 as [|x l l' Hp IH|x y l|l l' l'' Hp1 IH1 Hp2 IH2]; intros H.
  - constructor.
  - apply StronglySorted_inv in H as [H Hx]. constructor; [auto|].
    eapply Permutation_Forall; eassumption.
  - apply StronglySorted_inv in H as [H Hy].
    apply StronglySorted_inv in H as [H Hx].
    apply Forall_cons in Hy as [Hyx Hy].
    constructor; [constructor; assumption|].
    constructor; [|assumption]. unfold different in *.
    rewrite value_eqb_sym. exact Hyx.
  - auto.
Qed.

Lemma kinds_perm l l' :
  Permutation l l' ->
  (forallb is_str l || forallb (fun v => negb (is_str v)) l)
  = (forallb is_str l' || forallb (fun v => negb (is_str v)) l').
Proof.
  intros Hp.
  assert (H : forall f : value -> bool, forallb f l = forallb f l').
  { intros f. induction Hp as [| | |]; simpl; try congruence.
    destruct (f x), (f y); reflexivity. }
  rewrite !H. reflexivity.
Qed.

(** The order in which the set yields its elements does not matter to
    [sorted]. *)
Lemma sorted_values_order l l' :
  Permutation l l' -> StronglySorted different l ->
  sorted_values l' = sorted_values l.
Proof.
  intros Hp Hd. unfold sorted_values. rewrite <- (kinds_perm _ _ Hp).
  destruct (forallb is_str l || _) eqn:Hk; [|reflexivity].
  f_equal. apply ascending_unique.
  - apply sort_asc_sorted; [rewrite <- (kinds_perm _ _ Hp); exact Hk|].
    eapply different_perm; eassumption.
  - apply sort_asc_sorted; assumption.
  - rewrite !sort_asc_perm. symmetry. exact Hp.
Qed.

(** *** The set *)

Lemma set_add_different v s :
  StronglySorted different s -> StronglySorted different (set_add v s).
Proof.
  intros H. unfold set_add. destruct (existsb (value_eqb v) s) eqn:E; [exact H|].
  assert (Hv : Forall (fun x => different x v) s).
  { apply Forall_forall. intros x Hx. unfold different. rewrite value_eqb_sym.
    destruct (value_eqb v x) eqn:Ex; [|reflexivity].
    assert (existsb (value_eqb v) s = true); [|congruence].
    apply existsb_exists. exists x. split; [apply list_elem_of_In; exact Hx|exact Ex]. }
  clear E. induction H as [|x s Hs IH Hx]; simpl.
  - constructor; constructor.
  - apply Forall_cons in Hv as [Hxv Hv].
    constructor; [auto|]. apply Forall_app. split; [exact Hx|].
    constructor; [exact Hxv|constructor].
Qed.

Lemma set_add_str c v s :
  VStr c ∈ set_add v s <-> VStr c ∈ s \/ v = VStr c.
Proof.
  unfold set_add. destruct (existsb (value_eqb v) s) eqn:E.
  - split; [tauto|]. intros [H| ->]; [exact H|].
    apply existsb_exists in E as (x & Hx & Ex).
    apply value_eqb_str in Ex. subst x. apply list_elem_of_In. exact Hx.
  - rewrite elem_of_app, list_elem_of_singleton. split; intros [H|H]; auto.
Qed.

Lemma truthy_str c : truthy (VStr c) = true <-> c <> [].
Proof.
  simpl. rewrite negb_true_iff, bool_decide_eq_false. reflexivity.
Qed.

Lemma categories_loop_spec h tools acc cats :
  categories_loop h tools acc = Ok cats ->
  StronglySorted different acc ->
  StronglySorted different cats /\
  forall c, VStr c ∈ cats <->
    VStr c ∈ acc \/
    (c <> [] /\ exists l, l ∈ tools /\ deref h l !! "category" = Some (VStr c)).
Proof.
  revert acc cats. induction tools as [|l tools IH]; intros acc cats H Hd.
  - injection H as <-. split; [exact Hd|]. intros c. split; [tauto|].
    intros [H|(_ & l & Hl & _)]; [exact H|inversion Hl].
  - cbn [categories_loop] in H. unfold dict_getitem in H.
    destruct (deref h l !! "category") as [v|] eqn:Ev; [|discriminate].
    cbn [mbind res_bind] in H.
    apply IH in H as [Hd' Hmem].
    2:{ destruct (truthy v); [apply set_add_different|]; exact Hd. }
    split; [exact Hd'|]. intros c. rewrite Hmem. clear Hmem. split.
    + intros [H|(Hc & l' & Hl' & Hcat)].
      * destruct (truthy v) eqn:Et; [|tauto].
        apply set_add_str in H as [H| ->]; [tauto|].
        right. split; [apply truthy_str; exact Et|]. exists l. split; [left|exact Ev].
      * right. split; [exact Hc|]. exists l'. split; [by right|exact Hcat].
    + intros [H|(Hc & l' & Hl' & Hcat)].
      * left. destruct (truthy v); [apply set_add_str|]; tauto.
      * apply elem_of_cons in Hl' as [->|Hl'].
        -- left. rewrite Ev in Hcat. injection Hcat as ->.
           rewrite (proj2 (truthy_str c) Hc). apply set_add_str. tauto.
        -- right. split; [exact Hc|]. exists l'. split; assumption.
Qed.

Lemma get_categories_inv st out :
  get_categories st = Ok out ->
  exists cats,
    categories_loop (heap st) (tools_data st) [] = Ok cats /\
    (forallb is_str cats || forallb (fun v => negb (is_str v)) cats) = true /\
    out = foldr insert_asc [] cats.
Proof.
  unfold get_categories.
  destruct (categories_loop _ _ []) as [cats|]; [|discriminate].
  cbn [mbind res_bind]. unfold sorted_values.
  destruct (forallb is_str cats || _) eqn:E; [|discriminate].
  intros [= <-]. exists cats. repeat split. exact E.
Qed.

(** X20: the list of categories is strictly ascending: sorted, and no
    category twice. *)
Theorem get_categories_ascending st out i j a b :
  get_categories st = Ok out -> (i < j)%nat ->
  out !! i = Some a -> out !! j = Some b ->
  value_ltb a b = true.
Proof.
  intros H Hij Hi Hj. apply get_categories_inv in H as (cats & Hc & Hk & ->).
  apply categories_loop_spec in Hc as [Hd _]; [|constructor].
  pose proof (sort_asc_sorted cats Hk Hd) as Hs.
  revert i j Hij Hi Hj. induction Hs as [|x l Hl IH Hx]; intros i j Hij Hi Hj.
  - discriminate.
  - destruct j as [|j]; [lia|]. simpl in Hj. destruct i as [|i].
    + injection Hi as <-. rewrite Forall_forall in Hx. apply Hx.
      eapply list_elem_of_lookup_2. exact Hj.
    + simpl in Hi. apply (IH i j); [lia|assumption|assumption].
Qed.

(** X21: a string is in the list of categories exactly when it is not
    empty and is the category of some record of the corpus. *)
Theorem get_categories_members st out c :
  get_categories st = Ok out ->
  VStr c ∈ out <->
  c <> [] /\ exists l, l ∈ tools_data st /\ deref (heap st) l !! "category" = Some (VStr c).
Proof.
  intros H. apply get_categories_inv in H as (cats & Hc & _ & ->).
  apply categories_loop_spec in Hc as [_ Hmem]; [|constructor].
  rewrite (sort_asc_perm cats). rewrite Hmem. split; [|tauto].
  intros [H|H]; [inversion H|exact H].
Qed.

(** A record without a category field makes [get_categories] raise
    [KeyError]. *)
Lemma get_categories_key_error st l :
  l ∈ tools_data st -> deref (heap st) l !! "category" = None ->
  get_categories st = Raise KeyError.
Proof.
  intros Hl Hnone. unfold get_categories.
  assert (H : forall acc, categories_loop (heap st) (tools_data st) acc = Raise KeyError).
  { induction (tools_data st) as [|l0 tools IH]; intros acc; [inversion Hl|].
    cbn [categories_loop]. unfold dict_getitem.
    apply elem_of_cons in Hl as [->|Hl].
    - rewrite Hnone. reflexivity.
    - destruct (deref (heap st) l0 !! "category"); [|reflexivity].
      cbn [mbind res_bind]. apply IH. exact Hl. }
  rewrite H. reflexivity.
Qed.

End CategoryFacts.


(** *** [get_categories] on sample data *)

Lemma get_categories_three_tools :
  get_categories three_tools = Ok [VStr (py "chat"); VStr (py "image")].
Proof. by_computation. Qed.

Lemma get_categories_ascending_witness :
  value_ltb (VStr (py "chat")) (VStr (py "image")) = true.
Proof.
  exact (get_categories_ascending three_tools [VStr (py "chat"); VStr (py "image")]
           0%nat 1%nat (VStr (py "chat")) (VStr (py "image"))
           get_categories_three_tools ltac:(lia) eq_refl eq_refl).
Defined.

Lemma get_categories_members_witness :
  VStr (py "chat") ∈ [VStr (py "chat"); VStr (py "image")] <->
  py "chat" <> [] /\
  exists l, l ∈ tools_data three_tools /\
    deref (heap three_tools) l !! "category" = Some (VStr (py "chat")).
Proof.
  exact (get_categories_members three_tools [VStr (py "chat"); VStr (py "image")]
           (py "chat") get_categories_three_tools).
Defined.


(** ** More about [get_random_tools] *)

Section RandomFacts.

(** X22: a negative count is not caught: [random.sample] raises
    [ValueError]. *)
Theorem get_random_tools_negative st count choice :
  count < 0 -> get_random_tools st count choice = Raise ValueError.
Proof.
  intros Hc. unfold get_random_tools, random_sample.
  assert (Hsize : 0 <= corpus_size st) by (unfold corpus_size; lia).
  replace (corpus_size st <=? count) with false by lia.
  replace (count <? 0) with true by lia. reflexivity.
Qed.

Lemma setitem_untouched l k v (h : gmap loc dict) l' :
  l <> l' -> setitem l k v h !! l' = h !! l'.
Proof. intros Hne. rewrite setitem_lookup. rewrite decide_False by exact Hne. reflexivity. Qed.

Lemma mark_loop_untouched i tools (h : gmap loc dict) l :
  l ∉ tools -> mark_loop i tools h !! l = h !! l.
Proof.
  revert i h. induction tools as [|l0 tools IH]; intros i h Hl; [reflexivity|].
  cbn [mark_loop]. apply not_elem_of_cons in Hl as [Hne Hl].
  rewrite IH by exact Hl. rewrite !setitem_untouched by congruence. reflexivity.
Qed.

(** X23: [get_random_tools] touches nothing but the keys [rank] and
    [relevance_score] of the records it returns: every other record, and
    every other field of a returned record, reads as before, and the
    list of the corpus is the same. *)
Theorem get_random_tools_frame st count choice st' locs l k :
  get_random_tools st count choice = Ok (st', locs) ->
  l ∉ locs \/ (k <> "rank" /\ k <> "relevance_score") ->
  deref (heap st') l !! k = deref (heap st) l !! k /\
  tools_data st' = tools_data st.
Proof.
  intros H Hlk.
  destruct (get_random_tools_aliases _ _ _ _ _ H) as [_ Htd]. split; [|exact Htd].
  unfold get_random_tools in H. destruct (corpus_size st <=? count).
  - injection H as <- <-. reflexivity.
  - destruct (random_sample (tools_data st) count choice) as [r|]; [|discriminate].
    cbn [mbind res_bind mret res_ret] in H. injection H as <- <-. simpl.
    destruct Hlk as [Hl|[H1 H2]].
    + unfold deref. rewrite mark_loop_untouched by exact Hl. reflexivity.
    + apply mark_loop_other; assumption.
Qed.

Lemma mark_loop_rank i0 tools (h : gmap loc dict) i l :
  NoDup tools -> tools !! i = Some l -> is_Some (h !! l) ->
  deref (mark_loop i0 tools h) l !! "rank" = Some (VInt (Z.of_nat (i0 + i) + 1)).
Proof.
  intros Hnd. revert i0 h i. induction Hnd as [|l0 tools Hnotin Hnd IH]; intros i0 h i Hi Hh.
  - discriminate.
  - cbn [mark_loop]. destruct i as [|i].
    + injection Hi as ->. unfold deref. rewrite mark_loop_untouched by exact Hnotin.
      fold (deref (setitem l "relevance_score" (VFloat 1)
                     (setitem l "rank" (VInt (Z.of_nat i0 + 1)) h)) l).
      rewrite deref_setitem_other by discriminate.
      rewrite Nat.add_0_r. apply deref_setitem_same. exact Hh.
    + simpl in Hi. rewrite (IH (S i0) _ i Hi).
      * do 3 f_equal. lia.
      * rewrite !setitem_is_Some. exact Hh.
Qed.

(** X24: for a count below the corpus size the returned records are ranked
    in the order of the draw: when the drawn objects are all different, the
    i-th of them carries rank i + 1. *)
Theorem get_random_tools_ranks st count choice st' locs i l :
  count < corpus_size st ->
  Forall (fun l => is_Some (heap st !! l)) (tools_data st) ->
  get_random_tools st count choice = Ok (st', locs) ->
  NoDup locs -> locs !! i = Some l ->
  deref (heap st') l !! "rank" = Some (VInt (Z.of_nat i + 1)).
Proof.
  intros Hc Hwf H Hnd Hi.
  destruct (get_random_tools_aliases _ _ _ _ _ H) as [Hsub _].
  unfold get_random_tools in H.
  replace (corpus_size st <=? count) with false in H by lia.
  destruct (random_sample (tools_data st) count choice) as [r|]; [|discriminate].
  cbn [mbind res_bind mret res_ret] in H. injection H as <- <-. simpl.
  apply (mark_loop_rank 0 r (heap st) i l Hnd Hi).
  rewrite Forall_forall in Hwf. apply Hwf. apply Hsub.
  eapply list_elem_of_lookup_2. exact Hi.
Qed.

(** X25: for [0 <= count < len] and a draw of [count] different places,
    [get_random_tools] returns the [count] objects at these places; they
    are pairwise different objects when the corpus holds no object twice. *)
Theorem get_random_tools_sample st count choice :
  0 <= count < corpus_size st ->
  good_choice (length (tools_data st)) count choice ->
  exists st' locs,
    get_random_tools st count choice = Ok (st', locs) /\
    Z.of_nat (length locs) = count /\
    (forall i p, choice !! i = Some p -> locs !! i = tools_data st !! p) /\
    (NoDup (tools_data st) -> NoDup locs).
Proof.
  intros Hc Hgood.
  destruct (get_random_tools_count st count choice Hc Hgood)
    as (st' & locs & H & Hlen & Hnd & Hnth).
  exists st', locs. repeat split; try assumption.
  intros Htd. apply NoDup_alt. intros i j l Hi Hj.
  destruct Hgood as (Hclen & _ & Hlt).
  assert (Hch : forall n x, locs !! n = Some x ->
             exists p, choice !! n = Some p /\ tools_data st !! p = Some x).
  { intros n x Hn. destruct (choice !! n) as [p|] eqn:Ep.
    - exists p. split; [reflexivity|]. rewrite <- (Hnth n p Ep). exact Hn.
    - apply lookup_ge_None in Ep. apply lookup_lt_Some in Hn. lia. }
  destruct (Hch i l Hi) as (p & Hp & Hpl). destruct (Hch j l Hj) as (q & Hq & Hql).
  assert (p = q) by (eapply (proj1 (NoDup_alt _) Htd); eassumption). subst q.
  eapply (proj1 (NoDup_alt _) Hnd); eassumption.
Qed.

End RandomFacts.

(** *** [get_random_tools] on sample data *)

Lemma get_random_tools_negative_witness :
  get_random_tools two_tools (-1) [] = Raise ValueError.
Proof. exact (get_random_tools_negative two_tools (-1) [] ltac:(reflexivity)). Defined.

Lemma good_choice_second : good_choice (length (tools_data two_tools)) 1 [1%nat].
Proof.
  split; [reflexivity|]. split.
  - apply NoDup_singleton.
  - repeat constructor.
Qed.

Lemma get_random_tools_one :
  get_random_tools two_tools 1 [1%nat]
  = Ok (with_heap two_tools (mark_loop 0 [1%nat] (heap two_tools)), [1%nat]).
Proof. reflexivity. Qed.

Lemma get_random_tools_frame_witness :
  deref (mark_loop 0 [1%nat] (heap two_tools)) 0%nat !! "name"
  = deref (heap two_tools) 0%nat !! "name" /\
  tools_data two_tools = tools_data two_tools.
Proof.
  apply (get_random_tools_frame two_tools 1 [1%nat]
           (with_heap two_tools (mark_loop 0 [1%nat] (heap two_tools))) [1%nat]
           0%nat "name" get_random_tools_one).
  right. split; discriminate.
Defined.

Lemma get_random_tools_ranks_witness :
  deref (mark_loop 0 [1%nat] (heap two_tools)) 1%nat !! "rank"
  = Some (VInt (Z.of_nat 0 + 1)).
Proof.
  apply (get_random_tools_ranks two_tools 1 [1%nat]
           (with_heap two_tools (mark_loop 0 [1%nat] (heap two_tools))) [1%nat]
           0%nat 1%nat).
  - reflexivity.
  - exact two_tools_allocated.
  - exact get_random_tools_one.
  - apply NoDup_singleton.
  - reflexivity.
Defined.

Lemma get_random_tools_sample_witness :
  exists st' locs,
    get_random_tools two_tools 1 [1%nat] = Ok (st', locs) /\
    Z.of_nat (length locs) = 1 /\
    (forall i p, [1%nat] !! i = Some p -> locs !! i = tools_data two_tools !! p) /\
    (NoDup (tools_data two_tools) -> NoDup locs).
Proof.
  apply (get_random_tools_sample two_tools 1 [1%nat]).
  - split; [discriminate|reflexivity].
  - exact good_choice_second.
Defined.


(** ** More about the snapshot store and the build of the index *)

Section SnapshotLoads.

Context {P : Pickle}.

(** Loading from a path that holds no file changes nothing and
    returns [False]. *)
Lemma load_index_missing_file (st : engine) (path : pystr) (fs : gmap pystr blob) :
  fs !! path = None -> load_index st path fs = (st, false).
Proof. intros H. unfold load_index. rewrite H. reflexivity. Qed.

(** X26: a load that fails late is not undone: from a snapshot saved
    without embeddings [load_index] returns [False], but the corpus of the
    engine is already the corpus of the snapshot, while the index is still
    the old one. *)
Theorem load_index_half_done (st st0 : engine) (path : pystr) (fs : gmap pystr blob) :
  (forall data, pickle_loads (pickle_dumps data) = Ok data) ->
  embeddings st = None ->
  exists st',
    load_index st0 path (save_index st path fs) = (st', false) /\
    corpus st' = corpus st /\
    embeddings st' = None /\
    index st' = index st0.
Proof.
  intros Hpickle Hx. unfold load_index, save_index.
  rewrite lookup_insert_eq, Hpickle. cbn [snap_tools_data snap_embeddings].
  destruct (alloc_all (heap st0) (corpus st)) as [h locs] eqn:E.
  destruct (alloc_all_spec _ _ _ _ E) as [Hmap _].
  cbn [embeddings]. rewrite Hx. cbn [shape_1].
  eexists. split; [reflexivity|]. repeat split. exact Hmap.
Qed.

(** X27: a successful load leaves a consistent engine: the index is a new
    one of the dimension of the loaded matrix and holds exactly its rows,
    whatever index the engine had; the objects that were in the heap are
    still there. *)
Theorem load_index_rebuilds (st st0 : engine) (path : pystr) (fs : gmap pystr blob)
    (x : ndarray) (n d : nat) :
  (forall data, pickle_loads (pickle_dumps data) = Ok data) ->
  embeddings st = Some x ->
  shape x = [n; d] ->
  exists st',
    load_index st0 path (save_index st path fs) = (st', true) /\
    consistent st' /\
    index st' = Some {| dimension := d; added := [x] |} /\
    forall l tool, heap st0 !! l = Some tool -> heap st' !! l = Some tool.
Proof.
  intros Hpickle Hx Hshape. unfold load_index, save_index.
  rewrite lookup_insert_eq, Hpickle. cbn [snap_tools_data snap_embeddings].
  destruct (alloc_all (heap st0) (corpus st)) as [h locs] eqn:E.
  destruct (alloc_all_spec _ _ _ _ E) as [_ Hkeep].
  cbn [embeddings]. rewrite Hx. cbn [shape_1].
  assert (Hd : list_getitem (shape x) 1 = Ok d) by (rewrite Hshape; reflexivity).
  rewrite Hd. unfold index_add. rewrite Hshape.
  cbn [IndexFlatIP dimension added]. rewrite bool_decide_eq_true_2 by reflexivity.
  eexists. split; [reflexivity|]. cbn [index heap]. split; [|split].
  - exists x, n, d. repeat split. exact Hshape.
  - reflexivity.
  - exact Hkeep.
Qed.

End SnapshotLoads.

Section BuildFacts.

Context {U : Unicode} {E : Encoder}.

Lemma setup_search_index_inv st st' :
  setup_search_index st = (st', None) ->
  exists texts n d,
    search_texts (heap st) (tools_data st) = Ok texts /\
    shape (encode texts) = [n; d] /\
    st' = {| heap := heap st; tools_data := tools_data st;
             embeddings := Some (normalized (encode texts));
             index := Some {| dimension := d;
                              added := [normalized (encode texts)] |} |}.
Proof.
  unfold setup_search_index. intros H.
  destruct (search_texts _ _) as [texts|]; [|discriminate].
  destruct (list_getitem (shape (encode texts)) 1) as [d|] eqn:Ed; [|discriminate].
  unfold index_add in H. cbn [normalized shape IndexFlatIP dimension added] in H.
  destruct (shape (encode texts)) as [|n [|d' [|? ?]]] eqn:Es; try discriminate.
  destruct (bool_decide (d' = d)) eqn:Eb; [|discriminate].
  apply bool_decide_eq_true in Eb. subst d'.
  injection H as <-. exists texts, n, d. repeat split; assumption || reflexivity.
Qed.

Lemma search_texts_length h tools texts :
  search_texts h tools = Ok texts ->
  length texts = length tools /\
  forall i l, tools !! i = Some l ->
    exists t, texts !! i = Some t /\ create_search_text (deref h l) = Ok t.
Proof.
  revert texts. induction tools as [|l tools IH]; intros texts H.
  - injection H as <-. split; [reflexivity|]. intros i l Hi. discriminate.
  - cbn [search_texts] in H.
    destruct (create_search_text (deref h l)) as [t|] eqn:Et; [|discriminate].
    cbn [mbind res_bind] in H.
    destruct (search_texts h tools) as [rest|]; [|discriminate].
    cbn [mbind res_bind mret res_ret] in H. injection H as <-.
    destruct (IH rest eq_refl) as [Hlen Hnth]. split; [simpl; congruence|].
    intros [|i] l' Hi.
    + injection Hi as <-. exists t. split; [reflexivity|exact Et].
    + simpl in Hi. apply Hnth. exact Hi.
Qed.

(** X28: when [setup_search_index] succeeds the engine is consistent: the
    embeddings are the normalised answer of the model to the search texts
    of the records, one text per record in the order of the corpus, and the
    index holds exactly these rows; the corpus is as it was. *)
Theorem setup_search_index_consistent st st' :
  setup_search_index st = (st', None) ->
  consistent st' /\
  tools_data st' = tools_data st /\ heap st' = heap st /\
  exists texts,
    embeddings st' = Some (normalized (encode texts)) /\
    length texts = length (tools_data st) /\
    forall i l, tools_data st !! i = Some l ->
      exists t, texts !! i = Some t /\ create_search_text (deref (heap st) l) = Ok t.
Proof.
  intros H. apply setup_search_index_inv in H as (texts & n & d & Ht & Hs & ->).
  cbn [tools_data heap embeddings]. split; [|split; [reflexivity|split; [reflexivity|]]].
  - exists (normalized (encode texts)), n, d. repeat split. exact Hs.
  - exists texts. split; [reflexivity|]. apply search_texts_length. exact Ht.
Qed.

(** X29: a snapshot of a built engine restores the build: loading what was
    saved after [setup_search_index] gives the same index, the same
    embeddings and a corpus of the same content, without a call of the
    model. *)
Theorem build_save_load {P : Pickle} (st st1 st0 : engine) (path : pystr)
    (fs : gmap pystr blob) :
  (forall data, pickle_loads (pickle_dumps data) = Ok data) ->
  setup_search_index st = (st1, None) ->
  exists st2,
    load_index st0 path (save_index st1 path fs) = (st2, true) /\
    index st2 = index st1 /\
    embeddings st2 = embeddings st1 /\
    corpus st2 = corpus st.
Proof.
  intros Hpickle H. apply setup_search_index_inv in H as (texts & n & d & Ht & Hs & ->).
  unfold load_index, save_index.
  rewrite lookup_insert_eq, Hpickle. cbn [snap_tools_data snap_embeddings embeddings].
  match goal with |- context [alloc_all ?h ?c] =>
    destruct (alloc_all h c) as [h' locs] eqn:Ea end.
  destruct (alloc_all_spec _ _ _ _ Ea) as [Hmap _].
  cbn [shape_1 normalized shape].
  assert (Hd : list_getitem (shape (encode texts)) 1 = Ok d) by (rewrite Hs; reflexivity).
  rewrite Hd. unfold index_add. cbn [shape normalized]. rewrite Hs.
  cbn [IndexFlatIP dimension added]. rewrite bool_decide_eq_true_2 by reflexivity.
  eexists. split; [reflexivity|]. cbn [index embeddings].
  repeat split. unfold corpus at 1. cbn [heap tools_data]. exact Hmap.
Qed.

(** A record without one of the searchable fields stops the build
    before the model is called: [setup_search_index] raises [KeyError] and
    leaves the engine as it was. *)
Lemma setup_search_index_key_error st l k :
  l ∈ tools_data st -> k ∈ searchable_keys -> deref (heap st) l !! k = None ->
  (forall l', l' ∈ tools_data st ->
     (exists t, create_search_text (deref (heap st) l') = Ok t) \/
     create_search_text (deref (heap st) l') = Raise KeyError) ->
  setup_search_index st = (st, Some KeyError).
Proof.
  intros Hl Hk Hnone Hall. unfold setup_search_index.
  assert (H : search_texts (heap st) (tools_data st) = Raise KeyError).
  { induction (tools_data st) as [|l0 tools IH]; [inversion Hl|].
    cbn [search_texts].
    destruct (Hall l0 ltac:(left)) as [[t Ht]|Ht]; rewrite Ht; [|reflexivity].
    cbn [mbind res_bind].
    apply elem_of_cons in Hl as [->|Hl].
    - rewrite (create_search_text_lacks _ k Hk Hnone) in Ht. discriminate.
    - rewrite IH; [reflexivity|exact Hl|].
      intros l' Hl'. apply Hall. by right. }
  rewrite H. reflexivity.
Qed.

End BuildFacts.


(** *** The snapshot store and the build on sample data *)

Lemma transparent_pickle_round_trip :
  forall data,
    pickle_loads (Pickle := transparent_pickle)
      (pickle_dumps (Pickle := transparent_pickle) data) = Ok data.
Proof. intros data. reflexivity. Qed.

Lemma load_index_half_done_witness :
  exists st',
    load_index (P := transparent_pickle) fresh_engine (py "search_index.pkl")
      (save_index (P := transparent_pickle) two_tools (py "search_index.pkl") ∅)
    = (st', false) /\
    corpus st' = corpus two_tools /\
    embeddings st' = None /\
    index st' = index fresh_engine.
Proof.
  exact (load_index_half_done (P := transparent_pickle) two_tools fresh_engine
           (py "search_index.pkl") ∅ transparent_pickle_round_trip eq_refl).
Defined.

Lemma load_index_rebuilds_witness :
  exists st',
    load_index (P := transparent_pickle) fresh_engine (py "search_index.pkl")
      (save_index (P := transparent_pickle) built_engine (py "search_index.pkl") ∅)
    = (st', true) /\
    consistent st' /\
    index st' = Some {| dimension := 3; added := [two_rows] |} /\
    forall l tool, heap fresh_engine !! l = Some tool -> heap st' !! l = Some tool.
Proof.
  exact (load_index_rebuilds (P := transparent_pickle) built_engine fresh_engine
           (py "search_index.pkl") ∅ two_rows 2 3 transparent_pickle_round_trip
           eq_refl eq_refl).
Defined.

Lemma search_texts_two_tools :
  search_texts (U := ascii_only) (heap two_tools) (tools_data two_tools)
  = Ok two_tools_texts.
Proof. by_computation. Qed.

Lemma setup_search_index_unbuilt :
  setup_search_index (U := ascii_only) (E := two_row_encoder) unbuilt_engine
  = (rebuilt_engine, None).
Proof.
  unfold setup_search_index. cbn [unbuilt_engine heap tools_data index].
  rewrite search_texts_two_tools. reflexivity.
Qed.

Lemma setup_search_index_consistent_witness :
  consistent rebuilt_engine /\
  tools_data rebuilt_engine = tools_data unbuilt_engine /\
  heap rebuilt_engine = heap unbuilt_engine /\
  exists texts,
    embeddings rebuilt_engine
    = Some (normalized (E := two_row_encoder) (encode (Encoder := two_row_encoder) texts)) /\
    length texts = length (tools_data unbuilt_engine) /\
    forall i l, tools_data unbuilt_engine !! i = Some l ->
      exists t, texts !! i = Some t /\
        create_search_text (U := ascii_only) (deref (heap unbuilt_engine) l) = Ok t.
Proof.
  exact (setup_search_index_consistent (U := ascii_only) (E := two_row_encoder)
           unbuilt_engine rebuilt_engine setup_search_index_unbuilt).
Defined.

Lemma build_save_load_witness :
  exists st2,
    load_index (P := transparent_pickle) fresh_engine (py "search_index.pkl")
      (save_index (P := transparent_pickle) rebuilt_engine (py "search_index.pkl") ∅)
    = (st2, true) /\
    index st2 = index rebuilt_engine /\
    embeddings st2 = embeddings rebuilt_engine /\
    corpus st2 = corpus unbuilt_engine.
Proof.
  exact (build_save_load (U := ascii_only) (E := two_row_encoder)
           (P := transparent_pickle) unbuilt_engine rebuilt_engine fresh_engine
           (py "search_index.pkl") ∅ transparent_pickle_round_trip
           setup_search_index_unbuilt).
Defined.

(** * Rounding *)

(** ** Rounding keeps the order *)

Section RoundingFacts.

Local Open Scope Q_scope.

Lemma round_half_even_bounds (x : Q) :
  (Qfloor x <= round_half_even x <= Qfloor x + 1)%Z.
Proof.
  unfold round_half_even. destruct (Qcompare _ _); [destruct (Z.even _)| |]; lia.
Qed.

Lemma round_half_even_le (x y : Q) :
  x <= y -> (round_half_even x <= round_half_even y)%Z.
Proof.
  intros Hxy. pose proof (Qfloor_resp_le _ _ Hxy) as Hf.
  destruct (Z.eq_dec (Qfloor x) (Qfloor y)) as [E|E].
  - unfold round_half_even. rewrite <- E.
    assert (Hr : x - inject_Z (Qfloor x) <= y - inject_Z (Qfloor x)).
    { apply Qplus_le_l. exact Hxy. }
    destruct (Qcompare_spec (x - inject_Z (Qfloor x)) (1 # 2)) as [H1|H1|H1];
      destruct (Qcompare_spec (y - inject_Z (Qfloor x)) (1 # 2)) as [H2|H2|H2];
      try (destruct (Z.even (Qfloor x))); try lia; exfalso; lra.
  - pose proof (round_half_even_bounds x). pose proof (round_half_even_bounds y). lia.
Qed.

Lemma round_half_even_Z (n : Z) : round_half_even (inject_Z n) = n.
Proof.
  unfold round_half_even. rewrite Qfloor_Z.
  destruct (Qcompare_spec (inject_Z n - inject_Z n) (1 # 2)) as [H|H|H].
  - exfalso. assert (E : inject_Z n - inject_Z n == 0) by ring.
    rewrite E in H. discriminate.
  - reflexivity.
  - exfalso. assert (E : inject_Z n - inject_Z n == 0) by ring.
    rewrite E in H. discriminate.
Qed.

(** Powers of two. *)
Lemma pow2_pos (e : Z) : 0 < 2 ^ e.
Proof. apply Qpower_0_lt. reflexivity. Qed.

Lemma pow2_le (e1 e2 : Z) : (e1 <= e2)%Z -> 2 ^ e1 <= 2 ^ e2.
Proof. intros H. apply Qpower_le_compat_l; [exact H|discriminate]. Qed.

Lemma pow2_lt_inv (e1 e2 : Z) : 2 ^ e1 < 2 ^ e2 -> (e1 < e2)%Z.
Proof. intros H. apply (Qpower_lt_compat_l_inv 2); [exact H|reflexivity]. Qed.

Lemma pow2_Z (e : Z) : (0 <= e)%Z -> 2 ^ e == inject_Z (2 ^ e).
Proof. intros H. rewrite Zpower_Qpower by exact H. reflexivity. Qed.

Lemma pow2_div (a b : Z) : 2 ^ a / 2 ^ b == 2 ^ (a - b).
Proof. rewrite Qpower_minus by discriminate. reflexivity. Qed.

(** Quotients of integers, compared by cross multiplication. *)
Lemma Zdiv_Qlt (p q c d : Z) :
  (0 < c)%Z -> (0 < d)%Z -> (p * d < q * c)%Z ->
  inject_Z p / inject_Z c < inject_Z q / inject_Z d.
Proof.
  intros Hc Hd H.
  assert (Hc' : 0 < inject_Z c) by (change 0 with (inject_Z 0); rewrite <- Zlt_Qlt; exact Hc).
  assert (Hd' : 0 < inject_Z d) by (change 0 with (inject_Z 0); rewrite <- Zlt_Qlt; exact Hd).
  apply Qlt_shift_div_r; [exact Hc'|].
  assert (E : inject_Z q / inject_Z d * inject_Z c == inject_Z q * inject_Z c / inject_Z d)
    by (field; lra).
  rewrite E.
  apply Qlt_shift_div_l; [exact Hd'|].
  rewrite <- !inject_Z_mult, <- Zlt_Qlt. exact H.
Qed.

(** The logarithm brackets a positive number between two powers of two. *)
Lemma ilog2_spec (x : Q) : 0 < x -> 2 ^ ilog2 x <= x /\ x < 2 ^ (ilog2 x + 1).
Proof.
  intros Hx. destruct x as [n d]. unfold ilog2. cbn [Qnum Qden].
  assert (Hn : (0 < n)%Z). { unfold Qlt in Hx. simpl in Hx. lia. }
  set (a := Z.log2 n). set (b := Z.log2 (Z.pos d)).
  destruct (Z.log2_spec n Hn) as [Ha1 Ha2]. fold a in Ha1, Ha2.
  destruct (Z.log2_spec (Z.pos d) ltac:(lia)) as [Hb1 Hb2]. fold b in Hb1, Hb2.
  assert (Ha0 : (0 <= a)%Z) by apply Z.log2_nonneg.
  assert (Hb0 : (0 <= b)%Z) by apply Z.log2_nonneg.
  assert (Hq : n # d == inject_Z n / inject_Z (Z.pos d)) by apply Qmake_Qdiv.
  assert (Hd : 0 < inject_Z (Z.pos d)) by reflexivity.
  (* n / d < 2 ^ (a - b + 1) *)
  assert (Hup : n # d < 2 ^ (a - b + 1)).
  { replace (a - b + 1)%Z with ((a + 1) - b)%Z by lia.
    rewrite <- pow2_div, Hq, (pow2_Z (a + 1)), (pow2_Z b) by lia.
    apply Zdiv_Qlt; lia || nia. }
  (* 2 ^ (a - b - 1) < n / d *)
  assert (Hlo : 2 ^ (a - b - 1) < n # d).
  { replace (a - b - 1)%Z with (a - (b + 1))%Z by lia.
    rewrite <- pow2_div, Hq, (pow2_Z a), (pow2_Z (b + 1)) by lia.
    apply Zdiv_Qlt; lia || nia. }
  destruct (Qle_bool (2 ^ (a - b)) (n # d)) eqn:E.
  - apply Qle_bool_iff in E. split; assumption.
  - split; [apply Qlt_le_weak; exact Hlo|].
    replace (a - b - 1 + 1)%Z with (a - b)%Z by lia.
    apply Qnot_le_lt. intros H. apply Qle_bool_iff in H. congruence.
Qed.

Lemma ilog2_le (x y : Q) : 0 < x -> x <= y -> (ilog2 x <= ilog2 y)%Z.
Proof.
  intros Hx Hxy.
  destruct (ilog2_spec x Hx) as [Hx1 _].
  destruct (ilog2_spec y (Qlt_le_trans _ _ _ Hx Hxy)) as [_ Hy2].
  assert (H : 2 ^ ilog2 x < 2 ^ (ilog2 y + 1)).
  { eapply Qle_lt_trans; [exact Hx1|]. eapply Qle_lt_trans; [exact Hxy|exact Hy2]. }
  apply pow2_lt_inv in H. lia.
Qed.

Section Format.

Variable f : float_format.
Hypothesis Hprec : (1 <= precision f)%Z.

Lemma round_magnitude_nonneg (x : Q) : 0 < x -> 0 <= round_magnitude f x.
Proof.
  intros Hx. unfold round_magnitude.
  apply Qmult_le_0_compat; [|apply Qlt_le_weak, pow2_pos].
  change 0 with (inject_Z 0). rewrite <- Zle_Qle.
  pose proof (round_half_even_bounds (x / 2 ^ Z.max (ilog2 x - (precision f - 1)) (emin f))) as [H _].
  etransitivity; [|exact H].
  change 0%Z with (Qfloor (inject_Z 0)) at 1. rewrite <- (Qfloor_Z 0) at 1.
  apply Qfloor_resp_le. apply Qle_shift_div_l; [apply pow2_pos|].
  rewrite Qmult_0_l. apply Qlt_le_weak. exact Hx.
Qed.

Lemma round_magnitude_le (x y : Q) :
  0 < x -> x <= y -> round_magnitude f x <= round_magnitude f y.
Proof.
  intros Hx Hxy. assert (Hy : 0 < y) by (eapply Qlt_le_trans; eassumption).
  pose proof (ilog2_le x y Hx Hxy) as Hlog.
  unfold round_magnitude.
  set (ex := Z.max (ilog2 x - (precision f - 1)) (emin f)).
  set (ey := Z.max (ilog2 y - (precision f - 1)) (emin f)).
  destruct (Z.eq_dec ex ey) as [E|E].
  - rewrite <- E. apply Qmult_le_compat_r; [|apply Qlt_le_weak, pow2_pos].
    rewrite <- Zle_Qle. apply round_half_even_le.
    apply Qmult_le_compat_r; [exact Hxy|].
    apply Qlt_le_weak, Qinv_lt_0_compat, pow2_pos.
  - assert (Hex : (ex < ey)%Z) by (unfold ex, ey in *; lia).
    assert (Hey : ey = (ilog2 y - (precision f - 1))%Z) by (unfold ex, ey in *; lia).
    assert (Hk : (ilog2 x < ilog2 y)%Z) by (unfold ex, ey in *; lia).
    set (k := ilog2 y) in *.
    destruct (ilog2_spec x Hx) as [_ Hx2]. destruct (ilog2_spec y Hy) as [Hy1 _].
    fold k in Hy1.
    apply (Qle_trans _ (2 ^ k)).
    + (* the rounding of x stays below 2 ^ k *)
      assert (Hxk : x <= 2 ^ k).
      { apply Qlt_le_weak. eapply Qlt_le_trans; [exact Hx2|]. apply pow2_le. lia. }
      assert (Hd : x / 2 ^ ex <= inject_Z (2 ^ (k - ex))).
      { rewrite <- pow2_Z by lia. rewrite <- pow2_div.
        apply Qmult_le_compat_r; [exact Hxk|].
        apply Qlt_le_weak, Qinv_lt_0_compat, pow2_pos. }
      apply round_half_even_le in Hd. rewrite round_half_even_Z in Hd.
      rewrite Zle_Qle in Hd.
      apply (Qle_trans _ (inject_Z (2 ^ (k - ex)) * 2 ^ ex)).
      * apply Qmult_le_compat_r; [exact Hd|apply Qlt_le_weak, pow2_pos].
      * rewrite <- pow2_Z by lia. rewrite <- Qpower_plus by discriminate.
        replace (k - ex + ex)%Z with k by lia. apply Qle_refl.
    + (* the rounding of y stays at or above 2 ^ k *)
      assert (Hd : inject_Z (2 ^ (k - ey)) <= y / 2 ^ ey).
      { rewrite <- pow2_Z by lia. rewrite <- pow2_div.
        apply Qmult_le_compat_r; [exact Hy1|].
        apply Qlt_le_weak, Qinv_lt_0_compat, pow2_pos. }
      apply round_half_even_le in Hd. rewrite round_half_even_Z in Hd.
      rewrite Zle_Qle in Hd.
      apply (Qle_trans _ (inject_Z (2 ^ (k - ey)) * 2 ^ ey)).
      * rewrite <- pow2_Z by lia. rewrite <- Qpower_plus by discriminate.
        replace (k - ey + ey)%Z with k by lia. apply Qle_refl.
      * apply Qmult_le_compat_r; [exact Hd|apply Qlt_le_weak, pow2_pos].
Qed.

(** Rounding to a format keeps the order. *)
Lemma round_float_le (x y : Q) : x <= y -> round_float f x <= round_float f y.
Proof.
  intros Hxy. unfold round_float.
  assert (Hinf : 0 <= 2 ^ emax f) by apply Qlt_le_weak, pow2_pos.
  assert (Hpos : forall z, 0 < z -> 0 <= Qmin (round_magnitude f z) (2 ^ emax f)).
  { intros z Hz. apply Q.min_glb; [apply round_magnitude_nonneg; exact Hz|exact Hinf]. }
  assert (Hneg : forall z, z < 0 -> 0 < - z).
  { intros z Hz. apply (Qplus_lt_l _ _ z). ring_simplify. exact Hz. }
  destruct (Qcompare_spec x 0) as [Hx|Hx|Hx]; destruct (Qcompare_spec y 0) as [Hy|Hy|Hy].
  - apply Qle_refl.
  - exfalso. rewrite Hx in Hxy. apply (Qlt_not_le _ _ Hy Hxy).
  - apply Hpos. exact Hy.
  - apply (Qopp_le_compat 0). apply Hpos, Hneg. exact Hx.
  - apply Qopp_le_compat. apply Q.min_le_compat_r.
    apply round_magnitude_le; [apply Hneg; exact Hy|]. apply Qopp_le_compat. exact Hxy.
  - apply (Qle_trans _ 0); [apply (Qopp_le_compat 0), Hpos, Hneg; exact Hx|apply Hpos; exact Hy].
  - exfalso. rewrite Hy in Hxy. apply (Qlt_not_le _ _ Hx Hxy).
  - exfalso. apply (Qlt_not_le _ _ Hx). eapply Qle_trans; [exact Hxy|].
    apply Qlt_le_weak. exact Hy.
  - apply Q.min_le_compat_r. apply round_magnitude_le; assumption.
Qed.

End Format.

End RoundingFacts.

Lemma exact_floats_monotone : monotone_floats exact_floats.
Proof.
  split; simpl.
  - intros x y H. exact H.
  - apply Qle_refl.
  - intros s s' b b' Hs Hb. apply Qplus_le_compat; assumption.
Qed.

Lemma numpy1_floats_monotone : monotone_floats numpy1_floats.
Proof.
  split; simpl.
  - intros x y H. apply round_float_le; [simpl; lia|exact H].
  - apply Qle_refl.
  - intros s s' b b' Hs Hb. apply round_float_le; [simpl; lia|].
    apply Qplus_le_compat; assumption.
Qed.

Lemma numpy2_floats_monotone : monotone_floats numpy2_floats.
Proof.
  split; simpl.
  - intros x y H. apply round_float_le; [simpl; lia|exact H].
  - apply Qle_refl.
  - intros s s' b b' Hs Hb. apply round_float_le; [simpl; lia|].
    apply Qplus_le_compat; [exact Hs|]. apply round_float_le; [simpl; lia|exact Hb].
Qed.

(** * [search] with rounding *)

(** ** Sorted lists and filters *)

Section SortedFilter.

Context {A : Type} (Rel : A -> A -> Prop) (f : A -> bool).

Lemma StronglySorted_filter_keeps (l : list A) :
  StronglySorted Rel l -> StronglySorted Rel (List.filter f l).
Proof.
  induction 1 as [|x l Hl IH Hx]; [constructor|].
  cbn [List.filter]. destruct (f x); [|exact IH].
  constructor; [exact IH|].
  apply List.Forall_forall. intros y Hy. apply List.filter_In in Hy as [Hy _].
  rewrite List.Forall_forall in Hx. apply Hx. exact Hy.
Qed.

(** Two elements that pass the filter stand in the filtered list in the
    order in which they stand in the list. *)
Lemma filter_sorted_lookup (l : list A) (i j : nat) (x y : A) :
  StronglySorted Rel (List.filter f l) -> (i < j)%nat ->
  l !! i = Some x -> l !! j = Some y -> f x = true -> f y = true -> Rel x y.
Proof.
  revert i j. induction l as [|z l IH]; intros i j Hs Hij Hi Hj Hx Hy; [discriminate|].
  destruct j as [|j]; [lia|]. cbn in Hj.
  destruct i as [|i].
  - cbn in Hi. injection Hi as ->. cbn [List.filter] in Hs. rewrite Hx in Hs.
    apply StronglySorted_inv in Hs as [_ Hall].
    rewrite List.Forall_forall in Hall. apply Hall.
    apply List.filter_In. split; [|exact Hy].
    apply list_elem_of_In. eapply list_elem_of_lookup_2. eassumption.
  - cbn in Hi. apply (IH i j); try assumption; [|lia].
    cbn [List.filter] in Hs. destruct (f z); [|exact Hs].
    apply StronglySorted_inv in Hs as [Hs _]. exact Hs.
Qed.

End SortedFilter.

(** ** The loop and the sort *)

Section RoundedSearch.

Context {U : Unicode} {R : Retrieval} {F : Rounded.Floats}.

Lemma rounded_scored_fields tool i score popularity :
  tool !! "popularity" = Some popularity ->
  let d := Rounded.scored tool i score popularity in
  d !! "relevance_score" = Some (VFloat score) /\
  d !! "rank" = Some (VInt (Z.of_nat i + 1)) /\
  d !! "popularity" = Some popularity /\
  d !! "final_score"
  = Some (VFloat (Rounded.float_add score (Rounded.popularity_bonus popularity))).
Proof.
  intros Hp d. unfold d, Rounded.scored. repeat split.
  - rewrite !lookup_insert_ne by discriminate. apply lookup_insert_eq.
  - rewrite lookup_insert_ne by discriminate. apply lookup_insert_eq.
  - rewrite !lookup_insert_ne by discriminate. exact Hp.
  - apply lookup_insert_eq.
Qed.

Lemma rounded_score_hit_some st i score idx d :
  Rounded.score_hit st i (score, idx) = Ok (Some d) -> rounded_at st i d.
Proof.
  unfold Rounded.score_hit. destruct (corpus_size st <=? idx); [discriminate|].
  destruct (list_getitem (tools_data st) idx) as [l|e] eqn:El; [|discriminate].
  cbn [mbind res_bind]. unfold dict_getitem.
  rewrite lookup_insert_ne by discriminate.
  rewrite lookup_insert_ne by discriminate.
  destruct (deref (heap st) l !! "popularity") as [p|] eqn:Ep; [|discriminate].
  cbn [mbind res_bind mret res_ret]. intros [= <-].
  exists score, l, p. repeat split; [|assumption].
  eapply list_getitem_elem. eassumption.
Qed.

Lemma rounded_search_loop_acc st i hits acc :
  Rounded.search_loop st i hits acc
  = (built ← Rounded.search_loop st i hits []; mret (acc ++ built)).
Proof.
  revert i acc. induction hits as [|hit hits IH]; intros i acc.
  - cbn. rewrite app_nil_r. reflexivity.
  - cbn [Rounded.search_loop].
    destruct (Rounded.score_hit st i hit) as [[d|]|e]; cbn [mbind res_bind]; try reflexivity.
    + rewrite (IH (S i) (acc ++ [d])), (IH (S i) ([] ++ [d])).
      destruct (Rounded.search_loop st (S i) hits []); cbn [mbind res_bind mret res_ret];
        [|reflexivity].
      rewrite <- app_assoc. reflexivity.
    + apply IH.
Qed.

Lemma rounded_search_loop_cons st i hit hits :
  Rounded.search_loop st i (hit :: hits) []
  = (r ← Rounded.score_hit st i hit;
     built ← Rounded.search_loop st (S i) hits [];
     mret (match r with Some d => d :: built | None => built end)).
Proof.
  cbn [Rounded.search_loop].
  destruct (Rounded.score_hit st i hit) as [[d|]|e]; cbn [mbind res_bind]; try reflexivity.
  - rewrite rounded_search_loop_acc. reflexivity.
  - destruct (Rounded.search_loop st (S i) hits []); reflexivity.
Qed.

Lemma rounded_at_rank st i d :
  rounded_at st i d -> d !! "rank" = Some (VInt (Z.of_nat i + 1)).
Proof.
  intros (s & l & p & _ & Hp & ->).
  destruct (rounded_scored_fields _ i s p Hp) as (_ & Hr & _). exact Hr.
Qed.

(** The loop builds its results in the order of the hits: their rank
    fields grow along the list. *)
Lemma rounded_search_loop_built st i0 hits built :
  Rounded.search_loop st i0 hits [] = Ok built ->
  Forall (rounded_from st i0) built /\ StronglySorted rank_lt built.
Proof.
  revert i0 built. induction hits as [|[score idx] hits IH]; intros i0 built.
  - intros [= <-]. split; constructor.
  - rewrite rounded_search_loop_cons.
    destruct (Rounded.score_hit st i0 (score, idx)) as [r|e] eqn:E; [|discriminate].
    cbn [mbind res_bind].
    destruct (Rounded.search_loop st (S i0) hits []) as [b|e] eqn:Eb; [|discriminate].
    cbn [mbind res_bind mret res_ret]. intros [= <-].
    destruct (IH _ _ Eb) as [Hall Hsorted].
    assert (Hall' : Forall (rounded_from st i0) b).
    { eapply Forall_impl; [exact Hall|].
      intros d (i & Hi & Hd). exists i. split; [lia|exact Hd]. }
    destruct r as [d|]; [|split; assumption].
    apply rounded_score_hit_some in E.
    split; [constructor; [exists i0; split; [lia|exact E]|exact Hall']|].
    constructor; [exact Hsorted|].
    apply List.Forall_forall. intros d' Hd'. apply list_elem_of_In in Hd'.
    rewrite Forall_forall in Hall. destruct (Hall d' Hd') as (i' & Hi' & Hd'').
    exists (Z.of_nat i0 + 1), (Z.of_nat i' + 1).
    split; [apply (rounded_at_rank st); exact E|].
    split; [apply (rounded_at_rank st); exact Hd''|lia].
Qed.

Lemma rounded_from_fields st i0 d :
  rounded_from st i0 d ->
  exists score popularity,
    d !! "relevance_score" = Some (VFloat score) /\
    d !! "popularity" = Some popularity /\
    d !! "final_score"
    = Some (VFloat (Rounded.float_add score (Rounded.popularity_bonus popularity))).
Proof.
  intros (i & _ & s & l & p & _ & Hp & ->).
  destruct (rounded_scored_fields _ i s p Hp) as (H1 & _ & H3 & H4).
  exists s, p. repeat split; assumption.
Qed.

Lemma rounded_with_keys st i0 built :
  Forall (rounded_from st i0) built ->
  with_keys (number_key "final_score") built
  = Ok (map (fun d => (final_score_of d, d)) built).
Proof.
  induction 1 as [|d built Hd H IH]; [reflexivity|].
  cbn [with_keys]. rewrite IH.
  destruct (rounded_from_fields _ _ _ Hd) as (s & p & _ & _ & Hf).
  unfold number_key, dict_getitem. rewrite Hf.
  cbn [mbind res_bind mret res_ret map].
  unfold final_score_of, float_field. rewrite Hf. reflexivity.
Qed.

(** [Rounded.search] on a query that is not blank: the loop, then the
    sort. *)
Lemma rounded_search_ok_inv st query top_k out :
  Rounded.search st query top_k = Ok out ->
  exists built,
    Forall (rounded_from st 0) built /\ StronglySorted rank_lt built /\
    out = map snd (sort_desc (map (fun d => (final_score_of d, d)) built)).
Proof.
  unfold Rounded.search. destruct (bool_decide (strip query = [])).
  { intros [= <-]. exists []. repeat split; constructor. }
  destruct (index st) as [ix|]; [|discriminate].
  destruct (Rounded.search_loop st 0 _ []) as [built|e] eqn:E; [|discriminate].
  cbn [mbind res_bind]. destruct (rounded_search_loop_built _ _ _ _ E) as [Hb Hs].
  unfold sort_reverse. rewrite (rounded_with_keys st 0 built Hb).
  cbn [mbind res_bind mret res_ret]. intros [= <-].
  exists built. repeat split; assumption.
Qed.

(** The results of [Rounded.search] are records built by the loop; they
    stand in descending order of their final scores, and results of equal
    final score in the order of their rank fields. *)
Lemma rounded_search_order st query top_k out :
  Rounded.search st query top_k = Ok out ->
  Forall (rounded_from st 0) out /\
  (forall i j a b, (i < j)%nat -> out !! i = Some a -> out !! j = Some b ->
     (final_score_of b <= final_score_of a)%Q /\
     ((final_score_of a == final_score_of b)%Q -> rank_lt a b)).
Proof.
  intros H. apply rounded_search_ok_inv in H as (built & Hb & Hs & ->).
  set (keyed := map (fun d => (final_score_of d, d)) built).
  split.
  - apply Forall_forall. intros d Hd.
    apply list_elem_of_fmap in Hd as ([q d'] & -> & Hd).
    apply list_elem_of_In in Hd.
    apply (Permutation_in _ (sort_desc_perm _)) in Hd.
    apply list_elem_of_In, list_elem_of_fmap in Hd as (d0 & [= -> ->] & Hd).
    rewrite Forall_forall in Hb. simpl. apply Hb. exact Hd.
  - intros i j a b Hij Ha Hb'.
    apply sorted_results_lookup in Ha, Hb'. fold keyed in Ha, Hb'.
    split.
    + apply (sorted_lookup_ge _ i j _ _ (sort_desc_sorted _) Hij Ha Hb').
    + intros Heq.
      set (f := fun z : Q * dict => Qeq_bool (fst z) (final_score_of a)).
      apply (filter_sorted_lookup (fun x y : Q * dict => rank_lt (snd x) (snd y)) f
               (sort_desc keyed) i j (final_score_of a, a) (final_score_of b, b));
        try assumption.
      * unfold f. rewrite sort_desc_stable. apply StronglySorted_filter_keeps.
        unfold keyed. clear -Hs. induction Hs as [|d l Hl IH Hd]; [constructor|].
        cbn [map]. constructor; [exact IH|].
        apply List.Forall_forall. intros z Hz. apply List.in_map_iff in Hz as (d' & <- & Hd').
        rewrite List.Forall_forall in Hd. simpl. apply Hd. exact Hd'.
      * unfold f. simpl. apply Qeq_bool_iff. reflexivity.
      * unfold f. simpl. apply Qeq_bool_iff. symmetry. exact Heq.
Qed.

End RoundedSearch.

(** ** The bonus and the order of the results *)

Section RoundedOrder.

Context {U : Unicode} {R : Retrieval} {F : Rounded.Floats}.

Hypothesis laws : monotone_floats F.

Lemma float_add_comp (s s' b b' : Q) :
  (s == s')%Q -> (b == b')%Q ->
  (Rounded.float_add s b == Rounded.float_add s' b')%Q.
Proof.
  intros Hs Hb. apply Qle_antisym; apply (float_add_le F laws);
    rewrite ?Hs, ?Hb; apply Qle_refl.
Qed.

Lemma float_cap_nonneg : (0 <= Rounded.float_of (1 # 10))%Q.
Proof.
  eapply Qle_trans; [apply (float_of_zero F laws)|].
  apply (float_of_le F laws). discriminate.
Qed.

(** The bonus of a popularity string that parses and whose quotient does
    not overflow. *)
Lemma rounded_bonus_str (p : pystr) (n : Z) :
  py_int (strip_plus_comma p) = Ok n -> quotient_overflows n = false ->
  Rounded.popularity_bonus (VStr p)
  = py_min (Rounded.float_of (inject_Z n / inject_Z 10000)) (Rounded.float_of (1 # 10)).
Proof.
  intros Hn Ho. unfold Rounded.popularity_bonus. cbn [truthy].
  destruct (decide (p = [])) as [->|Hp].
  { exfalso. vm_compute in Hn. discriminate. }
  rewrite bool_decide_eq_false_2 by assumption. cbn [negb].
  rewrite parse_popularity_str, Hn. cbn [mbind res_bind].
  unfold int_truediv. cbn [Z.eqb].
  unfold quotient_overflows in Ho. change (10000%Q) with (inject_Z 10000) in Ho.
  rewrite Ho. reflexivity.
Qed.

Lemma rounded_bonus_le_cap (popularity : value) :
  (Rounded.popularity_bonus popularity <= Rounded.float_of (1 # 10))%Q.
Proof.
  unfold Rounded.popularity_bonus.
  destruct (truthy popularity); [|apply float_cap_nonneg].
  destruct (parse_popularity popularity) as [n|]; cbn [mbind res_bind];
    [|apply float_cap_nonneg].
  destruct (int_truediv n 10000) as [q|]; cbn [mbind res_bind mret res_ret];
    [|apply float_cap_nonneg].
  apply py_min_le_r.
Qed.

Lemma rounded_bonus_nonneg (popularity : value) :
  (forall n, parse_popularity popularity = Ok n -> 0 <= n) ->
  (0 <= Rounded.popularity_bonus popularity)%Q.
Proof.
  intros H. unfold Rounded.popularity_bonus.
  destruct (truthy popularity); [|apply Qle_refl].
  destruct (parse_popularity popularity) as [n|]; cbn [mbind res_bind]; [|apply Qle_refl].
  specialize (H n eq_refl).
  destruct (int_truediv n 10000) as [q|] eqn:E; cbn [mbind res_bind mret res_ret];
    [|apply Qle_refl].
  apply int_truediv_sign in E. rewrite py_min_min.
  apply Q.min_glb; [|apply float_cap_nonneg].
  eapply Qle_trans; [apply (float_of_zero F laws)|].
  apply (float_of_le F laws). rewrite E.
  apply Qle_shift_div_l; [reflexivity|]. rewrite Qmult_0_l.
  change 0%Q with (inject_Z 0). rewrite <- Zle_Qle. exact H.
Qed.

Lemma quotient_le (n m : Z) :
  n <= m -> (inject_Z n / inject_Z 10000 <= inject_Z m / inject_Z 10000)%Q.
Proof.
  intros H. apply Qmult_le_compat_r; [|discriminate]. rewrite <- Zle_Qle. exact H.
Qed.

(** The final score of a result, from its fields. *)
Lemma rounded_final_score st d s p n :
  rounded_from st 0 d ->
  float_field "relevance_score" d = Some s ->
  d !! "popularity" = Some (VStr p) ->
  py_int (strip_plus_comma p) = Ok n -> quotient_overflows n = false ->
  final_score_of d
  = Rounded.float_add s
      (py_min (Rounded.float_of (inject_Z n / inject_Z 10000)) (Rounded.float_of (1 # 10))).
Proof.
  intros Hd Hs Hp Hn Ho.
  destruct (rounded_from_fields st 0 d Hd) as (score & popularity & H1 & H2 & H3).
  unfold final_score_of, float_field in *. rewrite H3. rewrite H1 in Hs.
  injection Hs as <-. rewrite H2 in Hp. injection Hp as ->.
  simpl. rewrite (rounded_bonus_str p n Hn Ho). reflexivity.
Qed.

(** C6 (as amended): of two results with the same relevance score whose
    popularities parse to [nb < na], neither quotient by 10000 overflowing
    a float, the one with [na] has a final score that is no smaller.  It
    stands strictly earlier unless the two final scores are equal, and then
    the stable sort keeps the two in the order of the hits of the index,
    which is the order of their rank fields.  The final scores are equal
    whenever [nb] is 1000 or more, as both bonuses are the cap.  This holds
    for the float operations rounded in any way that keeps the order. *)
Theorem search_popularity_order st query top_k out i j a b sa sb pa pb na nb :
  Rounded.search st query top_k = Ok out ->
  out !! i = Some a -> out !! j = Some b ->
  float_field "relevance_score" a = Some sa ->
  float_field "relevance_score" b = Some sb -> (sa == sb)%Q ->
  a !! "popularity" = Some (VStr pa) -> b !! "popularity" = Some (VStr pb) ->
  py_int (strip_plus_comma pa) = Ok na -> py_int (strip_plus_comma pb) = Ok nb ->
  nb < na ->
  quotient_overflows na = false -> quotient_overflows nb = false ->
  (final_score_of b <= final_score_of a)%Q /\
  ((i < j)%nat \/
   (j < i)%nat /\ (final_score_of a == final_score_of b)%Q /\ rank_lt b a) /\
  (1000 <= nb -> (final_score_of a == final_score_of b)%Q).
Proof.
  intros H Hi Hj Hsa Hsb Hs Hpa Hpb Hna Hnb Hlt Hoa Hob.
  destruct (rounded_search_order _ _ _ _ H) as [Hbuilt Horder].
  rewrite Forall_forall in Hbuilt.
  assert (Ha : rounded_from st 0 a)
    by (apply Hbuilt; eapply list_elem_of_lookup_2; eassumption).
  assert (Hb : rounded_from st 0 b)
    by (apply Hbuilt; eapply list_elem_of_lookup_2; eassumption).
  rewrite (rounded_final_score st a sa pa na), (rounded_final_score st b sb pb nb)
    by assumption.
  set (qa := (inject_Z na / inject_Z 10000)%Q). set (qb := (inject_Z nb / inject_Z 10000)%Q).
  set (cap := Rounded.float_of (1 # 10)).
  assert (Hq : (Rounded.float_of qb <= Rounded.float_of qa)%Q).
  { apply (float_of_le F laws). apply quotient_le. lia. }
  assert (Hbonus : (py_min (Rounded.float_of qb) cap <= py_min (Rounded.float_of qa) cap)%Q).
  { rewrite !py_min_min. apply Q.min_le_compat_r. exact Hq. }
  assert (Hle : (Rounded.float_add sb (py_min (Rounded.float_of qb) cap)
                 <= Rounded.float_add sa (py_min (Rounded.float_of qa) cap))%Q).
  { apply (float_add_le F laws); [rewrite Hs; apply Qle_refl|exact Hbonus]. }
  split; [exact Hle|]. split.
  - destruct (Nat.lt_trichotomy i j) as [Hij|[Hij|Hij]]; [left; exact Hij| |].
    + exfalso. subst j. rewrite Hi in Hj. injection Hj as <-.
      rewrite Hpa in Hpb. injection Hpb as <-. rewrite Hna in Hnb.
      injection Hnb as <-. lia.
    + right. destruct (Horder j i b a Hij Hj Hi) as [Hge Htie].
      rewrite (rounded_final_score st a sa pa na), (rounded_final_score st b sb pb nb)
        in Hge, Htie by assumption.
      fold qa qb cap in Hge, Htie.
      assert (Heq : (Rounded.float_add sa (py_min (Rounded.float_of qa) cap)
                     == Rounded.float_add sb (py_min (Rounded.float_of qb) cap))%Q)
        by (apply Qle_antisym; assumption).
      split; [exact Hij|]. split; [exact Heq|].
      apply Htie. symmetry. exact Heq.
  - intros Hcap.
    assert (Hfull : forall n, 1000 <= n ->
              (py_min (Rounded.float_of (inject_Z n / inject_Z 10000)) cap == cap)%Q).
    { intros n Hn'. rewrite py_min_min. apply Q.min_r.
      apply (float_of_le F laws).
      apply Qle_shift_div_l; [reflexivity|].
      apply (Qle_trans _ (inject_Z 1000)); [discriminate|].
      rewrite <- Zle_Qle. exact Hn'. }
    apply float_add_comp; [exact Hs|].
    unfold qa, qb. rewrite !Hfull by lia. reflexivity.
Qed.

(** X10: relevance dominates.  A result whose relevance score exceeds what
    another result's relevance score gives with the full bonus added, the
    sum being the float sum of [search], stands before that result, unless
    its own popularity parses to a negative number. *)
Theorem search_relevance_dominates st query top_k out i j a b sa sb pa :
  Rounded.search st query top_k = Ok out ->
  out !! i = Some a -> out !! j = Some b ->
  float_field "relevance_score" a = Some sa ->
  float_field "relevance_score" b = Some sb ->
  (Rounded.float_add sb (Rounded.float_of (1 # 10)) < sa)%Q ->
  (sa <= Rounded.float_add sa 0)%Q ->
  a !! "popularity" = Some pa ->
  (forall n, parse_popularity pa = Ok n -> 0 <= n) ->
  (i < j)%nat.
Proof.
  intros H Hi Hj Hsa Hsb Hgap Hfloat Hpa Hpos.
  destruct (rounded_search_order _ _ _ _ H) as [Hbuilt Horder].
  rewrite Forall_forall in Hbuilt.
  destruct (rounded_from_fields st 0 a) as (sa' & pa' & A1 & A2 & A3);
    [apply Hbuilt; eapply list_elem_of_lookup_2; eassumption|].
  destruct (rounded_from_fields st 0 b) as (sb' & pb' & B1 & B2 & B3);
    [apply Hbuilt; eapply list_elem_of_lookup_2; eassumption|].
  assert (Hlt : (final_score_of b < final_score_of a)%Q).
  { unfold final_score_of, float_field in *. rewrite A3, B3. simpl.
    rewrite A1 in Hsa. injection Hsa as ->. rewrite B1 in Hsb. injection Hsb as ->.
    rewrite A2 in Hpa. injection Hpa as ->.
    eapply Qle_lt_trans;
      [apply (float_add_le F laws); [apply Qle_refl|apply rounded_bonus_le_cap]|].
    eapply Qlt_le_trans; [exact Hgap|].
    eapply Qle_trans; [exact Hfloat|].
    apply (float_add_le F laws); [apply Qle_refl|].
    apply rounded_bonus_nonneg. exact Hpos. }
  destruct (Nat.lt_trichotomy i j) as [Hij|[Hij|Hij]]; [exact Hij| |].
  - exfalso. subst j. rewrite Hi in Hj. injection Hj as <-.
    apply (Qlt_irrefl _ Hlt).
  - exfalso. destruct (Horder j i b a Hij Hj Hi) as [Hge _].
    apply (Qlt_not_le _ _ Hlt Hge).
Qed.

End RoundedOrder.

(** Without rounding [Rounded.search] is [search]. *)
Lemma rounded_search_exact {U : Unicode} {R : Retrieval} st query top_k :
  Rounded.search (F := exact_floats) st query top_k = search st query top_k.
Proof.
  assert (Hloop : forall hits i acc,
             Rounded.search_loop (F := exact_floats) st i hits acc
             = search_loop st i hits acc).
  { induction hits as [|hit hits IH]; intros i acc; [reflexivity|].
    cbn [Rounded.search_loop search_loop].
    change (Rounded.score_hit (F := exact_floats) st i hit) with (score_hit st i hit).
    destruct (score_hit st i hit) as [r|e]; cbn [mbind res_bind]; [|reflexivity].
    apply IH. }
  unfold Rounded.search, search. destruct (bool_decide _); [reflexivity|].
  destruct (index st); [|reflexivity]. rewrite Hloop. reflexivity.
Qed.


(** ** [search] with rounding on sample data *)

(** The two quotients of [deep_pair] round to the same double. *)
Lemma deep_quotients_collide :
  (round_float binary64 (inject_Z (-100000000000000000001) / inject_Z 10000)
   == round_float binary64 (inject_Z (-100000000000000000000) / inject_Z 10000))%Q.
Proof. apply Qeq_bool_iff. by_computation. Qed.

Lemma search_deep_pair :
  Rounded.search (U := ascii_only) (R := tied_hits) (F := numpy2_floats)
    deep_pair (py "chat") 2
  = Ok [deep_pair_first; deep_pair_second].
Proof. by_items. Qed.

Lemma deep_pair_fields :
  float_field "relevance_score" deep_pair_first = Some (1 # 2)%Q /\
  float_field "relevance_score" deep_pair_second = Some (1 # 2)%Q /\
  deep_pair_first !! "popularity" = Some (VStr (py "-100000000000000000001")) /\
  deep_pair_second !! "popularity" = Some (VStr (py "-100000000000000000000")) /\
  py_int (U := ascii_only) (strip_plus_comma (py "-100000000000000000001"))
  = Ok (-100000000000000000001) /\
  py_int (U := ascii_only) (strip_plus_comma (py "-100000000000000000000"))
  = Ok (-100000000000000000000) /\
  quotient_overflows (-100000000000000000001) = false /\
  quotient_overflows (-100000000000000000000) = false.
Proof. repeat split; by_computation. Qed.

Lemma search_popularity_order_witness :
  (final_score_of deep_pair_first <= final_score_of deep_pair_second)%Q /\
  ((1 < 0)%nat \/
   (0 < 1)%nat /\
   (final_score_of deep_pair_second == final_score_of deep_pair_first)%Q /\
   rank_lt deep_pair_first deep_pair_second) /\
  (1000 <= -100000000000000000001 ->
   (final_score_of deep_pair_second == final_score_of deep_pair_first)%Q).
Proof.
  destruct deep_pair_fields as (F1 & F2 & F3 & F4 & F5 & F6 & F7 & F8).
  exact (search_popularity_order (U := ascii_only) (R := tied_hits)
           (F := numpy2_floats) numpy2_floats_monotone deep_pair (py "chat") 2
           [deep_pair_first; deep_pair_second] 1%nat 0%nat
           deep_pair_second deep_pair_first (1 # 2)%Q (1 # 2)%Q
           (py "-100000000000000000000") (py "-100000000000000000001")
           (-100000000000000000000) (-100000000000000000001)
           search_deep_pair eq_refl eq_refl F2 F1 (Qeq_refl _) F4 F3 F6 F5
           ltac:(lia) F8 F7).
Defined.

(** Away from the cap and from colliding quotients the tool with the
    larger popularity comes first, although the index returned it second. *)
Lemma search_mixed_pair :
  Rounded.search (U := ascii_only) (R := tied_hits) (F := numpy2_floats)
    mixed_pair (py "chat") 2
  = Ok [mixed_pair_first; mixed_pair_second].
Proof. by_items. Qed.

Lemma search_apart_hits :
  Rounded.search (U := ascii_only) (R := apart_hits) (F := numpy2_floats)
    two_tools (py "chat bot") 2
  = Ok [apart_first; apart_second].
Proof. by_items. Qed.

Lemma apart_fields :
  float_field "relevance_score" apart_first = Some (7 # 8)%Q /\
  float_field "relevance_score" apart_second = Some (1 # 2)%Q /\
  apart_first !! "popularity" = Some (VStr (py "")) /\
  (Rounded.float_add (Floats := numpy2_floats) (1 # 2)
     (Rounded.float_of (Floats := numpy2_floats) (1 # 10)) < 7 # 8)%Q /\
  (7 # 8 <= Rounded.float_add (Floats := numpy2_floats) (7 # 8) 0)%Q /\
  parse_popularity (U := ascii_only) (VStr (py "")) = Raise ValueError.
Proof.
  split; [by_computation|]. split; [by_computation|]. split; [by_computation|].
  split; [apply Qltb_lt; by_computation|].
  split; [apply Qle_bool_iff; by_computation|by_computation].
Qed.

Lemma search_relevance_dominates_witness :
  Rounded.search (U := ascii_only) (R := apart_hits) (F := numpy2_floats)
    two_tools (py "chat bot") 2
  = Ok [apart_first; apart_second] /\ (0 < 1)%nat.
Proof.
  destruct apart_fields as (F1 & F2 & F3 & F4 & F5 & F6).
  split; [exact search_apart_hits|].
  apply (search_relevance_dominates (U := ascii_only) (R := apart_hits)
           (F := numpy2_floats) numpy2_floats_monotone two_tools
           (py "chat bot") 2 [apart_first; apart_second] 0%nat 1%nat
           apart_first apart_second (7 # 8)%Q (1 # 2)%Q (VStr (py ""))
           search_apart_hits eq_refl eq_refl F1 F2 F4 F5 F3).
  intros n Hn. rewrite F6 in Hn. discriminate.
Defined.
